(** * Spartan Read Aloud: a shallow embedding of Code.js and Gemini.js

    The development follows the two script files of the repository:
    - [Code.js]: the three processing steps over the "Assessment Database"
      sheet, the filename and chunking helpers, and the serving lookup;
    - [Gemini.js]: the speech request and the WAV container writer.

    JavaScript strings are sequences of UTF-16 code units; they are modelled
    as lists of [N].  Arrays are lists; an array updated by position is a
    list with stdpp's lookup and insert. *)

From Stdlib Require Import ZArith NArith Lia String Ascii DecimalString DecimalN.
From stdpp Require Import base list.

Local Open Scope N_scope.

(* ===================================================================== *)
(** * JavaScript strings                                                  *)
(* ===================================================================== *)

Module JS.

(** A string is a list of UTF-16 code units. *)
Abbreviation jsstring := (list N).

(** A string literal of the source, written in Basic Latin. *)
Definition lit (s : string) : jsstring :=
  map N_of_ascii (list_ascii_of_string s).
Arguments lit s%_string.

(** The character class [\s] of a regular expression, which is also the set
    that [String.prototype.trim] strips: WhiteSpace and LineTerminator of
    ECMAScript (TAB, LF, VT, FF, CR, SP, NBSP, the Zs category, LS, PS,
    ZWNBSP). *)
Definition is_space (c : N) : bool :=
  ((9 <=? c) && (c <=? 13)) || (c =? 32) || (c =? 160) || (c =? 5760)
  || ((8192 <=? c) && (c <=? 8202)) || (c =? 8232) || (c =? 8233)
  || (c =? 8239) || (c =? 8287) || (c =? 12288) || (c =? 65279).

(** [\d] is [0-9]. *)
Definition is_digit (c : N) : bool := (48 <=? c) && (c <=? 57).

(** [\w] is [A-Za-z0-9_] (the patterns of the source carry no [u] or [i]
    flag). *)
Definition is_word (c : N) : bool :=
  ((65 <=? c) && (c <=? 90)) || ((97 <=? c) && (c <=? 122))
  || is_digit c || (c =? 95).

Definition hyphen : N := 45.
Definition dot : N := 46.
Definition newline : N := 10.

(** [s.split(/\s+/)]: the pieces between maximal runs of white space.  A run
    at the start or at the end of [s] leaves an empty piece there, and the
    empty string gives one empty piece.  [cur] is the piece being read,
    [in_run] tells that the previous code unit was white space. *)
Fixpoint split_ws_go (cur : jsstring) (in_run : bool) (s : jsstring)
  : list jsstring :=
  match s with
  | [] => [cur]
  | c :: s' =>
      if is_space c then
        if in_run then split_ws_go cur true s'
        else cur :: split_ws_go [] true s'
      else split_ws_go (cur ++ [c]) false s'
  end.

Definition split_ws (s : jsstring) : list jsstring := split_ws_go [] false s.

(** [a.join(sep)]. *)
Fixpoint join (sep : jsstring) (l : list jsstring) : jsstring :=
  match l with
  | [] => []
  | [x] => x
  | x :: l' => x ++ sep ++ join sep l'
  end.

(** [s.replace(/\s+/g, '-')]: every maximal run of white space becomes one
    hyphen. *)
Fixpoint collapse_ws_go (in_run : bool) (s : jsstring) : jsstring :=
  match s with
  | [] => []
  | c :: s' =>
      if is_space c then
        if in_run then collapse_ws_go true s'
        else hyphen :: collapse_ws_go true s'
      else c :: collapse_ws_go false s'
  end.

Definition collapse_ws (s : jsstring) : jsstring := collapse_ws_go false s.

(** [s.trim()]. *)
Fixpoint trim_start (s : jsstring) : jsstring :=
  match s with
  | [] => []
  | c :: s' => if is_space c then trim_start s' else s
  end.

Definition trim (s : jsstring) : jsstring :=
  rev (trim_start (rev (trim_start s))).

(** [s.toLowerCase()] on Basic Latin: A-Z move to a-z.  The Unicode case
    tables for the other code units are not part of the embedding, which
    leaves them as they are: the definition is the method of the script on
    strings written in Basic Latin, and a statement that says which
    identities are accepted is made for such strings ([basic_latin]).  The
    other proofs use of the function only that it keeps white space, commas
    and semicolons and turns no other unit into one of them. *)
Definition lower_unit (c : N) : N :=
  if (65 <=? c) && (c <=? 90) then c + 32 else c.

Definition toLowerCase (s : jsstring) : jsstring := map lower_unit s.

(** [String(n)] for a non-negative integer below 2^53: its decimal digits. *)
Definition decimal (n : N) : jsstring :=
  lit (NilEmpty.string_of_uint (N.to_uint n)).

(** Equality of strings, [===] on two strings. *)
Fixpoint str_eqb (a b : jsstring) : bool :=
  match a, b with
  | [], [] => true
  | x :: a', y :: b' => (x =? y) && str_eqb a' b'
  | _, _ => false
  end.

(** A string is truthy when it is not empty. *)
Definition truthy_str (s : jsstring) : bool :=
  match s with [] => false | _ => true end.

(** [s.split(sep)] for a separator of one code unit. *)
Fixpoint split_on_go (sep : N) (cur : jsstring) (s : jsstring)
  : list jsstring :=
  match s with
  | [] => [cur]
  | c :: s' =>
      if c =? sep then cur :: split_on_go sep [] s'
      else split_on_go sep (cur ++ [c]) s'
  end.

Definition split_on (sep : N) (s : jsstring) : list jsstring :=
  split_on_go sep [] s.

(** [a.includes(x)] on an array of strings. *)
Definition includes (a : list jsstring) (x : jsstring) : bool :=
  existsb (str_eqb x) a.

(** The longest prefix of [s] whose code units satisfy [p], and the rest. *)
Fixpoint take_while (p : N -> bool) (s : jsstring) : jsstring :=
  match s with
  | c :: s' => if p c then c :: take_while p s' else []
  | [] => []
  end.

Fixpoint drop_while (p : N -> bool) (s : jsstring) : jsstring :=
  match s with
  | c :: s' => if p c then drop_while p s' else s
  | [] => []
  end.

(** [s] starts with [t]. *)
Fixpoint starts_with (t s : jsstring) : bool :=
  match t, s with
  | [], _ => true
  | x :: t', y :: s' => (x =? y) && starts_with t' s'
  | _ :: _, [] => false
  end.

End JS.

Import JS.

(* ===================================================================== *)
(** * Code.js: generateSafeFilenameFromText                               *)
(* ===================================================================== *)

(** [text.split(/\s+/).slice(0, 6).join(' ')] *)
Definition firstWords (text : jsstring) : jsstring :=
  join (lit " ") (take 6 (split_ws text)).

(** [[^\w\s-]]: the code units that the first [replace] deletes are those
    for which this is false. *)
Definition kept_unit (c : N) : bool :=
  is_word c || is_space c || (c =? hyphen).

(** [firstWords.replace(/[^\w\s-]/g, '').replace(/\s+/g, '-')] *)
Definition sanitized (text : jsstring) : jsstring :=
  collapse_ws (List.filter kept_unit (firstWords text)).

(** [`-chunk-${chunkIndex + 1}.wav`] *)
Definition chunk_suffix (chunkIndex : N) : jsstring :=
  lit "-chunk-" ++ decimal (chunkIndex + 1) ++ lit ".wav".

(** The chunk index is an array index of the chunk list, so [chunkIndex + 1]
    is exact and prints as plain decimal digits. *)
Definition generateSafeFilenameFromText (text : jsstring) (chunkIndex : N)
  : jsstring :=
  let fullName := sanitized text ++ chunk_suffix chunkIndex in
  take 250 fullName.

(** [A-Za-z0-9_-] *)
Definition safe_unit (c : N) : bool := is_word c || (c =? hyphen).

(** [s] ends with [t]. *)
Definition ends_with (s t : jsstring) : Prop := exists p, s = p ++ t.

(** The naming property of the specification: the name has at most 250
    units and is a stem of units in [A-Za-z0-9_-] followed by the whole
    suffix [-chunk-<N+1>.wav]. *)
Definition canonical_name_claim (text : jsstring) (chunkIndex : N) : Prop :=
  let name := generateSafeFilenameFromText text chunkIndex in
  (length name <= 250)%nat
  /\ exists stem,
       name = stem ++ chunk_suffix chunkIndex
       /\ Forall (fun c => safe_unit c = true) stem.


(* ===================================================================== *)
(** * Code.js: the chunking of extracted text                             *)
(* ===================================================================== *)

(** The lookahead [(?=\s*\d+\.\s)] tried on the text that follows a line
    break.  White space and digits are disjoint classes and the period is
    not a digit, so the greedy choices of [\s*] and [\d+] are the only ones
    that can succeed: drop the white space, ask for one digit, drop the
    digits, ask for a period and then a white-space unit. *)
Definition item_ahead (s : jsstring) : bool :=
  match drop_while is_space s with
  | d :: r =>
      is_digit d &&
      match drop_while is_digit r with
      | p :: w :: _ => (p =? dot) && is_space w
      | _ => false
      end
  | [] => false
  end.

(** [text.split(/\n(?=\s*\d+\.\s)/)]: a match is one line feed, so the
    scan cuts at every line feed whose lookahead succeeds and the line feed
    itself is dropped. *)
Fixpoint split_items_go (cur : jsstring) (s : jsstring) : list jsstring :=
  match s with
  | [] => [cur]
  | c :: s' =>
      if (c =? newline) && item_ahead s' then cur :: split_items_go [] s'
      else split_items_go (cur ++ [c]) s'
  end.

Definition split_items (text : jsstring) : list jsstring :=
  split_items_go [] text.

(** The last line of [extractTextFromPdf]:
    [text.split(...).map(chunk => chunk.trim()).filter(chunk => chunk)]. *)
Definition chunk_text (text : jsstring) : list jsstring :=
  List.filter truthy_str (map trim (split_items text)).

(** ** The boundary as the specification words it

    "a line beginning with an integer followed by a period, after optional
    white space": the same as [item_ahead] without the white-space unit
    after the period. *)
Definition spec_item_ahead (s : jsstring) : bool :=
  match drop_while is_space s with
  | d :: r =>
      is_digit d &&
      match drop_while is_digit r with
      | p :: _ => p =? dot
      | _ => false
      end
  | [] => false
  end.

(** The positions of [text] that satisfy [ahead]: a line feed there, and
    [ahead] holds of what follows it. *)
Definition boundary_at (ahead : jsstring -> bool) (text : jsstring) (p : nat)
  : bool :=
  match drop p text with
  | c :: rest => (c =? newline) && ahead rest
  | [] => false
  end.

Definition boundaries (ahead : jsstring -> bool) (text : jsstring)
  : list nat :=
  List.filter (boundary_at ahead text) (seq 0 (length text)).

(** [text] cut at the positions [ps] (increasing, all at or after [start]),
    each position itself left out. *)
Fixpoint cut_at (text : jsstring) (start : nat) (ps : list nat)
  : list jsstring :=
  match ps with
  | [] => [drop start text]
  | p :: ps' => take (p - start) (drop start text) :: cut_at text (S p) ps'
  end.

(** The chunk list that a boundary predicate describes. *)
Definition chunks_by (ahead : jsstring -> bool) (text : jsstring)
  : list jsstring :=
  List.filter truthy_str (map trim (cut_at text 0 (boundaries ahead text))).

(** What the lookahead pattern matches, as a relation: white space, one or
    more digits, a period, a white-space unit, then anything. *)
Definition item_start (s : jsstring) : Prop :=
  exists ws ds w rest,
    s = ws ++ ds ++ dot :: w :: rest
    /\ Forall (fun c => is_space c = true) ws
    /\ ds <> [] /\ Forall (fun c => is_digit c = true) ds
    /\ is_space w = true.

(* ===================================================================== *)
(** * Code.js: getFileIdFromUrl                                           *)
(* ===================================================================== *)

(** [[a-zA-Z0-9_-]] *)
Definition id_unit (c : N) : bool := is_word c || (c =? hyphen).

(** [url.match(/\/d\/([a-zA-Z0-9_-]+)/)]: the leftmost "/d/" that is
    followed by at least one id unit; the group is the longest run of id
    units there.  [None] is [null]. *)
Fixpoint getFileIdFromUrl (url : jsstring) : option jsstring :=
  match url with
  | [] => None
  | _ :: rest =>
      if starts_with (lit "/d/") url then
        match take_while id_unit (drop 3 url) with
        | [] => getFileIdFromUrl rest
        | id => Some id
        end
      else getFileIdFromUrl rest
  end.

(** [fileName.replace(/\.pdf$/i, '')]: a final ".pdf" in any case is
    removed. *)
Definition strip_pdf (fileName : jsstring) : jsstring :=
  let n := length fileName in
  if (4 <=? n)%nat
     && str_eqb (toLowerCase (drop (n - 4) fileName)) (lit ".pdf")
  then take (n - 4) fileName else fileName.

(* ===================================================================== *)
(** * Gemini.js: the WAV container                                        *)
(* ===================================================================== *)

Module Wav.
Local Open Scope Z_scope.

(** Byte [k] of [v], least significant first. *)
Definition byte_at (v : Z) (k : nat) : Z := (v / 256 ^ Z.of_nat k) mod 256.

(** The [DataView] over the 44-byte buffer is a list of 44 bytes.  The
    setters convert their value to the width of the field, wrapping around,
    and the script passes [true] for little endian everywhere.  A write
    outside the buffer is a RangeError in JavaScript and no change here; the
    offsets of [createWavBlob] are all inside. *)
Definition setUint8 (view : list Z) (offset : nat) (v : Z) : list Z :=
  <[offset := byte_at v 0]> view.

Definition setUint16 (view : list Z) (offset : nat) (v : Z) : list Z :=
  <[S offset := byte_at v 1]> (<[offset := byte_at v 0]> view).

Definition setUint32 (view : list Z) (offset : nat) (v : Z) : list Z :=
  <[(3 + offset)%nat := byte_at v 3]>
    (<[(2 + offset)%nat := byte_at v 2]>
       (<[(1 + offset)%nat := byte_at v 1]>
          (<[offset := byte_at v 0]> view))).

(** [writeString(view, offset, string)]: one [setUint8] per code unit. *)
Fixpoint writeString (view : list Z) (offset : nat) (s : jsstring) : list Z :=
  match s with
  | [] => view
  | c :: s' => writeString (setUint8 view offset (Z.of_N c)) (S offset) s'
  end.

Definition sampleRate : Z := 24000.
Definition numChannels : Z := 1.
Definition bitsPerSample : Z := 16.
Definition byteRate : Z := sampleRate * numChannels * bitsPerSample / 8.
Definition blockAlign : Z := numChannels * bitsPerSample / 8.

(** The header that [createWavBlob] writes for [dataSize] bytes of PCM. *)
Definition wav_header (dataSize : Z) : list Z :=
  let fileSize := 36 + dataSize in
  let view := repeat 0 44 in
  let view := writeString view 0 (lit "RIFF") in
  let view := setUint32 view 4 fileSize in
  let view := writeString view 8 (lit "WAVE") in
  let view := writeString view 12 (lit "fmt ") in
  let view := setUint32 view 16 16 in
  let view := setUint16 view 20 1 in
  let view := setUint16 view 22 numChannels in
  let view := setUint32 view 24 sampleRate in
  let view := setUint32 view 28 byteRate in
  let view := setUint16 view 32 blockAlign in
  let view := setUint16 view 34 bitsPerSample in
  let view := writeString view 36 (lit "data") in
  let view := setUint32 view 40 dataSize in
  view.

(** [createWavBlob(pcmData)]: the array handed to [Utilities.newBlob], the
    header bytes followed by the PCM array.  The elements are the numbers of
    the JavaScript arrays. *)
Definition createWavBlob (pcmData : list Z) : list Z :=
  let dataSize := Z.of_nat (length pcmData) in
  let headerBytes := wav_header dataSize in
  headerBytes ++ pcmData.

(** Reading a header field back, little endian ([getUint16] and
    [getUint32] of a [DataView] with [true]). *)
Definition byte_of (bytes : list Z) (offset : nat) : Z :=
  default 0 (bytes !! offset).

Definition getUint16 (bytes : list Z) (offset : nat) : Z :=
  byte_of bytes offset + 256 * byte_of bytes (S offset).

Definition getUint32 (bytes : list Z) (offset : nat) : Z :=
  byte_of bytes offset + 256 * byte_of bytes (1 + offset)%nat
  + 65536 * byte_of bytes (2 + offset)%nat
  + 16777216 * byte_of bytes (3 + offset)%nat.

End Wav.

(* ===================================================================== *)
(** * The sheet, the Drive and the outside services                       *)
(* ===================================================================== *)

(** A file of the Drive.  [file_is_pdf] is [getMimeType() === MimeType.PDF],
    the only question the script asks of a MIME type. *)
Record driveFile := {
  file_id : jsstring;
  file_name : jsstring;
  file_url : jsstring;
  file_is_pdf : bool;
  file_bytes : list Z
}.

(** One record of the audio JSON. *)
Record audioEntry := {
  text : jsstring;
  audioUrl : jsstring;
  audioFilename : jsstring
}.

(** A data row of the "Assessment Database" sheet, one field per column of
    [COL].  [getValues] gives the empty string for an empty cell; the
    columns that hold a number, a boolean or the JSON text have [None] for
    the empty cell.  The JSON text of column C is kept as the array it
    serialises: [JSON.stringify] writes it and [JSON.parse] reads it back.
    PASSWORD and STUDENT_EMAILS hold the cell as [toString()] prints it. *)
Record row := {
  PDF_URL : jsstring;
  CHUNK_COUNT : option Z;
  AUDIO_JSON : option (list audioEntry);
  IS_COMPLETE : option bool;
  CLASS_NAME : jsstring;
  INSTRUCTOR : jsstring;
  PASSWORD : jsstring;
  STUDENT_EMAILS : jsstring
}.

Definition set_AUDIO_JSON (v : option (list audioEntry)) (r : row) : row :=
  {| PDF_URL := PDF_URL r; CHUNK_COUNT := CHUNK_COUNT r; AUDIO_JSON := v;
     IS_COMPLETE := IS_COMPLETE r; CLASS_NAME := CLASS_NAME r;
     INSTRUCTOR := INSTRUCTOR r; PASSWORD := PASSWORD r;
     STUDENT_EMAILS := STUDENT_EMAILS r |}.

Definition set_IS_COMPLETE (v : option bool) (r : row) : row :=
  {| PDF_URL := PDF_URL r; CHUNK_COUNT := CHUNK_COUNT r;
     AUDIO_JSON := AUDIO_JSON r; IS_COMPLETE := v;
     CLASS_NAME := CLASS_NAME r; INSTRUCTOR := INSTRUCTOR r;
     PASSWORD := PASSWORD r; STUDENT_EMAILS := STUDENT_EMAILS r |}.

(** [sheet.appendRow([fileUrl])]: a row with column A only. *)
Definition new_row (fileUrl : jsstring) : row :=
  {| PDF_URL := fileUrl; CHUNK_COUNT := None; AUDIO_JSON := None;
     IS_COMPLETE := None; CLASS_NAME := []; INSTRUCTOR := [];
     PASSWORD := []; STUDENT_EMAILS := [] |}.

(** Truthiness of the cells as the script tests them. *)
Definition truthy_bool_cell (c : option bool) : bool := default false c.

(** [totalChunks > 0]; the empty cell converts to 0. *)
Definition gt0_cell (c : option Z) : bool :=
  match c with Some z => (0 <? z)%Z | None => false end.

(** [textChunks.length !== totalChunks] *)
Definition length_differs {A} (l : list A) (c : option Z) : bool :=
  match c with
  | Some z => negb (Z.of_nat (length l) =? z)%Z
  | None => true
  end.

(** What the script cannot decide by itself: the answers of the Drive, of
    the OCR conversion, of the speech service and of the clock during one
    run. *)
Record Services := {
  (** [getSheetByName('Assessment Database')] finds the sheet *)
  has_sheet : bool;
  (** [getOrCreateFolder(AUDIO_DRIVE_FOLDER_NAME)] gives a folder *)
  has_main_folder : bool;
  (** [DriveApp.getFileById]; [None] when it throws *)
  getFileById : jsstring -> option driveFile;
  (** the text of the temporary document that the OCR insert creates;
      [None] when a call of that sequence throws *)
  ocr_text : driveFile -> option jsstring;
  (** the decoded [inlineData] of the answer to a prompt; [None] for an
      answer other than 200, an answer without audio data, or an exception
      (also one thrown while the file is created) *)
  gemini_audio : jsstring -> option (list Z);
  (** the id that the Drive gives to the n-th file created in the run *)
  fresh_id : nat -> jsstring;
  (** the URL that the Drive gives to a created file *)
  fresh_url : nat -> jsstring;
  (** [getOrCreateSubfolder] catches an exception for this name *)
  subfolder_fails : jsstring -> bool;
  (** [new Date() - SCRIPT_START_TIME] as read at the head of the
      iteration for a data row *)
  elapsed : nat -> Z
}.

(** What one run reads and changes.  [sheet] holds the data rows, that is
    sheet lines 2, 3, ...; [header_url] is cell A1.  [folders] are the
    subfolders of the main audio folder in the order in which
    [getFoldersByName] meets them, each with its files in the order of
    [getFilesByName].  [sources] are the files of the "Assessment PDFs"
    folder, [None] when that folder is not found.  [requests] are the
    prompts sent to the speech service, the latest first. *)
Record state := {
  header_url : jsstring;
  sheet : list row;
  folders : list (jsstring * list driveFile);
  sources : option (list driveFile);
  created : nat;
  requests : list jsstring
}.

Definition set_sheet (v : list row) (st : state) : state :=
  {| header_url := header_url st; sheet := v; folders := folders st;
     sources := sources st; created := created st;
     requests := requests st |}.

Definition set_folders (v : list (jsstring * list driveFile)) (st : state)
  : state :=
  {| header_url := header_url st; sheet := sheet st; folders := v;
     sources := sources st; created := created st;
     requests := requests st |}.

(** [sheet.getRange(i + 1, col + 1).setValue(v)] for the data row at
    position [i] of [sheet]. *)
Definition setValue (i : nat) (f : row -> row) (st : state) : state :=
  set_sheet (alter f i (sheet st)) st.

(* ===================================================================== *)
(** * Code.js: step0_addNewPdfs                                           *)
(* ===================================================================== *)

(** [existingUrls.has(fileUrl)] for the set built from column A of every
    line of the data range, the header line included. *)
Definition existingUrls (st : state) : list jsstring :=
  header_url st :: map PDF_URL (sheet st).

(** The [while (files.hasNext())] loop: [existing] is the set computed
    before the loop, [sh] the sheet that [appendRow] extends. *)
Fixpoint add_files (existing : list jsstring) (files : list driveFile)
  (sh : list row) : list row :=
  match files with
  | [] => sh
  | file :: files' =>
      let fileUrl := file_url file in
      if negb (includes existing fileUrl)
      then add_files existing files' (sh ++ [new_row fileUrl])
      else add_files existing files' sh
  end.

Definition step0_addNewPdfs (E : Services) (st : state) : state :=
  if negb (has_sheet E) then st
  else if negb (has_main_folder E) then st
  else match sources st with
       | None => st
       | Some pdfFolder =>
           let files := List.filter file_is_pdf pdfFolder in
           set_sheet (add_files (existingUrls st) files (sheet st)) st
       end.

(* ===================================================================== *)
(** * Code.js: extractTextFromPdf                                         *)
(* ===================================================================== *)

(** [None] is [null]: the file is not a PDF, or the [try] block threw. *)
Definition extractTextFromPdf (E : Services) (fileId : jsstring)
  : option (list jsstring) :=
  match getFileById E fileId with
  | None => None
  | Some file =>
      if negb (file_is_pdf file) then None
      else match ocr_text E file with
           | None => None
           | Some text => Some (chunk_text text)
           end
  end.

(* ===================================================================== *)
(** * Gemini.js and Code.js: the audio files of one row                   *)
(* ===================================================================== *)

(** The position of the first folder called [name]. *)
Fixpoint find_folder (name : jsstring) (fs : list (jsstring * list driveFile))
  : option nat :=
  match fs with
  | [] => None
  | (n, _) :: fs' =>
      if str_eqb n name then Some 0%nat
      else option_map S (find_folder name fs')
  end.

(** [getOrCreateSubfolder(mainAudioFolder, subfolderName)]: the folder is
    named by its position in [folders]; [None] is [null]. *)
Definition getOrCreateSubfolder (E : Services) (subfolderName : jsstring)
  (st : state) : state * option nat :=
  if subfolder_fails E subfolderName then (st, None)
  else match find_folder subfolderName (folders st) with
       | Some k => (st, Some k)
       | None =>
           (set_folders (folders st ++ [(subfolderName, [])]) st,
            Some (length (folders st)))
       end.

Definition folder_files (st : state) (folder : nat) : list driveFile :=
  match folders st !! folder with
  | Some (_, files) => files
  | None => []
  end.

(** [folder.getFilesByName(name)]: the iterator, as the list of files it
    will give; [hasNext()] asks whether the list is not empty and [next()]
    takes its head. *)
Definition getFilesByName (files : list driveFile) (name : jsstring)
  : list driveFile :=
  List.filter (fun f => str_eqb (file_name f) name) files.

Definition hasNext (it : list driveFile) : bool :=
  match it with [] => false | _ => true end.

(** The text of the request. *)
Definition prompt (text : jsstring) : jsstring :=
  lit "Read the following text in a clear, neutral, and steady voice: "
  ++ text.

(** [generateAudioFromTextChunk(text, fileName, folder)]: one request to the
    speech service; on a 200 answer that carries audio data the WAV blob is
    created as a file of [folder] under [fileName] and returned; in every
    other case the result is [null]. *)
Definition generateAudioFromTextChunk (E : Services) (text fileName : jsstring)
  (folder : nat) (st : state) : state * option driveFile :=
  let st := {| header_url := header_url st; sheet := sheet st;
               folders := folders st; sources := sources st;
               created := created st;
               requests := prompt text :: requests st |} in
  match gemini_audio E (prompt text) with
  | None => (st, None)
  | Some decodedData =>
      let wavBlob := Wav.createWavBlob decodedData in
      let wavFile := {| file_id := fresh_id E (created st);
                        file_name := fileName;
                        file_url := fresh_url E (created st);
                        file_is_pdf := false;
                        file_bytes := wavBlob |} in
      ({| header_url := header_url st; sheet := sheet st;
          folders := alter (fun nf => (nf.1, nf.2 ++ [wavFile])) folder
                           (folders st);
          sources := sources st;
          created := S (created st);
          requests := requests st |},
       Some wavFile)
  end.

(** The body of the chunk loop of step 2 up to [audioFile]: the three names
    are looked up one after the other, and the service is asked only when
    none of them names a file. *)
Definition resolve_chunk (E : Services) (baseName fileName : jsstring)
  (folder : nat) (chunkText : jsstring) (j : N) (st : state)
  : state * option driveFile :=
  let newChunkName := generateSafeFilenameFromText chunkText j in
  let cleanLegacyName := baseName ++ chunk_suffix j in
  let legacyFullName := fileName ++ chunk_suffix j in
  let files := folder_files st folder in
  let existingFiles := getFilesByName files newChunkName in
  let existingFiles :=
    if negb (hasNext existingFiles)
    then getFilesByName files cleanLegacyName else existingFiles in
  let existingFiles :=
    if negb (hasNext existingFiles)
    then getFilesByName files legacyFullName else existingFiles in
  match existingFiles with
  | audioFile :: _ => (st, Some audioFile)
  | [] => generateAudioFromTextChunk E chunkText newChunkName folder st
  end.

(** The loop [for (let j = 0; j < totalChunks; j++)] over the chunks from
    position [j] on; [audioFileObjects] collects the files.  The result is
    [None] when the loop left through [break] with [allChunksProcessed]
    false. *)
Fixpoint chunk_loop (E : Services) (baseName fileName : jsstring)
  (folder : nat) (j : N) (textChunks : list jsstring)
  (audioFileObjects : list driveFile) (st : state)
  : state * option (list driveFile) :=
  match textChunks with
  | [] => (st, Some audioFileObjects)
  | chunkText :: rest =>
      match resolve_chunk E baseName fileName folder chunkText j st with
      | (st', Some audioFile) =>
          chunk_loop E baseName fileName folder (j + 1) rest
                     (audioFileObjects ++ [audioFile]) st'
      | (st', None) => (st', None)
      end
  end.

(** The array [audioDataForSheet]. *)
Definition audioDataForSheet (textChunks : list jsstring)
  (audioFileObjects : list driveFile) : list audioEntry :=
  zip_with
    (fun chunkText audioFile =>
       {| text := chunkText;
          audioUrl := lit "https://drive.google.com/uc?id="
                      ++ file_id audioFile ++ lit "&export=media";
          audioFilename := file_name audioFile |})
    textChunks audioFileObjects.

(* ===================================================================== *)
(** * Code.js: step2_GenerateMissingAudioAndFinalize                      *)
(* ===================================================================== *)

Definition SCRIPT_TIMEOUT_MS : Z := 5 * 60 * 1000.

(** How an iteration ends: the loop goes on, or an exception that the
    script does not catch ([DriveApp.getFileById] in the body of the loop)
    ends the run. *)
Inductive outcome := Continue | Threw.

(** The two [setValue] calls that finalize row [i]. *)
Definition finalize (i : nat) (textChunks : list jsstring)
  (audioFileObjects : list driveFile) (st : state) : state :=
  setValue i (set_IS_COMPLETE (Some true))
    (setValue i
       (set_AUDIO_JSON (Some (audioDataForSheet textChunks audioFileObjects)))
       st).

(** The body of the row loop after the clock check, for the row [r] that
    the snapshot [data] holds at position [i]. *)
Definition process_row (E : Services) (i : nat) (r : row) (st : state)
  : state * outcome :=
  let isComplete := IS_COMPLETE r in
  let pdfUrl := PDF_URL r in
  let totalChunks := CHUNK_COUNT r in
  if truthy_str pdfUrl && gt0_cell totalChunks
     && negb (truthy_bool_cell isComplete) then
    match getFileIdFromUrl pdfUrl with
    | None => (st, Continue)
    | Some fileId =>
        match getFileById E fileId with
        | None => (st, Threw)
        | Some file =>
            let fileName := file_name file in
            let baseName := trim (strip_pdf fileName) in
            match getOrCreateSubfolder E baseName st with
            | (st, None) => (st, Continue)
            | (st, Some assessmentSubfolder) =>
                match extractTextFromPdf E fileId with
                | None => (st, Continue)
                | Some textChunks =>
                    if length_differs textChunks totalChunks
                    then (st, Continue)
                    else
                      match chunk_loop E baseName fileName
                              assessmentSubfolder 0 textChunks [] st with
                      | (st, Some audioFileObjects) =>
                          if length_differs audioFileObjects totalChunks
                          then (st, Continue)
                          else (finalize i textChunks audioFileObjects st,
                                Continue)
                      | (st, None) => (st, Continue)
                      end
                end
            end
        end
    end
  else (st, Continue).

(** The row loop over the snapshot [data] from position [i] on. *)
Fixpoint step2_loop (E : Services) (data : list row) (i : nat) (st : state)
  : state * outcome :=
  match data with
  | [] => (st, Continue)
  | r :: data' =>
      if (elapsed E i >? SCRIPT_TIMEOUT_MS)%Z then (st, Continue)
      else match process_row E i r st with
           | (st', Threw) => (st', Threw)
           | (st', Continue) => step2_loop E data' (S i) st'
           end
  end.

Definition step2_GenerateMissingAudioAndFinalize (E : Services) (st : state)
  : state * outcome :=
  if negb (has_main_folder E) then (st, Continue)
  else if negb (has_sheet E) then (st, Continue)
  else step2_loop E (sheet st) 0 st.

(** The rows from position [i] on, each taken through [process_row] with no
    look at the clock. *)
Fixpoint run_rows (E : Services) (data : list row) (i : nat) (st : state)
  : state * outcome :=
  match data with
  | [] => (st, Continue)
  | r :: data' =>
      match process_row E i r st with
      | (st', Threw) => (st', Threw)
      | (st', Continue) => run_rows E data' (S i) st'
      end
  end.

(* ===================================================================== *)
(** * Code.js: getAssessmentPdf                                           *)
(* ===================================================================== *)

(** The object that [getAssessmentPdf] returns.  [pdfData] is kept as the
    bytes that [Utilities.base64Encode] encodes. *)
Inductive response :=
| Served (pdfData : list Z) (fileName : jsstring)
         (audioChunks : list audioEntry)
| Error (error : jsstring).

Definition not_found : response :=
  Error (lit "Assessment not found. Please check your email and password and try again.").

Definition not_ready : response :=
  Error (lit "Audio for this assessment has not been generated yet. Please try again later.").

Definition comma : N := 44.
Definition semicolon : N := 59.

(** [studentEmails.includes(cleanEmail) && password === sheetPassword] *)
Definition credentials_match (r : row) (email password : jsstring) : bool :=
  let sheetPassword := trim (PASSWORD r) in
  let studentEmailsRaw := toLowerCase (STUDENT_EMAILS r) in
  let studentEmails := map trim (split_on comma studentEmailsRaw) in
  let cleanEmail := trim (toLowerCase email) in
  includes studentEmails cleanEmail && str_eqb password sheetPassword.

(** The negation of the test before [continue]. *)
Definition row_usable (r : row) : bool :=
  truthy_str (PDF_URL r) && truthy_str (trim (PASSWORD r))
  && truthy_str (toLowerCase (STUDENT_EMAILS r)).

(** What the script returns once a row matched. *)
Definition serve_row (E : Services) (r : row) : response :=
  match AUDIO_JSON r with
  | None => not_ready
  | Some audioChunks =>
      match getFileIdFromUrl (PDF_URL r) with
      | None => Error (lit "Invalid Google Drive URL in sheet.")
      | Some fileId =>
          match getFileById E fileId with
          | None => Error (lit "An unexpected server error occurred.")
          | Some file =>
              if negb (file_is_pdf file)
              then Error (lit "Error: The file is not a PDF.")
              else Served (file_bytes file) (file_name file) audioChunks
          end
      end
  end.

(** The loop over the data rows. *)
Fixpoint scan_rows (E : Services) (email password : jsstring)
  (data : list row) : response :=
  match data with
  | [] => not_found
  | r :: data' =>
      if negb (row_usable r) then scan_rows E email password data'
      else if credentials_match r email password then serve_row E r
      else scan_rows E email password data'
  end.

Definition getAssessmentPdf (E : Services) (st : state)
  (email password : jsstring) : response :=
  if negb (has_sheet E)
  then Error (lit "Backend Error: " ++ [34] ++ lit "Assessment Database"
              ++ [34] ++ lit " sheet not found.")
  else scan_rows E email password (sheet st).

(* ===================================================================== *)
(** * Notions used to state the properties                                *)
(* ===================================================================== *)

(** The units of a name: [A-Za-z0-9_-] and the period of the extension. *)
Definition name_unit (c : N) : bool := safe_unit c || (c =? dot).

(** The URLs that one run of step 0 meets in the source folder. *)
Definition listed_urls (st : state) : list jsstring :=
  match sources st with
  | Some pdfFolder => map file_url (List.filter file_is_pdf pdfFolder)
  | None => []
  end.

(** A listed URL that no line of the sheet holds in column A. *)
Definition unseen (st : state) (u : jsstring) : bool :=
  negb (includes (existingUrls st) u).

(** The rows of [sh] whose column A is [u]. *)
Definition rows_of (u : jsstring) (sh : list row) : list row :=
  List.filter (fun r => str_eqb (PDF_URL r) u) sh.

(** Is there a file of this name? *)
Definition named (files : list driveFile) (name : jsstring) : bool :=
  hasNext (getFilesByName files name).

(** One of the three names of chunk [j] names a file of [files]. *)
Definition artifact_exists (files : list driveFile)
  (baseName fileName chunkText : jsstring) (j : N) : bool :=
  named files (generateSafeFilenameFromText chunkText j)
  || named files (baseName ++ chunk_suffix j)
  || named files (fileName ++ chunk_suffix j).

(** The state after one more request to the speech service. *)
Definition with_request (p : jsstring) (st : state) : state :=
  {| header_url := header_url st; sheet := sheet st; folders := folders st;
     sources := sources st; created := created st;
     requests := p :: requests st |}.

(** Row [i] was finalized by its iteration: every chunk of the row came out
    of the chunk loop with a file, as many files as the recorded count, and
    the JSON and the flag were written together. *)
Definition finalized_by (E : Services) (i : nat) (r : row) (st : state)
  : Prop :=
  exists fileId file folder st1 st2 textChunks audioFileObjects,
    getFileIdFromUrl (PDF_URL r) = Some fileId
    /\ getFileById E fileId = Some file
    /\ extractTextFromPdf E fileId = Some textChunks
    /\ CHUNK_COUNT r = Some (Z.of_nat (length textChunks))
    /\ chunk_loop E (trim (strip_pdf (file_name file))) (file_name file)
         folder 0 textChunks [] st1 = (st2, Some audioFileObjects)
    /\ length audioFileObjects = length textChunks
    /\ process_row E i r st
       = (finalize i textChunks audioFileObjects st2, Continue)
    /\ sheet st2 = sheet st.

(* ===================================================================== *)
(** * A small world to run the script in                                  *)
(* ===================================================================== *)

Module Demo.

Definition quiz : driveFile :=
  {| file_id := lit "doc1"; file_name := lit "Quiz.pdf";
     file_url := lit "https://drive.google.com/file/d/doc1/view";
     file_is_pdf := true; file_bytes := [37; 80; 68; 70]%Z |}.

Definition notes : driveFile :=
  {| file_id := lit "doc2"; file_name := lit "Notes.pdf";
     file_url := lit "https://drive.google.com/file/d/doc2/view";
     file_is_pdf := true; file_bytes := [37; 80; 68; 70]%Z |}.

Definition picture : driveFile :=
  {| file_id := lit "img1"; file_name := lit "Cover.png";
     file_url := lit "https://drive.google.com/file/d/img1/view";
     file_is_pdf := false; file_bytes := [137; 80; 78; 71]%Z |}.

Definition wav (id name : string) : driveFile :=
  {| file_id := lit id; file_name := lit name;
     file_url := lit "https://drive.google.com/file/d/" ++ lit id ++ lit "/view";
     file_is_pdf := false; file_bytes := Wav.createWavBlob [] |}.

Definition quiz_text : jsstring :=
  lit "1. Apple" ++ [newline] ++ lit "2. Banana" ++ [newline]
  ++ lit "3. Cherry".

(** The services, for a given speech service and clock. *)
Definition services (speech : jsstring -> option (list Z))
  (clock : nat -> Z) : Services :=
  {| has_sheet := true;
     has_main_folder := true;
     getFileById := fun id =>
       if str_eqb id (lit "doc1") then Some quiz
       else if str_eqb id (lit "doc2") then Some notes
       else None;
     ocr_text := fun file =>
       if str_eqb (file_id file) (lit "doc1") then Some quiz_text else None;
     gemini_audio := speech;
     fresh_id := fun n => lit "new" ++ decimal (N.of_nat n);
     fresh_url := fun n =>
       lit "https://drive.google.com/file/d/new" ++ decimal (N.of_nat n)
       ++ lit "/view";
     subfolder_fails := fun _ => false;
     elapsed := clock |}.

(** The speech service is down. *)
Definition silent : jsstring -> option (list Z) := fun _ => None.

(** The speech service answers every prompt with two samples. *)
Definition speaking : jsstring -> option (list Z) :=
  fun _ => Some [0; 1; 0; -1]%Z.

(** Each row takes 200 seconds. *)
Definition slow_clock : nat -> Z := fun i => (200000 * Z.of_nat i)%Z.

Definition fast_clock : nat -> Z := fun i => (1000 * Z.of_nat i)%Z.

Definition quiz_row : row :=
  {| PDF_URL := file_url quiz; CHUNK_COUNT := Some 3%Z; AUDIO_JSON := None;
     IS_COMPLETE := Some false; CLASS_NAME := lit "Math 7";
     INSTRUCTOR := lit "Smith"; PASSWORD := lit "pw1";
     STUDENT_EMAILS := lit "a@x.com" |}.

Definition quiz_manifest : list audioEntry :=
  audioDataForSheet (chunk_text quiz_text)
    [wav "w1" "1-Apple-chunk-1.wav"; wav "w2" "Quiz-chunk-2.wav";
     wav "w3" "Quiz.pdf-chunk-3.wav"].

(** The row of the quiz once step 2 has finalized it. *)
Definition quiz_row_done : row :=
  set_IS_COMPLETE (Some true) (set_AUDIO_JSON (Some quiz_manifest) quiz_row).

(** The same row with the addresses separated by a semicolon. *)
Definition quiz_row_semicolon : row :=
  {| PDF_URL := file_url quiz; CHUNK_COUNT := Some 3%Z;
     AUDIO_JSON := Some quiz_manifest; IS_COMPLETE := Some true;
     CLASS_NAME := lit "Math 7"; INSTRUCTOR := lit "Smith";
     PASSWORD := lit "pw1"; STUDENT_EMAILS := lit "a@x.com;b@x.com" |}.

Definition world (rows : list row) (files : list driveFile) : state :=
  {| header_url := lit "PDF URL"; sheet := rows;
     folders := [(lit "Quiz", files)];
     sources := Some [quiz; picture; notes];
     created := 0%nat; requests := [] |}.

(** Two chunks of the quiz have their audio, under the new name and under
    the first legacy name. *)
Definition two_of_three : list driveFile :=
  [wav "w1" "1-Apple-chunk-1.wav"; wav "w2" "Quiz-chunk-2.wav"].

(** Chunk 1 of the quiz under its three names, the new name last. *)
Definition three_names : list driveFile :=
  [wav "w3" "Quiz.pdf-chunk-1.wav"; wav "w2" "Quiz-chunk-1.wav";
   wav "w1" "1-Apple-chunk-1.wav"].

End Demo.

(* ===================================================================== *)
(** * Code.js: step1_AnalyzePdfsAndCountChunks and runAllSteps            *)
(* ===================================================================== *)

Definition set_CHUNK_COUNT (v : option Z) (r : row) : row :=
  {| PDF_URL := PDF_URL r; CHUNK_COUNT := v; AUDIO_JSON := AUDIO_JSON r;
     IS_COMPLETE := IS_COMPLETE r; CLASS_NAME := CLASS_NAME r;
     INSTRUCTOR := INSTRUCTOR r; PASSWORD := PASSWORD r;
     STUDENT_EMAILS := STUDENT_EMAILS r |}.

(** [!chunkCount]: the empty cell and the number 0 are falsy. *)
Definition falsy_num_cell (c : option Z) : bool :=
  match c with Some z => (z =? 0)%Z | None => true end.

(** The body of the row loop of step 1 for the row [r] that the snapshot
    holds at position [i].  [DriveApp.getFileById(fileId).getName()] is
    outside any [try], so a file that cannot be opened ends the run. *)
Definition analyze_row (E : Services) (i : nat) (r : row) (st : state)
  : state * outcome :=
  let pdfUrl := PDF_URL r in
  let chunkCount := CHUNK_COUNT r in
  if truthy_str pdfUrl && falsy_num_cell chunkCount then
    match getFileIdFromUrl pdfUrl with
    | None => (st, Continue)
    | Some fileId =>
        match getFileById E fileId with
        | None => (st, Threw)
        | Some _ =>
            match extractTextFromPdf E fileId with
            | Some textChunks =>
                if (0 <? length textChunks)%nat then
                  (setValue i (set_IS_COMPLETE (Some false))
                     (setValue i
                        (set_CHUNK_COUNT
                           (Some (Z.of_nat (length textChunks))))
                        st),
                   Continue)
                else (st, Continue)
            | None => (st, Continue)
            end
        end
    end
  else (st, Continue).

Fixpoint step1_loop (E : Services) (data : list row) (i : nat) (st : state)
  : state * outcome :=
  match data with
  | [] => (st, Continue)
  | r :: data' =>
      match analyze_row E i r st with
      | (st', Threw) => (st', Threw)
      | (st', Continue) => step1_loop E data' (S i) st'
      end
  end.

Definition step1_AnalyzePdfsAndCountChunks (E : Services) (st : state)
  : state * outcome :=
  if negb (has_sheet E) then (st, Continue)
  else step1_loop E (sheet st) 0 st.

(** [runAllSteps]: the three steps one after the other; an exception of a
    step ends the run before the next step. *)
Definition runAllSteps (E : Services) (st : state) : state * outcome :=
  let st0 := step0_addNewPdfs E st in
  match step1_AnalyzePdfsAndCountChunks E st0 with
  | (st1, Threw) => (st1, Threw)
  | (st1, Continue) => step2_GenerateMissingAudioAndFinalize E st1
  end.

(* ===================================================================== *)
(** * Further notions used to state properties                            *)
(* ===================================================================== *)

(** The columns that no step writes: A and E to H. *)
Definition same_fixed_columns (r r' : row) : Prop :=
  PDF_URL r' = PDF_URL r /\ CLASS_NAME r' = CLASS_NAME r
  /\ INSTRUCTOR r' = INSTRUCTOR r /\ PASSWORD r' = PASSWORD r
  /\ STUDENT_EMAILS r' = STUDENT_EMAILS r.

(** A row whose flag is true holds a JSON with as many records as its
    recorded count, each with an audio URL. *)
Definition complete_ok (r : row) : Prop :=
  IS_COMPLETE r = Some true ->
  exists m, AUDIO_JSON r = Some m
            /\ CHUNK_COUNT r = Some (Z.of_nat (length m))
            /\ Forall (fun e => audioUrl e <> []) m.

(** The row as step 2 leaves it when it finalizes it. *)
Definition finalized_row (textChunks : list jsstring)
  (audioFileObjects : list driveFile) (r : row) : row :=
  set_IS_COMPLETE (Some true)
    (set_AUDIO_JSON (Some (audioDataForSheet textChunks audioFileObjects)) r).

(** The row as step 1 leaves it when it records a count. *)
Definition analyzed_row (n : nat) (r : row) : row :=
  set_IS_COMPLETE (Some false) (set_CHUNK_COUNT (Some (Z.of_nat n)) r).

(** Every chunk of [textChunks], numbered from [j], has a file of [files]
    under one of its three names. *)
Fixpoint artifacts_exist (files : list driveFile)
  (baseName fileName : jsstring) (j : N) (textChunks : list jsstring) : bool :=
  match textChunks with
  | [] => true
  | chunkText :: rest =>
      artifact_exists files baseName fileName chunkText j
      && artifacts_exist files baseName fileName (j + 1) rest
  end.

(** A chunk text begins with an item number: digits, then a period. *)
Definition begins_item (s : jsstring) : Prop :=
  exists ds more,
    s = ds ++ dot :: more /\ ds <> []
    /\ Forall (fun c => is_digit c = true) ds.

(** No white space at either end. *)
Definition trimmed (s : jsstring) : Prop :=
  (forall c r, s = c :: r -> is_space c = false)
  /\ (forall r c, s = r ++ [c] -> is_space c = false).

(** A byte of a [Uint8Array]. *)
Definition is_byte (b : Z) : Prop := (0 <= b < 256)%Z.

(** [t] occurs in [s] as a run of consecutive units. *)
Fixpoint occursb (t s : jsstring) : bool :=
  match s with
  | [] => starts_with t []
  | _ :: s' => starts_with t s || occursb t s'
  end.

(** The text before the first boundary: the first element of
    [split_items]. *)
Fixpoint first_piece (s : jsstring) : jsstring :=
  match s with
  | [] => []
  | c :: s' =>
      if (c =? newline) && item_ahead s' then [] else c :: first_piece s'
  end.

(** The shape that the row loops of step 1 and step 2 share: an optional
    stop before a row, the body of the row, the end of the run on an
    exception. *)
Fixpoint row_loop (body : nat -> row -> state -> state * outcome)
  (stop : nat -> bool) (data : list row) (i : nat) (st : state)
  : state * outcome :=
  match data with
  | [] => (st, Continue)
  | r :: data' =>
      if stop i then (st, Continue)
      else match body i r st with
           | (st', Threw) => (st', Threw)
           | (st', Continue) => row_loop body stop data' (S i) st'
           end
  end.

(** What step 2 can do to a row: nothing, or finalize it when it was not
    complete and had a positive count. *)
Definition step2_row (r r' : row) : Prop :=
  r' = r
  \/ (truthy_bool_cell (IS_COMPLETE r) = false
      /\ exists textChunks audioFileObjects,
           length audioFileObjects = length textChunks
           /\ (0 < length textChunks)%nat
           /\ CHUNK_COUNT r = Some (Z.of_nat (length textChunks))
           /\ r' = finalized_row textChunks audioFileObjects r).

(** What step 1 can do to a row: nothing, or record the number of its
    chunks when it had no count and the chunker gave at least one chunk. *)
Definition step1_row (E : Services) (r r' : row) : Prop :=
  r' = r
  \/ (falsy_num_cell (CHUNK_COUNT r) = true
      /\ exists fileId textChunks,
           getFileIdFromUrl (PDF_URL r) = Some fileId
           /\ extractTextFromPdf E fileId = Some textChunks
           /\ (0 < length textChunks)%nat
           /\ r' = analyzed_row (length textChunks) r).

(* ===================================================================== *)
(** * Notions for the container and for the identities                    *)
(* ===================================================================== *)

(** The [n] bytes of [v], least significant first, by repeated division:
    what a little-endian field of [n] bytes holds. *)
Fixpoint le_bytes (n : nat) (v : Z) : list Z :=
  match n with
  | O => []
  | S n' => (v mod 256)%Z :: le_bytes n' (v / 256)%Z
  end.

(** The canonical 44-byte header of a WAV file with [M] bytes of mono
    16-bit PCM at 24000 Hz, field by field. *)
Definition canonical_header (M : Z) : list Z :=
  map Z.of_N (lit "RIFF") ++ le_bytes 4 (36 + M)
  ++ map Z.of_N (lit "WAVE")
  ++ map Z.of_N (lit "fmt ") ++ le_bytes 4 16
  ++ le_bytes 2 1 ++ le_bytes 2 1
  ++ le_bytes 4 24000 ++ le_bytes 4 48000
  ++ le_bytes 2 2 ++ le_bytes 2 16
  ++ map Z.of_N (lit "data") ++ le_bytes 4 M.

(** A string written in Basic Latin (U+0000 to U+007F), where
    [toLowerCase] above is the method of the script. *)
Definition basic_latin (s : jsstring) : Prop :=
  forallb (fun c => c <? 128) s = true.


(** A row whose identity cell lists three addresses. *)
Definition list_row : row :=
  {| PDF_URL := file_url Demo.quiz; CHUNK_COUNT := Some 3%Z;
     AUDIO_JSON := Some Demo.quiz_manifest; IS_COMPLETE := Some true;
     CLASS_NAME := lit "Math 7"; INSTRUCTOR := lit "Smith";
     PASSWORD := lit " pw1 ";
     STUDENT_EMAILS := lit "a@x.com, B@x.com ,c@x.com" |}.

(* ===================================================================== *)
(** * Properties of the strings                                           *)
(* ===================================================================== *)

(** Case analysis on every comparison of code units in the goal. *)
Ltac compare_units :=
  repeat match goal with
         | |- context [N.leb ?a ?b] => destruct (N.leb_spec a b); try lia
         | |- context [N.eqb ?a ?b] => destruct (N.eqb_spec a b); try lia
         end.

Section StringFacts.

Lemma str_eqb_eq (a b : jsstring) : str_eqb a b = true <-> a = b.
Proof.
  revert b; induction a as [|x a IH]; intros [|y b]; simpl; split;
    try congruence; try done.
  - intros [Hx Hab]%andb_true_iff. apply N.eqb_eq in Hx.
    apply IH in Hab. congruence.
  - intros [= -> ->]. rewrite N.eqb_refl. simpl. by apply IH.
Qed.

Lemma str_eqb_refl (a : jsstring) : str_eqb a a = true.
Proof. by apply str_eqb_eq. Qed.

Lemma str_eqb_neq (a b : jsstring) : str_eqb a b = false <-> a <> b.
Proof.
  split.
  - intros H ->. by rewrite str_eqb_refl in H.
  - intros H. destruct (str_eqb a b) eqn:E; [|done].
    by apply str_eqb_eq in E.
Qed.

Lemma includes_In (a : list jsstring) (x : jsstring) :
  includes a x = true <-> In x a.
Proof.
  unfold includes. rewrite existsb_exists. split.
  - intros (y & Hy & E). apply str_eqb_eq in E. by subst.
  - intros H. exists x. split; [done | apply str_eqb_refl].
Qed.

Lemma Forall_forallb {A} (p : A -> bool) (l : list A) :
  Forall (fun x => p x = true) l <-> forallb p l = true.
Proof.
  induction l as [|x l IH]; simpl.
  - split; [done | constructor].
  - rewrite andb_true_iff, <- IH. split.
    + by inversion 1.
    + intros [? ?]. by constructor.
Qed.

Lemma ends_with_drop (s t : jsstring) :
  ends_with s t -> drop (length s - length t) s = t.
Proof.
  intros [p ->]. rewrite length_app.
  replace (length p + length t - length t)%nat with (length p) by lia.
  by rewrite drop_app_length.
Qed.

Lemma lit_digits (d : Decimal.uint) :
  Forall (fun c => is_digit c = true) (lit (NilEmpty.string_of_uint d)).
Proof.
  induction d; simpl; try constructor; try done.
Qed.

Lemma decimal_digits (n : N) : Forall (fun c => is_digit c = true) (decimal n).
Proof. apply lit_digits. Qed.

Lemma digit_word (c : N) : is_digit c = true -> is_word c = true.
Proof. unfold is_word. intros ->. by rewrite orb_true_r. Qed.

Lemma collapse_ws_safe (b : bool) (s : jsstring) :
  Forall (fun c => kept_unit c = true) s ->
  Forall (fun c => safe_unit c = true) (collapse_ws_go b s).
Proof.
  intros H. revert b. induction H as [|c s Hc _ IH]; intros b; simpl.
  - constructor.
  - destruct (is_space c) eqn:Hs.
    + destruct b; [apply IH | constructor; [done | apply IH]].
    + constructor; [|apply IH].
      unfold kept_unit in Hc. rewrite Hs, orb_false_r in Hc. exact Hc.
Qed.

Lemma filter_kept (s : jsstring) :
  Forall (fun c => kept_unit c = true) (List.filter kept_unit s).
Proof.
  induction s as [|c s IH]; simpl; [constructor|].
  destruct (kept_unit c) eqn:E; [constructor|]; done.
Qed.

Lemma sanitized_safe (text : jsstring) :
  Forall (fun c => safe_unit c = true) (sanitized text).
Proof. apply collapse_ws_safe, filter_kept. Qed.

End StringFacts.

(* ===================================================================== *)
(** * C1: the canonical name                                              *)
(* ===================================================================== *)

Lemma chunk_suffix_units (n : N) :
  Forall (fun c => name_unit c = true) (chunk_suffix n).
Proof.
  unfold chunk_suffix. rewrite !Forall_app. repeat split.
  - by apply Forall_forallb.
  - eapply Forall_impl; [apply decimal_digits|].
    intros c Hc. unfold name_unit, safe_unit.
    by rewrite (digit_word c Hc).
  - by apply Forall_forallb.
Qed.

Section SuffixFacts.

(** Two ways to write a string around a unit [x], the first with no [x]
    before it: the same way, or the second has its [x] further on. *)
Lemma first_split (A B : jsstring) (x : N) (R R' : jsstring) :
  ~ In x A -> A ++ x :: R = B ++ x :: R' ->
  (B = A /\ R = R') \/ exists B', B = A ++ x :: B' /\ R = B' ++ x :: R'.
Proof.
  revert B. induction A as [|a A IH]; intros B Hx; simpl.
  - destruct B as [|b B]; simpl.
    + intros [= ->]. by left.
    + intros [= <- ->]. right. by exists B.
  - destruct B as [|b B]; simpl.
    + intros [= -> _]. exfalso. apply Hx. by left.
    + intros [= <- H]. destruct (IH B) as [[-> ->] | (B' & -> & ->)];
        [intros ?; apply Hx; by right | done | by left |].
      right. by exists B'.
Qed.

Lemma safe_not_dot (s : jsstring) :
  Forall (fun c => safe_unit c = true) s -> ~ In dot s.
Proof.
  intros H Hin. apply (proj1 (List.Forall_forall _ _) H) in Hin.
  vm_compute in Hin. discriminate.
Qed.

(** A name that ends with the whole suffix was not shortened. *)
Lemma ends_with_suffix_fits (text : jsstring) (chunkIndex : N) :
  ends_with (generateSafeFilenameFromText text chunkIndex)
            (chunk_suffix chunkIndex) ->
  (length (sanitized text) + length (chunk_suffix chunkIndex) <= 250)%nat.
Proof.
  intros [p Hp]. unfold generateSafeFilenameFromText in Hp. cbv zeta in Hp.
  destruct (Nat.le_gt_cases
              (length (sanitized text) + length (chunk_suffix chunkIndex))
              250) as [|Hlong]; [done|]. exfalso.
  assert (drop 250 (sanitized text ++ chunk_suffix chunkIndex) <> [])
    as Hrest.
  { intros H%(f_equal length). rewrite length_drop, length_app in H.
    cbn [length] in H. lia. }
  pose proof (take_drop 250 (sanitized text ++ chunk_suffix chunkIndex))
    as Hfull.
  rewrite Hp in Hfull.
  remember (drop 250 (sanitized text ++ chunk_suffix chunkIndex)) as rest
    eqn:Erest.
  clear Erest Hp. unfold chunk_suffix in Hfull.
  assert ((sanitized text ++ lit "-chunk-" ++ decimal (chunkIndex + 1))
          ++ dot :: lit "wav"
          = (p ++ lit "-chunk-" ++ decimal (chunkIndex + 1))
            ++ dot :: (lit "wav" ++ rest)) as Hsplit.
  { rewrite <- !app_assoc in Hfull |- *. symmetry. exact Hfull. }
  apply first_split in Hsplit.
  - destruct Hsplit as [[_ Hwav] | (B' & _ & Hwav)].
    + apply Hrest. rewrite <- (app_nil_r (lit "wav")) in Hwav at 1.
      apply app_inv_head in Hwav. by symmetry.
    + assert (In dot (lit "wav")) as Hin
          by (rewrite Hwav; apply in_or_app; right; by left).
      vm_compute in Hin. intuition discriminate.
  - intros [Hin | Hin]%in_app_or.
    + by apply (safe_not_dot _ (sanitized_safe text)).
    + apply in_app_or in Hin as [Hin | Hin].
      * vm_compute in Hin. intuition discriminate.
      * apply (proj1 (List.Forall_forall _ _) (decimal_digits _)) in Hin.
        vm_compute in Hin. discriminate.
Qed.

End SuffixFacts.

(** C1: the name has at most 250 units, each in [A-Za-z0-9_-] or the
    period.  It is a stem of units in [A-Za-z0-9_-] followed by the whole
    suffix [-chunk-<N+1>.wav], as the specification asks, exactly when the
    sanitized words and the suffix fit in 250 units together; otherwise
    [substring(0, 250)] cuts into the suffix.  Once the sanitized words
    reach 250 units the name is those 250 units alone: for a word of 250
    letters a and ordinal 0 the name is the 250 letters, with no index and
    no extension. *)
Theorem canonical_name_suffix_cut (text : jsstring) (chunkIndex : N) :
  let name := generateSafeFilenameFromText text chunkIndex in
  (length name <= 250)%nat
  /\ Forall (fun c => name_unit c = true) name
  /\ (canonical_name_claim text chunkIndex <->
      (length (sanitized text) + length (chunk_suffix chunkIndex) <= 250)%nat)
  /\ ((250 <= length (sanitized text))%nat ->
      name = take 250 (sanitized text)
      /\ ~ ends_with name (chunk_suffix chunkIndex))
  /\ generateSafeFilenameFromText (repeat 97 250) 0 = repeat 97 250
  /\ ~ canonical_name_claim (repeat 97 250) 0.
Proof.
  cbv zeta.
  assert (canonical_name_claim text chunkIndex ->
          (length (sanitized text) + length (chunk_suffix chunkIndex)
           <= 250)%nat) as Hclaim.
  { intros (_ & stem & Hstem & _). apply ends_with_suffix_fits.
    by exists stem. }
  repeat apply conj.
  - unfold generateSafeFilenameFromText. cbv zeta. rewrite length_take. lia.
  - unfold generateSafeFilenameFromText. cbv zeta.
    apply Forall_take, Forall_app. split.
    + eapply Forall_impl; [apply sanitized_safe|].
      intros c Hc. unfold name_unit. by rewrite Hc.
    + apply chunk_suffix_units.
  - exact Hclaim.
  - intros Hfit. unfold canonical_name_claim, generateSafeFilenameFromText.
    cbv zeta. rewrite take_ge by (rewrite length_app; lia).
    split; [rewrite length_app; lia|].
    exists (sanitized text). split; [done | apply sanitized_safe].
  - intros Hlong. split.
    + unfold generateSafeFilenameFromText. cbv zeta.
      by rewrite take_app_le by lia.
    + intros Hends%ends_with_suffix_fits.
      pose proof (length_app (lit "-chunk-")
                    (decimal (chunkIndex + 1) ++ lit ".wav")) as Hlen.
      fold (chunk_suffix chunkIndex) in Hlen.
      change (length (lit "-chunk-")) with 7%nat in Hlen. lia.
  - vm_compute. reflexivity.
  - intros (_ & stem & Hstem & _).
    assert (ends_with (generateSafeFilenameFromText (repeat 97 250) 0)
                      (chunk_suffix 0)) as Hends by (by exists stem).
    apply ends_with_drop in Hends. vm_compute in Hends. discriminate.
Qed.

Lemma canonical_name_suffix_cut_witness :
  generateSafeFilenameFromText (repeat 97 250 ++ lit " word") 7
  = repeat 97 250
  /\ canonical_name_claim (lit "1. Apple pie") 0.
Proof.
  split.
  - destruct (canonical_name_suffix_cut (repeat 97 250 ++ lit " word") 7)
      as (_ & _ & _ & Hcut & _).
    destruct Hcut as [-> _]; [vm_compute; lia|].
    vm_compute. reflexivity.
  - apply (proj1 (proj2 (proj2 (canonical_name_suffix_cut
                                  (lit "1. Apple pie") 0)))).
    vm_compute. lia.
Defined.

(* ===================================================================== *)
(** * C3: the WAV container                                               *)
(* ===================================================================== *)

Module WavFacts.
Import Wav.
Local Open Scope Z_scope.

(** The header, byte by byte. *)
Lemma wav_header_bytes (dataSize : Z) :
  wav_header dataSize =
  [ 82; 73; 70; 70;
    byte_at (36 + dataSize) 0; byte_at (36 + dataSize) 1;
    byte_at (36 + dataSize) 2; byte_at (36 + dataSize) 3;
    87; 65; 86; 69;
    102; 109; 116; 32;
    16; 0; 0; 0;
    1; 0;
    1; 0;
    192; 93; 0; 0;
    128; 187; 0; 0;
    2; 0;
    16; 0;
    100; 97; 116; 97;
    byte_at dataSize 0; byte_at dataSize 1;
    byte_at dataSize 2; byte_at dataSize 3 ].
Proof. reflexivity. Qed.

Lemma wav_header_length (dataSize : Z) : length (wav_header dataSize) = 44%nat.
Proof. by rewrite wav_header_bytes. Qed.

Lemma byte_at_range (v : Z) (k : nat) : 0 <= byte_at v k < 256.
Proof. unfold byte_at. apply Z.mod_pos_bound. lia. Qed.

(** Four little-endian bytes give back a value that fits 32 bits. *)
Lemma le32_roundtrip (v : Z) :
  0 <= v < 2 ^ 32 ->
  byte_at v 0 + 256 * byte_at v 1 + 65536 * byte_at v 2
  + 16777216 * byte_at v 3 = v.
Proof.
  intros Hv. unfold byte_at.
  change (256 ^ Z.of_nat 0) with 1. change (256 ^ Z.of_nat 1) with 256.
  change (256 ^ Z.of_nat 2) with (256 * 256).
  change (256 ^ Z.of_nat 3) with (256 * 256 * 256).
  rewrite Z.div_1_r.
  rewrite <- !Z.div_div by lia.
  set (q1 := v / 256). set (q2 := q1 / 256). set (q3 := q2 / 256).
  pose proof (Z.div_mod v 256 ltac:(lia)) as E0.
  pose proof (Z.div_mod q1 256 ltac:(lia)) as E1.
  pose proof (Z.div_mod q2 256 ltac:(lia)) as E2.
  fold q1 in E0. fold q2 in E1. fold q3 in E2.
  assert (0 <= q3 < 256) as H3.
  { subst q3 q2 q1. rewrite !Z.div_div by lia. split.
    - apply Z.div_pos; lia.
    - apply Z.div_lt_upper_bound; lia. }
  rewrite (Z.mod_small q3 256) by lia.
  lia.
Qed.

End WavFacts.

Module HeaderFacts.
Import Wav.
Local Open Scope Z_scope.

Lemma byte_at_le (v : Z) :
  [byte_at v 0; byte_at v 1; byte_at v 2; byte_at v 3] = le_bytes 4 v.
Proof.
  unfold byte_at. cbn [le_bytes].
  change (256 ^ Z.of_nat 0) with 1. change (256 ^ Z.of_nat 1) with 256.
  change (256 ^ Z.of_nat 2) with (256 * 256).
  change (256 ^ Z.of_nat 3) with (256 * 256 * 256).
  by rewrite Z.div_1_r, <- !Z.div_div by lia.
Qed.

(** The header that the script writes is the canonical one. *)
Lemma wav_header_canonical (dataSize : Z) :
  wav_header dataSize = canonical_header dataSize.
Proof.
  rewrite WavFacts.wav_header_bytes. unfold canonical_header.
  rewrite <- !byte_at_le. reflexivity.
Qed.

Lemma le_bytes_are_bytes (n : nat) (v : Z) :
  Forall (fun b => 0 <= b < 256) (le_bytes n v).
Proof.
  revert v. induction n as [|n IH]; intros v; simpl; constructor.
  - apply Z.mod_pos_bound. lia.
  - apply IH.
Qed.

Lemma canonical_header_bytes (M : Z) :
  Forall (fun b => 0 <= b < 256) (canonical_header M).
Proof.
  rewrite <- wav_header_canonical, WavFacts.wav_header_bytes.
  repeat (constructor; [first [apply WavFacts.byte_at_range | lia]|]).
  constructor.
Qed.

End HeaderFacts.

(** C3: for every PCM array of M bytes that fits a JavaScript array
    together with its header, [createWavBlob] gives exactly 44 + M entries:
    first the 44 bytes of the canonical header, each of them in 0..255,
    namely "RIFF", 36 + M, "WAVE", "fmt ", 16, format 1, 1 channel,
    24000 Hz, byte rate 48000, block align 2, 16 bits, "data", M, every
    number least significant byte first, and the fields read back as those
    numbers; then the PCM bytes as they came. *)
Theorem createWavBlob_layout (pcmData : list Z) :
  (44 + Z.of_nat (length pcmData) < 2 ^ 32)%Z ->
  let wav := Wav.createWavBlob pcmData in
  let M := Z.of_nat (length pcmData) in
  length wav = (44 + length pcmData)%nat
  /\ take 44 wav = Wav.wav_header M
  /\ take 44 wav = canonical_header M
  /\ Forall (fun b => 0 <= b < 256)%Z (take 44 wav)
  /\ drop 44 wav = pcmData
  /\ take 4 wav = map Z.of_N (lit "RIFF")
  /\ Wav.getUint32 wav 4 = (36 + M)%Z
  /\ take 4 (drop 8 wav) = map Z.of_N (lit "WAVE")
  /\ take 4 (drop 12 wav) = map Z.of_N (lit "fmt ")
  /\ Wav.getUint32 wav 16 = 16%Z
  /\ Wav.getUint16 wav 20 = 1%Z
  /\ Wav.getUint16 wav 22 = 1%Z
  /\ Wav.getUint32 wav 24 = 24000%Z
  /\ Wav.getUint32 wav 28 = 48000%Z
  /\ Wav.getUint16 wav 32 = 2%Z
  /\ Wav.getUint16 wav 34 = 16%Z
  /\ take 4 (drop 36 wav) = map Z.of_N (lit "data")
  /\ Wav.getUint32 wav 40 = M.
Proof.
  intros Hfit wav M.
  assert (0 <= M)%Z as HM by (subst M; lia).
  pose proof (WavFacts.le32_roundtrip (36 + M) ltac:(lia)) as Hfile.
  pose proof (WavFacts.le32_roundtrip M ltac:(lia)) as Hdata.
  subst wav. unfold Wav.createWavBlob. fold M.
  pose proof (WavFacts.wav_header_length M) as Hlen.
  assert (take 44 (Wav.wav_header M ++ pcmData) = Wav.wav_header M) as Htake
      by (by rewrite take_app_length' by done).
  repeat apply conj.
  - rewrite length_app. lia.
  - exact Htake.
  - rewrite Htake. apply HeaderFacts.wav_header_canonical.
  - rewrite Htake, HeaderFacts.wav_header_canonical.
    apply HeaderFacts.canonical_header_bytes.
  - by rewrite drop_app_length' by done.
  - by rewrite WavFacts.wav_header_bytes.
  - rewrite WavFacts.wav_header_bytes. exact Hfile.
  - by rewrite WavFacts.wav_header_bytes.
  - by rewrite WavFacts.wav_header_bytes.
  - by rewrite WavFacts.wav_header_bytes.
  - by rewrite WavFacts.wav_header_bytes.
  - by rewrite WavFacts.wav_header_bytes.
  - by rewrite WavFacts.wav_header_bytes.
  - by rewrite WavFacts.wav_header_bytes.
  - by rewrite WavFacts.wav_header_bytes.
  - by rewrite WavFacts.wav_header_bytes.
  - by rewrite WavFacts.wav_header_bytes.
  - rewrite WavFacts.wav_header_bytes. exact Hdata.
Qed.

Lemma createWavBlob_layout_witness :
  take 44 (Wav.createWavBlob [0; 1; -2; 127; -128; 5]%Z)
  = [82; 73; 70; 70; 42; 0; 0; 0; 87; 65; 86; 69; 102; 109; 116; 32;
     16; 0; 0; 0; 1; 0; 1; 0; 192; 93; 0; 0; 128; 187; 0; 0; 2; 0; 16; 0;
     100; 97; 116; 97; 6; 0; 0; 0]%Z
  /\ Wav.getUint32 (Wav.createWavBlob [0; 1; -2; 127; -128; 5]%Z) 40 = 6%Z
  /\ drop 44 (Wav.createWavBlob [0; 1; -2; 127; -128; 5]%Z)
     = [0; 1; -2; 127; -128; 5]%Z.
Proof.
  destruct (createWavBlob_layout [0; 1; -2; 127; -128; 5]%Z) as
    (_ & _ & Hcanon & _ & Hpcm & _ & _ & _ & _ & _ & _ & _ & _ & _ & _ & _
     & _ & Hsize).
  - vm_compute. reflexivity.
  - repeat apply conj; [|exact Hsize | exact Hpcm].
    rewrite Hcanon. vm_compute. reflexivity.
Defined.

(* ===================================================================== *)
(** * C5: the chunker                                                     *)
(* ===================================================================== *)

Section ChunkerFacts.

Lemma take_drop_while (p : N -> bool) (s : jsstring) :
  take_while p s ++ drop_while p s = s.
Proof.
  induction s as [|c s IH]; simpl; [done|].
  destruct (p c); simpl; [by rewrite IH | done].
Qed.

Lemma take_while_Forall (p : N -> bool) (s : jsstring) :
  Forall (fun c => p c = true) (take_while p s).
Proof.
  induction s as [|c s IH]; simpl; [constructor|].
  destruct (p c) eqn:E; by constructor.
Qed.

Lemma drop_while_head (p : N -> bool) (s : jsstring) (c : N) (r : jsstring) :
  drop_while p s = c :: r -> p c = false.
Proof.
  induction s as [|x s IH]; simpl; [done|].
  destruct (p x) eqn:E; [done|]. by intros [= -> ->].
Qed.

Lemma drop_while_app (p : N -> bool) (l : jsstring) (c : N) (r : jsstring) :
  Forall (fun x => p x = true) l -> p c = false ->
  drop_while p (l ++ c :: r) = c :: r.
Proof.
  intros Hl Hc. induction Hl as [|x l Hx _ IH]; simpl.
  - by rewrite Hc.
  - by rewrite Hx.
Qed.

Lemma digit_not_space (c : N) : is_digit c = true -> is_space c = false.
Proof.
  unfold is_digit, is_space. intros [H1 H2]%andb_true_iff.
  apply N.leb_le in H1, H2.
  compare_units; reflexivity.
Qed.

(** The scan of the lookahead accepts what the pattern matches. *)
Lemma item_ahead_start (s : jsstring) : item_ahead s = true <-> item_start s.
Proof.
  unfold item_ahead, item_start. split.
  - destruct (drop_while is_space s) as [|d r] eqn:Ews; [done|].
    intros [Hd Hrest]%andb_true_iff.
    destruct (drop_while is_digit r) as [|p [|w rest]] eqn:Eds; try done.
    apply andb_true_iff in Hrest as [Hp Hw]. apply N.eqb_eq in Hp. subst p.
    exists (take_while is_space s), (d :: take_while is_digit r), w, rest.
    repeat apply conj.
    + rewrite <- (take_drop_while is_space s) at 1. rewrite Ews.
      f_equal. simpl. f_equal. rewrite <- Eds.
      symmetry. apply take_drop_while.
    + apply take_while_Forall.
    + done.
    + constructor; [done | apply take_while_Forall].
    + done.
  - intros (ws & ds & w & rest & -> & Hws & Hne & Hds & Hw).
    destruct ds as [|d ds]; [done|]. inversion Hds as [|? ? Hd Hds']; subst.
    simpl. rewrite (drop_while_app is_space ws d _ Hws (digit_not_space d Hd)).
    rewrite Hd. simpl.
    rewrite (drop_while_app is_digit ds dot _ Hds' eq_refl).
    by rewrite N.eqb_refl, Hw.
Qed.

(** The scan cuts the text at the boundary positions. *)
Lemma split_items_go_cut (ahead := item_ahead) (text s pre cur : jsstring)
  (start : nat) :
  text = pre ++ s -> (start <= length pre)%nat -> cur = drop start pre ->
  split_items_go cur s =
  cut_at text start
    (List.filter (boundary_at ahead text) (seq (length pre) (length s))).
Proof.
  revert pre cur start. induction s as [|c s IH]; intros pre cur start Ht Hs Hc.
  - simpl. subst. by rewrite app_nil_r.
  - cbn [length seq List.filter split_items_go].
    assert (boundary_at ahead text (length pre)
            = (c =? newline) && item_ahead s) as ->.
    { unfold boundary_at. subst text. by rewrite drop_app_length. }
    assert (text = (pre ++ [c]) ++ s) as Ht' by (by rewrite <- app_assoc).
    assert (S (length pre) = length (pre ++ [c])) as El
        by (rewrite length_app; simpl; lia).
    destruct ((c =? newline) && item_ahead s) eqn:Eb.
    + cbn [cut_at]. f_equal.
      * subst text cur. rewrite drop_app_le by done.
        rewrite <- (length_drop pre start). by rewrite take_app_length.
      * rewrite El. apply IH; [done | lia |].
        by rewrite drop_all.
    + rewrite El. apply IH; [done | rewrite <- El; lia |].
      subst cur. by rewrite drop_app_le.
Qed.

Lemma split_items_cut (text : jsstring) :
  split_items text = cut_at text 0 (boundaries item_ahead text).
Proof.
  unfold split_items, boundaries.
  by apply (split_items_go_cut text text [] [] 0%nat).
Qed.

End ChunkerFacts.

(** C5, as the specification words it, fails: the line "2.Banana" begins
    with an integer followed by a period, so the worded boundary cuts before
    it, and the chunker does not. *)
Lemma chunker_claim_fails :
  let text := lit "1. Apple" ++ [newline] ++ lit "2.Banana" in
  chunks_by spec_item_ahead text = [lit "1. Apple"; lit "2.Banana"]
  /\ chunk_text text = [text]
  /\ chunk_text text <> chunks_by spec_item_ahead text.
Proof. cbv zeta. repeat apply conj; [by vm_compute | by vm_compute |]. by vm_compute. Qed.

(** C5 (amended): the chunker cuts the extracted text exactly at the line
    feeds that are followed by optional white space, one or more digits, a
    period and a white-space unit; it trims every piece and drops the empty
    ones.  The text "1. Apple\n2. Banana" gives the two chunks "1. Apple"
    and "2. Banana", and the chunk list is a function of the text. *)
Theorem chunker_boundaries :
  (forall text, chunk_text text = chunks_by item_ahead text)
  /\ (forall text p,
        boundary_at item_ahead text p = true <->
        exists rest, drop p text = newline :: rest /\ item_start rest)
  /\ chunk_text (lit "1. Apple" ++ [newline] ++ lit "2. Banana")
     = [lit "1. Apple"; lit "2. Banana"]
  /\ (forall text text', text = text' -> chunk_text text = chunk_text text').
Proof.
  repeat apply conj.
  - intros text. unfold chunk_text, chunks_by. by rewrite split_items_cut.
  - intros text p. unfold boundary_at.
    destruct (drop p text) as [|c rest]; [split; [done | by intros (? & ? & _)]|].
    rewrite andb_true_iff, N.eqb_eq, item_ahead_start. split.
    + intros [-> H]. by exists rest.
    + intros (rest' & [= -> ->] & H). done.
  - by vm_compute.
  - by intros text text' ->.
Qed.

Lemma chunker_boundaries_witness :
  chunk_text (lit "1. Apple" ++ [newline] ++ lit "2. Banana")
  = chunk_text (lit "1. Apple" ++ [newline; 50; 46; 32] ++ lit "Banana")
  /\ boundary_at item_ahead (lit "1. Apple" ++ [newline] ++ lit "2. Banana") 8
     = true.
Proof.
  destruct chunker_boundaries as (_ & Hb & _ & Hdet). split.
  - apply Hdet. vm_compute. reflexivity.
  - apply Hb. exists (lit "2. Banana"). split; [vm_compute; reflexivity|].
    exists [], [50], 32, (lit "Banana"). repeat apply conj.
    + vm_compute. reflexivity.
    + constructor.
    + discriminate.
    + constructor; [vm_compute; reflexivity | constructor].
    + vm_compute. reflexivity.
Defined.

(* ===================================================================== *)
(** * C9: the discovery step                                              *)
(* ===================================================================== *)

Section DiscoveryFacts.

Lemma add_files_appends (existing : list jsstring) (files : list driveFile)
  (sh : list row) :
  add_files existing files sh =
  sh ++ map new_row
          (List.filter (fun u => negb (includes existing u))
                       (map file_url files)).
Proof.
  revert sh. induction files as [|f files IH]; intros sh; simpl.
  - by rewrite app_nil_r.
  - destruct (negb (includes existing (file_url f))); simpl.
    + by rewrite IH, <- app_assoc.
    + apply IH.
Qed.

Lemma filter_none {A} (p : A -> bool) (l : list A) :
  (forall x, In x l -> p x = false) -> List.filter p l = [].
Proof.
  induction l as [|x l IH]; simpl; intros H; [done|].
  rewrite (H x) by auto. apply IH. auto.
Qed.

Lemma rows_of_new (u : jsstring) (l : list jsstring) :
  List.NoDup l -> In u l -> length (rows_of u (map new_row l)) = 1%nat.
Proof.
  unfold rows_of. induction 1 as [|x l Hx Hl IH]; simpl; [done|].
  intros [-> | Hin].
  - rewrite str_eqb_refl. simpl. f_equal.
    rewrite filter_none; [done|].
    intros r (y & <- & Hy)%in_map_iff. simpl.
    apply str_eqb_neq. by intros ->.
  - destruct (str_eqb x u) eqn:E.
    + apply str_eqb_eq in E. by subst.
    + by apply IH.
Qed.

Lemma step0_sheet (E : Services) (st : state) :
  has_sheet E = true -> has_main_folder E = true ->
  sheet (step0_addNewPdfs E st) =
  sheet st ++ map new_row (List.filter (unseen st) (listed_urls st)).
Proof.
  intros Hs Hm. unfold step0_addNewPdfs, listed_urls. rewrite Hs, Hm. simpl.
  destruct (sources st) as [pdfFolder|]; simpl.
  - apply add_files_appends.
  - by rewrite app_nil_r.
Qed.

Lemma step0_keeps (E : Services) (st : state) :
  header_url (step0_addNewPdfs E st) = header_url st
  /\ sources (step0_addNewPdfs E st) = sources st
  /\ folders (step0_addNewPdfs E st) = folders st.
Proof.
  unfold step0_addNewPdfs.
  destruct (has_sheet E), (has_main_folder E), (sources st) eqn:Es;
    simpl; rewrite ?Es; auto.
Qed.

(** After a run every listed URL is in column A. *)
Lemma step0_all_seen (E : Services) (st : state) (u : jsstring) :
  has_sheet E = true -> has_main_folder E = true ->
  In u (listed_urls st) -> unseen (step0_addNewPdfs E st) u = false.
Proof.
  intros Hs Hm Hu. unfold unseen. apply negb_false_iff, includes_In.
  unfold existingUrls. rewrite (step0_sheet E st Hs Hm).
  destruct (includes (existingUrls st) u) eqn:Eu.
  - apply includes_In in Eu. destruct Eu as [Eh | Eu].
    + left. by rewrite (proj1 (step0_keeps E st)).
    + right. rewrite map_app. apply in_or_app. by left.
  - right. rewrite map_app. apply in_or_app. right.
    rewrite map_map. simpl. rewrite map_id.
    apply filter_In. split; [done|]. unfold unseen. by rewrite Eu.
Qed.

Lemma step0_only_sheet (E : Services) (st : state) :
  step0_addNewPdfs E st = set_sheet (sheet (step0_addNewPdfs E st)) st.
Proof.
  unfold step0_addNewPdfs.
  destruct (has_sheet E), (has_main_folder E), (sources st);
    simpl; by destruct st.
Qed.

Lemma step0_again (E : Services) (st : state) :
  step0_addNewPdfs E (step0_addNewPdfs E st) = step0_addNewPdfs E st.
Proof.
  destruct (has_sheet E) eqn:Hs; [|unfold step0_addNewPdfs; by rewrite Hs].
  destruct (has_main_folder E) eqn:Hm;
    [|unfold step0_addNewPdfs; by rewrite Hs, Hm].
  pose proof (step0_sheet E (step0_addNewPdfs E st) Hs Hm) as H2.
  rewrite filter_none, app_nil_r in H2.
  - rewrite step0_only_sheet, H2. by destruct (step0_addNewPdfs E st).
  - intros u Hu. apply step0_all_seen; [done..|].
    unfold listed_urls in *. by rewrite (proj1 (proj2 (step0_keeps E st))) in Hu.
Qed.

End DiscoveryFacts.

(** C9: with the sheet and the folders in place and the files of the source
    folder all of distinct URLs, step 0 appends to the sheet exactly the
    rows of the listed PDFs whose URL is in no line of column A, one row
    for each of them, and a second run on the same folder appends nothing
    and changes nothing. *)
Theorem step0_appends_unseen_once (E : Services) (st : state) :
  has_sheet E = true -> has_main_folder E = true ->
  List.NoDup (listed_urls st) ->
  let st' := step0_addNewPdfs E st in
  let appended := drop (length (sheet st)) (sheet st') in
  sheet st' = sheet st ++ appended
  /\ appended = map new_row (List.filter (unseen st) (listed_urls st))
  /\ (forall u, In u (listed_urls st) -> unseen st u = true ->
        length (rows_of u appended) = 1%nat)
  /\ (forall u, unseen st u = false -> rows_of u appended = [])
  /\ step0_addNewPdfs E st' = st'.
Proof.
  intros Hs Hm Hnd st' appended.
  assert (appended = map new_row (List.filter (unseen st) (listed_urls st)))
    as Happ.
  { subst appended st'. rewrite (step0_sheet E st Hs Hm).
    by rewrite drop_app_length. }
  repeat apply conj.
  - rewrite Happ. apply (step0_sheet E st Hs Hm).
  - exact Happ.
  - intros u Hu Hun. rewrite Happ. apply rows_of_new.
    + by apply List.NoDup_filter.
    + apply filter_In. by split.
  - intros u Hun. rewrite Happ. unfold rows_of. apply filter_none.
    intros r (y & <- & Hy)%in_map_iff. simpl.
    apply filter_In in Hy as [_ Hy]. apply str_eqb_neq. intros ->.
    by rewrite Hun in Hy.
  - apply step0_again.
Qed.

Lemma step0_appends_unseen_once_witness :
  let E := Demo.services Demo.silent Demo.fast_clock in
  let st := Demo.world [Demo.quiz_row] [] in
  sheet (step0_addNewPdfs E st)
  = [Demo.quiz_row; new_row (file_url Demo.notes)]
  /\ step0_addNewPdfs E (step0_addNewPdfs E st) = step0_addNewPdfs E st.
Proof.
  cbv zeta.
  destruct (step0_appends_unseen_once
              (Demo.services Demo.silent Demo.fast_clock)
              (Demo.world [Demo.quiz_row] []))
    as (Hsheet & Happ & _ & _ & Hagain).
  - reflexivity.
  - reflexivity.
  - apply List.NoDup_cons; [|apply List.NoDup_cons; [|apply List.NoDup_nil]].
    + vm_compute. intros [H | []]. discriminate.
    + intros [].
  - split; [|exact Hagain]. rewrite Hsheet, Happ. vm_compute. reflexivity.
Defined.

(* ===================================================================== *)
(** * Step 2: what an iteration reads and writes                          *)
(* ===================================================================== *)

Section GenerationFacts.

Context (E : Services).

Lemma generate_sheet text fileName folder st :
  sheet (generateAudioFromTextChunk E text fileName folder st).1 = sheet st.
Proof.
  unfold generateAudioFromTextChunk. by destruct (gemini_audio E _).
Qed.

Lemma generate_request text fileName folder st :
  requests (generateAudioFromTextChunk E text fileName folder st).1
  = prompt text :: requests st.
Proof.
  unfold generateAudioFromTextChunk. by destruct (gemini_audio E _).
Qed.

Lemma generate_fails text fileName folder st :
  gemini_audio E (prompt text) = None ->
  generateAudioFromTextChunk E text fileName folder st
  = (with_request (prompt text) st, None).
Proof. unfold generateAudioFromTextChunk. by intros ->. Qed.

Lemma generate_file text fileName folder st f :
  (generateAudioFromTextChunk E text fileName folder st).2 = Some f ->
  file_name f = fileName
  /\ (exists pcm, gemini_audio E (prompt text) = Some pcm
                  /\ file_bytes f = Wav.createWavBlob pcm)
  /\ (folder < length (folders st) ->
      In f (folder_files
              (generateAudioFromTextChunk E text fileName folder st).1
              folder))%nat.
Proof.
  unfold generateAudioFromTextChunk.
  destruct (gemini_audio E _) as [pcm|] eqn:Eg; [|done].
  simpl. intros [= <-]. simpl. repeat apply conj; [done | by exists pcm |].
  intros Hlt. unfold folder_files. simpl.
  rewrite list_lookup_alter_eq.
  destruct (lookup_lt_is_Some_2 (folders st) folder Hlt) as [[n fs] ->].
  simpl. apply in_or_app. right. by left.
Qed.

(** The three lookups of [resolve_chunk], one case after the other. *)
Lemma resolve_chunk_cases baseName fileName folder chunkText j st :
  let files := folder_files st folder in
  resolve_chunk E baseName fileName folder chunkText j st =
  match getFilesByName files (generateSafeFilenameFromText chunkText j) with
  | f :: _ => (st, Some f)
  | [] =>
      match getFilesByName files (baseName ++ chunk_suffix j) with
      | f :: _ => (st, Some f)
      | [] =>
          match getFilesByName files (fileName ++ chunk_suffix j) with
          | f :: _ => (st, Some f)
          | [] => generateAudioFromTextChunk E chunkText
                    (generateSafeFilenameFromText chunkText j) folder st
          end
      end
  end.
Proof.
  unfold resolve_chunk. cbv zeta.
  destruct (getFilesByName _ (generateSafeFilenameFromText chunkText j));
    [|done].
  simpl. destruct (getFilesByName _ (baseName ++ chunk_suffix j)); [|done].
  simpl. done.
Qed.

Lemma getFilesByName_In files name f fs :
  getFilesByName files name = f :: fs -> In f files /\ file_name f = name.
Proof.
  intros H. assert (In f (getFilesByName files name)) as Hin
      by (rewrite H; by left).
  apply filter_In in Hin as [? ?%str_eqb_eq]. done.
Qed.

Lemma resolve_existing baseName fileName folder chunkText j st :
  artifact_exists (folder_files st folder) baseName fileName chunkText j
  = true ->
  exists f, resolve_chunk E baseName fileName folder chunkText j st
            = (st, Some f)
            /\ In f (folder_files st folder).
Proof.
  rewrite resolve_chunk_cases. unfold artifact_exists, named. cbv zeta.
  destruct (getFilesByName _ (generateSafeFilenameFromText chunkText j))
    as [|f fs] eqn:E1.
  2:{ intros _. exists f. split; [done|].
      by apply getFilesByName_In in E1 as [? _]. }
  destruct (getFilesByName _ (baseName ++ chunk_suffix j)) as [|f fs] eqn:E2.
  2:{ intros _. exists f. split; [done|].
      by apply getFilesByName_In in E2 as [? _]. }
  destruct (getFilesByName _ (fileName ++ chunk_suffix j)) as [|f fs] eqn:E3.
  { done. }
  intros _. exists f. split; [done|].
  by apply getFilesByName_In in E3 as [? _].
Qed.

Lemma resolve_missing baseName fileName folder chunkText j st :
  artifact_exists (folder_files st folder) baseName fileName chunkText j
  = false ->
  resolve_chunk E baseName fileName folder chunkText j st
  = generateAudioFromTextChunk E chunkText
      (generateSafeFilenameFromText chunkText j) folder st.
Proof.
  rewrite resolve_chunk_cases. unfold artifact_exists, named. cbv zeta.
  destruct (getFilesByName _ (generateSafeFilenameFromText chunkText j));
    [|done].
  destruct (getFilesByName _ (baseName ++ chunk_suffix j)); [|done].
  by destruct (getFilesByName _ (fileName ++ chunk_suffix j)).
Qed.

Lemma resolve_chunk_sheet baseName fileName folder chunkText j st :
  sheet (resolve_chunk E baseName fileName folder chunkText j st).1
  = sheet st.
Proof.
  rewrite resolve_chunk_cases. cbv zeta.
  repeat case_match; try done. apply generate_sheet.
Qed.

Lemma chunk_loop_sheet baseName fileName folder j textChunks acc st :
  sheet (chunk_loop E baseName fileName folder j textChunks acc st).1
  = sheet st.
Proof.
  revert j acc st. induction textChunks as [|c rest IH]; intros j acc st;
    simpl; [done|].
  pose proof (resolve_chunk_sheet baseName fileName folder c j st) as Hr.
  destruct (resolve_chunk E baseName fileName folder c j st) as [st' [f|]];
    simpl in *; [|done].
  by rewrite IH.
Qed.

Lemma chunk_loop_length baseName fileName folder j textChunks acc st st' fs :
  chunk_loop E baseName fileName folder j textChunks acc st = (st', Some fs) ->
  length fs = (length acc + length textChunks)%nat.
Proof.
  revert j acc st. induction textChunks as [|c rest IH]; intros j acc st;
    simpl.
  - intros [= _ <-]. lia.
  - destruct (resolve_chunk E baseName fileName folder c j st) as [st1 [f|]];
      [|done].
    intros H%IH. rewrite length_app in H. simpl in H. lia.
Qed.

(** Once a chunk has failed, the chunks after it play no part: the loop
    gives the same state and the same result whatever follows. *)
Lemma chunk_loop_abort baseName fileName folder j l1 l2 acc st :
  (chunk_loop E baseName fileName folder j l1 acc st).2 = None ->
  chunk_loop E baseName fileName folder j (l1 ++ l2) acc st
  = chunk_loop E baseName fileName folder j l1 acc st.
Proof.
  revert j acc st. induction l1 as [|c rest IH]; intros j acc st; simpl;
    [done|].
  destruct (resolve_chunk E baseName fileName folder c j st) as [st1 [f|]];
    [|done].
  apply IH.
Qed.

Lemma getOrCreateSubfolder_sheet name st :
  sheet (getOrCreateSubfolder E name st).1 = sheet st.
Proof.
  unfold getOrCreateSubfolder. repeat case_match; done.
Qed.

(** An iteration leaves the sheet as it is, or it finalizes its row: every
    chunk of the row came out of the chunk loop with a file, and the JSON
    and the flag are written together. *)
Lemma process_row_sheet i r st :
  sheet (process_row E i r st).1 = sheet st \/ finalized_by E i r st.
Proof.
  unfold finalized_by, process_row.
  destruct (_ && _ && _); [|by left].
  destruct (getFileIdFromUrl (PDF_URL r)) as [fileId|] eqn:Eid; [|by left].
  destruct (getFileById E fileId) as [file|] eqn:Ef; [|by left].
  pose proof (getOrCreateSubfolder_sheet
                (trim (strip_pdf (file_name file))) st) as Hsub.
  destruct (getOrCreateSubfolder E _ st) as [st1 [folder|]]; simpl in Hsub;
    [|by left].
  destruct (extractTextFromPdf E fileId) as [textChunks|] eqn:Ex; [|by left].
  destruct (length_differs textChunks (CHUNK_COUNT r)) eqn:Ed; [by left|].
  pose proof (chunk_loop_sheet (trim (strip_pdf (file_name file)))
                (file_name file) folder 0 textChunks [] st1) as Hloop.
  destruct (chunk_loop E _ _ folder 0 textChunks [] st1)
    as [st2 [audioFileObjects|]] eqn:El; simpl in Hloop;
    [|left; simpl; congruence].
  destruct (length_differs audioFileObjects (CHUNK_COUNT r)) eqn:Ed2;
    [left; simpl; congruence|].
  right. exists fileId, file, folder, st1, st2, textChunks, audioFileObjects.
  apply chunk_loop_length in El as Hlen. simpl in Hlen.
  unfold length_differs in Ed. destruct (CHUNK_COUNT r) as [z|]; [|done].
  apply negb_false_iff, Z.eqb_eq in Ed. subst z.
  repeat apply conj; try done. congruence.
Qed.

(** An iteration writes to its own row only. *)
Lemma process_row_frame i r st j :
  j <> i -> sheet (process_row E i r st).1 !! j = sheet st !! j.
Proof.
  intros Hj.
  destruct (process_row_sheet i r st)
    as [-> | (?&?&?&?&st2&?&?&_&_&_&_&_&_&->&<-)]; [done|].
  unfold finalize, setValue. simpl.
  by rewrite !list_lookup_alter_ne by done.
Qed.

Lemma run_rows_frame data i st j :
  (j < i \/ i + length data <= j)%nat ->
  sheet (run_rows E data i st).1 !! j = sheet st !! j.
Proof.
  revert i st. induction data as [|r data IH]; intros i st Hj; simpl; [done|].
  pose proof (process_row_frame i r st j ltac:(simpl in Hj; lia)) as Hrow.
  destruct (process_row E i r st) as [st' []]; simpl in *; [|done].
  rewrite IH by lia. done.
Qed.

(** Up to the first reading above the ceiling, the loop is [run_rows]. *)
Lemma step2_loop_stops data i st k :
  (i <= k < i + length data)%nat ->
  (forall j, (i <= j < k)%nat -> (elapsed E j <= SCRIPT_TIMEOUT_MS)%Z) ->
  (elapsed E k > SCRIPT_TIMEOUT_MS)%Z ->
  step2_loop E data i st = run_rows E (take (k - i) data) i st.
Proof.
  revert i st. induction data as [|r data IH]; intros i st Hk Hbefore Hat;
    simpl in *; [lia|].
  destruct (decide (i = k)) as [->|Hne].
  - replace (k - k)%nat with 0%nat by lia. simpl.
    destruct (Z.gtb_spec (elapsed E k) SCRIPT_TIMEOUT_MS); [done | lia].
  - pose proof (Hbefore i ltac:(lia)) as Hi.
    destruct (Z.gtb_spec (elapsed E i) SCRIPT_TIMEOUT_MS); [lia|].
    replace (k - i)%nat with (S (k - S i)) by lia. simpl.
    destruct (process_row E i r st) as [st' []]; [|done].
    apply IH; [lia | | done]. intros j Hj. apply Hbefore. lia.
Qed.

Lemma step2_loop_frame data i st j :
  (j < i)%nat -> sheet (step2_loop E data i st).1 !! j = sheet st !! j.
Proof.
  revert i st. induction data as [|r data IH]; intros i st Hj; simpl; [done|].
  destruct (_ >? _)%Z; [done|].
  pose proof (process_row_frame i r st j ltac:(lia)) as Hrow.
  destruct (process_row E i r st) as [st' []]; simpl in *; [|done].
  rewrite IH by lia. done.
Qed.

End GenerationFacts.

(* ===================================================================== *)
(** * C2, C6, C7: the generation pass                                     *)
(* ===================================================================== *)

(** C6: for a chunk the three names are looked up in this order: the name
    made from the text of the chunk, the name made from the document name
    without ".pdf", the name made from the whole document name.  The first
    name that names a file gives the file, the state stays as it was and no
    request goes to the speech service; only when none of the three names a
    file is the service asked, once, and the file it gives is created under
    the name made from the text. *)
Theorem resolution_order (E : Services) (baseName fileName : jsstring)
  (folder : nat) (chunkText : jsstring) (j : N) (st : state) :
  let files := folder_files st folder in
  let newChunkName := generateSafeFilenameFromText chunkText j in
  let cleanLegacyName := baseName ++ chunk_suffix j in
  let legacyFullName := fileName ++ chunk_suffix j in
  let result := resolve_chunk E baseName fileName folder chunkText j st in
  (forall f fs, getFilesByName files newChunkName = f :: fs ->
                result = (st, Some f))
  /\ (getFilesByName files newChunkName = [] ->
      forall f fs, getFilesByName files cleanLegacyName = f :: fs ->
                   result = (st, Some f))
  /\ (getFilesByName files newChunkName = [] ->
      getFilesByName files cleanLegacyName = [] ->
      forall f fs, getFilesByName files legacyFullName = f :: fs ->
                   result = (st, Some f))
  /\ (getFilesByName files newChunkName = [] ->
      getFilesByName files cleanLegacyName = [] ->
      getFilesByName files legacyFullName = [] ->
      result = generateAudioFromTextChunk E chunkText newChunkName folder st
      /\ requests result.1 = prompt chunkText :: requests st
      /\ forall f, result.2 = Some f ->
           file_name f = newChunkName
           /\ ((folder < length (folders st))%nat ->
               In f (folder_files result.1 folder))).
Proof.
  cbv zeta. rewrite resolve_chunk_cases. cbv zeta. repeat apply conj.
  - by intros f fs ->.
  - by intros -> f fs ->.
  - by intros -> -> f fs ->.
  - intros -> -> ->. repeat apply conj; [done | apply generate_request |].
    intros f Hf. apply generate_file in Hf as (Hn & _ & Hin). by split.
Qed.

Lemma resolution_order_witness :
  let E := Demo.services Demo.speaking Demo.fast_clock in
  let at_chunk_1 files :=
    resolve_chunk E (lit "Quiz") (lit "Quiz.pdf") 0 (lit "1. Apple") 0
                  (Demo.world [] files) in
  at_chunk_1 Demo.three_names
  = (Demo.world [] Demo.three_names,
     Some (Demo.wav "w1" "1-Apple-chunk-1.wav"))
  /\ at_chunk_1 (take 2 Demo.three_names)
     = (Demo.world [] (take 2 Demo.three_names),
        Some (Demo.wav "w2" "Quiz-chunk-1.wav"))
  /\ at_chunk_1 (take 1 Demo.three_names)
     = (Demo.world [] (take 1 Demo.three_names),
        Some (Demo.wav "w3" "Quiz.pdf-chunk-1.wav"))
  /\ requests (at_chunk_1 []).1 = [prompt (lit "1. Apple")].
Proof.
  cbv zeta. repeat apply conj.
  - eapply (proj1 (resolution_order _ _ _ _ _ _ _)).
    vm_compute. reflexivity.
  - eapply (proj1 (proj2 (resolution_order _ _ _ _ _ _ _)));
      vm_compute; reflexivity.
  - eapply (proj1 (proj2 (proj2 (resolution_order _ _ _ _ _ _ _))));
      vm_compute; reflexivity.
  - refine (proj1 (proj2 (proj2 (proj2 (proj2
              (resolution_order
                 (Demo.services Demo.speaking Demo.fast_clock)
                 (lit "Quiz") (lit "Quiz.pdf") 0 (lit "1. Apple") 0
                 (Demo.world [] [])))) _ _ _)));
      vm_compute; reflexivity.
Defined.

(** C2: a row of three chunks is reached by the generation pass; the first
    two chunks have a file under one of their names, the third has none and
    the speech service fails on it.  Then the iteration makes that one
    request and writes nothing, and at the end of the pass the row is as it
    was: no JSON, the flag not true.  In general an iteration leaves the
    sheet alone unless every chunk of its row came out of the chunk loop
    with a file, and once a chunk has failed the chunks after it are not
    looked at. *)
Theorem failed_chunk_keeps_row_incomplete (E : Services) (st st1 : state)
  (i folder : nat) (r : row) (rest : list row) (fileId : jsstring)
  (file : driveFile) (c0 c1 c2 : jsstring) :
  let fileName := file_name file in
  let baseName := trim (strip_pdf fileName) in
  sheet st !! i = Some r ->
  truthy_str (PDF_URL r) = true ->
  CHUNK_COUNT r = Some 3%Z ->
  truthy_bool_cell (IS_COMPLETE r) = false ->
  AUDIO_JSON r = None ->
  (elapsed E i <= SCRIPT_TIMEOUT_MS)%Z ->
  getFileIdFromUrl (PDF_URL r) = Some fileId ->
  getFileById E fileId = Some file ->
  getOrCreateSubfolder E baseName st = (st1, Some folder) ->
  extractTextFromPdf E fileId = Some [c0; c1; c2] ->
  artifact_exists (folder_files st1 folder) baseName fileName c0 0 = true ->
  artifact_exists (folder_files st1 folder) baseName fileName c1 1 = true ->
  artifact_exists (folder_files st1 folder) baseName fileName c2 2 = false ->
  gemini_audio E (prompt c2) = None ->
  let st' := (step2_loop E (r :: rest) i st).1 in
  process_row E i r st = (with_request (prompt c2) st1, Continue)
  /\ sheet st' !! i = Some r
  /\ (forall r', sheet st' !! i = Some r' ->
        AUDIO_JSON r' = None /\ truthy_bool_cell (IS_COMPLETE r') = false)
  /\ (forall i' r' st0,
        sheet (process_row E i' r' st0).1 = sheet st0
        \/ finalized_by E i' r' st0)
  /\ (forall b f d j l1 l2 acc st0,
        (chunk_loop E b f d j l1 acc st0).2 = None ->
        chunk_loop E b f d j (l1 ++ l2) acc st0
        = chunk_loop E b f d j l1 acc st0).
Proof.
  intros fileName baseName Hrow Hurl Hcount Hflag Hjson Htime Hid Hfile Hsub
    Htext H0 H1 H2 Hfail st'.
  assert (process_row E i r st = (with_request (prompt c2) st1, Continue))
    as Hproc.
  { unfold process_row. rewrite Hurl, Hcount, Hflag, Hid, Hfile. simpl.
    fold fileName. fold baseName. rewrite Hsub, Htext.
    change (length_differs [c0; c1; c2] (Some 3%Z)) with false.
    cbn iota. cbn [chunk_loop].
    destruct (resolve_existing E baseName fileName folder c0 0 st1 H0)
      as (f0 & -> & _).
    change (0 + 1) with 1.
    destruct (resolve_existing E baseName fileName folder c1 1 st1 H1)
      as (f1 & -> & _).
    change (1 + 1) with 2.
    rewrite (resolve_missing E baseName fileName folder c2 2 st1 H2).
    by rewrite (generate_fails E c2 _ folder st1 Hfail). }
  assert (sheet st' !! i = Some r) as Hkept.
  { subst st'. simpl.
    destruct (Z.gtb_spec (elapsed E i) SCRIPT_TIMEOUT_MS); [lia|].
    rewrite Hproc.
    rewrite step2_loop_frame by lia. simpl.
    pose proof (getOrCreateSubfolder_sheet E baseName st) as Hs.
    rewrite Hsub in Hs. simpl in Hs. by rewrite Hs. }
  repeat apply conj.
  - exact Hproc.
  - exact Hkept.
  - intros r' Hr'. rewrite Hkept in Hr'. injection Hr' as <-. by split.
  - intros i' r' st0. apply process_row_sheet.
  - intros b f d j l1 l2 acc st0. apply chunk_loop_abort.
Qed.

Lemma failed_chunk_keeps_row_incomplete_witness :
  let E := Demo.services Demo.silent Demo.fast_clock in
  let st := Demo.world [Demo.quiz_row] Demo.two_of_three in
  sheet (step2_loop E [Demo.quiz_row] 0 st).1 !! 0%nat = Some Demo.quiz_row
  /\ process_row E 0 Demo.quiz_row st
     = (with_request (prompt (lit "3. Cherry")) st, Continue).
Proof.
  cbv zeta.
  destruct (failed_chunk_keeps_row_incomplete
              (Demo.services Demo.silent Demo.fast_clock)
              (Demo.world [Demo.quiz_row] Demo.two_of_three)
              (Demo.world [Demo.quiz_row] Demo.two_of_three)
              0%nat 0%nat Demo.quiz_row [] (lit "doc1") Demo.quiz
              (lit "1. Apple") (lit "2. Banana") (lit "3. Cherry"))
    as (Hproc & Hkept & _); try (vm_compute; reflexivity).
  - vm_compute. discriminate.
  - split; [exact Hkept | exact Hproc].
Defined.

(** C7: the clock is read at the head of the iteration of each row and
    nowhere else, against a ceiling of 5 minutes, below the 6 minutes of the
    host.  When the reading for row [k] is the first above the ceiling, the
    pass is the rows before [k], each taken through its whole iteration,
    and nothing more: row [k] and every row after it are in the sheet as
    they were. *)
Theorem time_check_between_rows (E : Services) (st : state) (k : nat) :
  has_main_folder E = true -> has_sheet E = true ->
  (k < length (sheet st))%nat ->
  (forall j, (j < k)%nat -> (elapsed E j <= SCRIPT_TIMEOUT_MS)%Z) ->
  (elapsed E k > SCRIPT_TIMEOUT_MS)%Z ->
  let result := step2_GenerateMissingAudioAndFinalize E st in
  SCRIPT_TIMEOUT_MS = 300000%Z
  /\ (SCRIPT_TIMEOUT_MS < 6 * 60 * 1000)%Z
  /\ result = run_rows E (take k (sheet st)) 0 st
  /\ (forall j, (k <= j)%nat -> sheet result.1 !! j = sheet st !! j).
Proof.
  intros Hm Hs Hk Hbefore Hat result.
  assert (result = run_rows E (take k (sheet st)) 0 st) as Hrun.
  { subst result. unfold step2_GenerateMissingAudioAndFinalize.
    rewrite Hm, Hs. simpl.
    rewrite (step2_loop_stops E (sheet st) 0 st k); [|lia| |done].
    - by rewrite Nat.sub_0_r.
    - intros j Hj. apply Hbefore. lia. }
  repeat apply conj; [done | done | exact Hrun |].
  intros j Hj. rewrite Hrun. apply run_rows_frame. right.
  rewrite length_take. lia.
Qed.

Lemma time_check_between_rows_witness :
  let E := Demo.services Demo.speaking Demo.slow_clock in
  let st := Demo.world [Demo.quiz_row_done; Demo.quiz_row_done; Demo.quiz_row]
                       Demo.two_of_three in
  sheet (step2_GenerateMissingAudioAndFinalize E st).1 !! 2%nat
  = Some Demo.quiz_row.
Proof.
  cbv zeta.
  destruct (time_check_between_rows
              (Demo.services Demo.speaking Demo.slow_clock)
              (Demo.world
                 [Demo.quiz_row_done; Demo.quiz_row_done; Demo.quiz_row]
                 Demo.two_of_three) 2%nat)
    as (_ & _ & _ & Hframe).
  - reflexivity.
  - reflexivity.
  - simpl. lia.
  - intros j Hj. assert (j = 0 \/ j = 1)%nat as [-> | ->] by lia;
      vm_compute; discriminate.
  - vm_compute. reflexivity.
  - rewrite (Hframe 2%nat) by lia. reflexivity.
Defined.

(* ===================================================================== *)
(** * C4, C8, C10: the serving lookup                                     *)
(* ===================================================================== *)

Section ServingFacts.

Lemma trim_start_spaces (ws s : jsstring) :
  Forall (fun c => is_space c = true) ws ->
  trim_start (ws ++ s) = trim_start s.
Proof. induction 1 as [|c ws Hc _ IH]; simpl; [done | by rewrite Hc]. Qed.

Lemma trim_start_all_spaces (ws : jsstring) :
  Forall (fun c => is_space c = true) ws -> trim_start ws = [].
Proof.
  intros H. rewrite <- (app_nil_r ws). by rewrite trim_start_spaces.
Qed.



Lemma In_trim_start (c : N) (s : jsstring) : In c (trim_start s) -> In c s.
Proof.
  induction s as [|x s IH]; simpl; [done|].
  destruct (is_space x); [auto | done].
Qed.

Lemma In_trim (c : N) (s : jsstring) : In c (trim s) -> In c s.
Proof.
  unfold trim. intros H%in_rev%In_trim_start%in_rev. by apply In_trim_start.
Qed.

Lemma trim_start_keeps (c : N) (s : jsstring) :
  is_space c = false -> In c s -> In c (trim_start s).
Proof.
  intros Hc. induction s as [|x s IH]; simpl; [done|].
  destruct (is_space x) eqn:Ex; [|done].
  intros [-> | H]; [congruence | auto].
Qed.

Lemma trim_keeps (c : N) (s : jsstring) :
  is_space c = false -> In c s -> In c (trim s).
Proof.
  intros Hc H. unfold trim. apply in_rev. rewrite rev_involutive.
  apply trim_start_keeps; [done|]. apply in_rev. rewrite rev_involutive.
  by apply trim_start_keeps.
Qed.

Lemma lower_unit_cases (c : N) :
  lower_unit c = c \/ (97 <= lower_unit c /\ lower_unit c <= 122).
Proof.
  unfold lower_unit. destruct (_ && _) eqn:E; [|by left].
  apply andb_true_iff in E as [?%N.leb_le ?%N.leb_le]. right. lia.
Qed.



Lemma In_lower (c : N) (s : jsstring) :
  c < 65 -> In c (toLowerCase s) <-> In c s.
Proof.
  intros Hc. unfold toLowerCase. rewrite in_map_iff. split.
  - intros (x & Hx & Hin). destruct (lower_unit_cases x) as [E | E].
    + by rewrite <- Hx, E.
    + lia.
  - intros Hin. exists c. split; [|done]. unfold lower_unit.
    destruct (N.leb_spec 65 c); [lia | done].
Qed.

Lemma split_on_go_whole (sep : N) (cur s : jsstring) :
  ~ In sep s -> split_on_go sep cur s = [cur ++ s].
Proof.
  revert cur. induction s as [|c s IH]; intros cur Hs; simpl.
  - by rewrite app_nil_r.
  - destruct (N.eqb_spec c sep) as [-> | Hne]; [exfalso; apply Hs; by left|].
    rewrite IH, <- app_assoc; [done|]. intros H. apply Hs. by right.
Qed.

Lemma In_join (c : N) (sep : jsstring) (l : list jsstring) :
  In c (join sep l) -> In c sep \/ exists e, In e l /\ In c e.
Proof.
  induction l as [|x [|y l] IH]; simpl; [done | |].
  - intros H. right. exists x. auto.
  - intros [H | [H | H]%in_app_or]%in_app_or.
    + right. exists x. auto.
    + by left.
    + destruct (IH H) as [? | (e & He & Hc)]; [by left|].
      right. exists e. auto.
Qed.

Lemma join_has_sep (sep : N) (l : list jsstring) :
  (2 <= length l)%nat -> In sep (join [sep] l).
Proof.
  destruct l as [|x [|y l]]; simpl; try lia. intros _.
  apply in_or_app. right. by left.
Qed.

(** The test on a row, in words of lists and equality. *)
Lemma credentials_match_spec (r : row) (email password : jsstring) :
  credentials_match r email password = true <->
  In (trim (toLowerCase email))
     (map trim (split_on comma (toLowerCase (STUDENT_EMAILS r))))
  /\ password = trim (PASSWORD r).
Proof.
  unfold credentials_match. by rewrite andb_true_iff, includes_In, str_eqb_eq.
Qed.

(** The scan answers for the first usable row that matches. *)
Lemma scan_rows_first (E : Services) (email password : jsstring)
  (pre : list row) (r : row) (post : list row) :
  (forall r', In r' pre ->
     row_usable r' && credentials_match r' email password = false) ->
  row_usable r = true -> credentials_match r email password = true ->
  scan_rows E email password (pre ++ r :: post) = serve_row E r.
Proof.
  intros Hpre Hu Hm. induction pre as [|x pre IH]; simpl.
  - by rewrite Hu, Hm.
  - pose proof (Hpre x ltac:(by left)) as Hx.
    destruct (row_usable x); simpl in *; [rewrite Hx|]; apply IH; auto.
Qed.

Lemma scan_rows_none (E : Services) (email password : jsstring)
  (data : list row) :
  (forall r, In r data ->
     row_usable r && credentials_match r email password = false) ->
  scan_rows E email password data = not_found.
Proof.
  induction data as [|x data IH]; simpl; intros H; [done|].
  pose proof (H x ltac:(by left)) as Hx.
  destruct (row_usable x); simpl in *; [rewrite Hx|]; apply IH; auto.
Qed.

Lemma serve_row_found (E : Services) (r : row) : serve_row E r <> not_found.
Proof.
  unfold serve_row. repeat case_match; try discriminate.
  all: vm_compute; discriminate.
Qed.

End ServingFacts.


Section IdentityListFacts.

Lemma split_on_go_app (sep : N) (cur e s : jsstring) :
  ~ In sep e ->
  split_on_go sep cur (e ++ s) = split_on_go sep (cur ++ e) s.
Proof.
  revert cur. induction e as [|c e IH]; intros cur He; simpl.
  - by rewrite app_nil_r.
  - destruct (N.eqb_spec c sep) as [-> | Hne]; [exfalso; apply He; by left|].
    rewrite IH by (intros H; apply He; by right).
    by rewrite <- app_assoc.
Qed.

(** Cutting at the separator undoes joining with it. *)
Lemma split_on_join (sep : N) (entries : list jsstring) :
  entries <> [] ->
  (forall e, In e entries -> ~ In sep e) ->
  split_on sep (join [sep] entries) = entries.
Proof.
  unfold split_on. induction entries as [|x [|y l] IH]; intros Hne Hfree.
  - done.
  - simpl. rewrite split_on_go_whole; [done|]. apply Hfree. by left.
  - change (join [sep] (x :: y :: l))
      with (x ++ sep :: join [sep] (y :: l)).
    rewrite split_on_go_app by (apply Hfree; by left).
    cbn [split_on_go app]. rewrite N.eqb_refl. f_equal.
    apply IH; [done|]. intros e He. apply Hfree. by right.
Qed.

(** Joining with the separator undoes cutting at it. *)
Lemma join_split_on_go (sep : N) (cur s : jsstring) :
  join [sep] (split_on_go sep cur s) = cur ++ s.
Proof.
  revert cur. induction s as [|c s IH]; intros cur; simpl.
  - by rewrite app_nil_r.
  - destruct (N.eqb_spec c sep) as [-> | Hne].
    + pose proof (IH []) as Hrest.
      destruct (split_on_go sep [] s) as [|p ps] eqn:Eps.
      * destruct s; simpl in Eps; [done|]. by destruct (_ =? _).
      * change (join [sep] (cur :: p :: ps))
          with (cur ++ sep :: join [sep] (p :: ps)).
        by rewrite Hrest.
    + rewrite IH, <- app_assoc. done.
Qed.

Lemma split_on_go_free (sep : N) (cur s : jsstring) :
  ~ In sep cur ->
  forall e, In e (split_on_go sep cur s) -> ~ In sep e.
Proof.
  revert cur. induction s as [|c s IH]; intros cur Hcur e; simpl.
  - intros [<- | []]. done.
  - destruct (N.eqb_spec c sep) as [-> | Hne].
    + intros [<- | He]; [done|]. by apply (IH [] ltac:(by intros [])).
    + apply IH. intros [H | [H | []]]%in_app_or; [by apply Hcur | done].
Qed.

Lemma lower_unit_comma (c : N) : (lower_unit c =? comma) = (c =? comma).
Proof.
  unfold lower_unit, comma.
  destruct (N.leb_spec 65 c); simpl; [|done].
  destruct (N.leb_spec c 90); simpl; [|done].
  destruct (N.eqb_spec (c + 32) 44), (N.eqb_spec c 44); lia || done.
Qed.

(** Lower-casing and cutting at commas can be done in either order. *)
Lemma split_on_go_lower (cur s : jsstring) :
  split_on_go comma (toLowerCase cur) (toLowerCase s)
  = map toLowerCase (split_on_go comma cur s).
Proof.
  revert cur. induction s as [|c s IH]; intros cur; simpl; [done|].
  rewrite lower_unit_comma. destruct (c =? comma); simpl.
  - f_equal. apply (IH []).
  - rewrite <- IH. unfold toLowerCase. by rewrite map_app.
Qed.



End IdentityListFacts.



(** C8: when the first usable row that accepts the requester has no audio
    JSON, the answer is the not-ready message, which is not the not-found
    message; and whenever some usable row accepts the requester the answer
    is not the not-found message, and a served answer carries the whole
    JSON of a row of the sheet. *)
Theorem not_ready_without_manifest (E : Services) (st : state)
  (email password : jsstring) (pre : list row) (r : row) (post : list row) :
  has_sheet E = true ->
  sheet st = pre ++ r :: post ->
  (forall r', In r' pre ->
     row_usable r' && credentials_match r' email password = false) ->
  row_usable r = true ->
  credentials_match r email password = true ->
  (AUDIO_JSON r = None ->
   getAssessmentPdf E st email password = not_ready)
  /\ not_ready <> not_found
  /\ getAssessmentPdf E st email password <> not_found
  /\ (forall d n m, getAssessmentPdf E st email password = Served d n m ->
        AUDIO_JSON r = Some m).
Proof.
  intros Hs Hsheet Hpre Hu Hm.
  assert (getAssessmentPdf E st email password = serve_row E r) as Hscan.
  { unfold getAssessmentPdf. rewrite Hs, Hsheet. simpl.
    by apply scan_rows_first. }
  repeat apply conj.
  - intros Hjson. rewrite Hscan. unfold serve_row. by rewrite Hjson.
  - vm_compute. discriminate.
  - rewrite Hscan. apply serve_row_found.
  - intros d n m. rewrite Hscan. unfold serve_row.
    repeat case_match; try discriminate. by intros [= _ _ ->].
Qed.

Lemma not_ready_without_manifest_witness :
  getAssessmentPdf (Demo.services Demo.silent Demo.fast_clock)
    (Demo.world [Demo.quiz_row_semicolon; Demo.quiz_row] [])
    (lit "A@x.com") (lit "pw1")
  = not_ready.
Proof.
  refine (proj1 (not_ready_without_manifest
                   (Demo.services Demo.silent Demo.fast_clock)
                   (Demo.world [Demo.quiz_row_semicolon; Demo.quiz_row] [])
                   (lit "A@x.com") (lit "pw1")
                   [Demo.quiz_row_semicolon] Demo.quiz_row []
                   _ _ _ _ _) _); try reflexivity.
  intros r' [<- | []]. vm_compute. reflexivity.
Defined.

(** C10: the identity cell is cut at commas only.  A cell that joins two or
    more addresses with semicolons is one entry, which holds a semicolon;
    a requester whose address is one of the joined addresses is not
    accepted by that row, whatever the secret, and when no other row accepts
    the requester the answer is the not-found message. *)
Theorem semicolon_list_never_matches (E : Services) (st : state)
  (email password : jsstring) (pre : list row) (r : row) (post : list row)
  (entries : list jsstring) :
  has_sheet E = true ->
  sheet st = pre ++ r :: post ->
  STUDENT_EMAILS r = join [semicolon] entries ->
  (2 <= length entries)%nat ->
  (forall e, In e entries -> ~ In comma e /\ ~ In semicolon e) ->
  In email entries ->
  (forall r', In r' (pre ++ post) ->
     row_usable r' && credentials_match r' email password = false) ->
  split_on comma (toLowerCase (STUDENT_EMAILS r))
  = [toLowerCase (STUDENT_EMAILS r)]
  /\ (forall secret, credentials_match r email secret = false)
  /\ getAssessmentPdf E st email password = not_found.
Proof.
  intros Hs Hsheet Hcell Hlen Hentries Hemail Hothers.
  assert (split_on comma (toLowerCase (STUDENT_EMAILS r))
          = [toLowerCase (STUDENT_EMAILS r)]) as Hone.
  { unfold split_on. rewrite split_on_go_whole; [done|].
    intros Hin. apply (proj1 (In_lower comma _ eq_refl)) in Hin.
    revert Hin. rewrite Hcell.
    intros [[E1 | []] | (e & He & Hc)]%In_join; [done|].
    by apply (proj1 (Hentries e He)). }
  assert (forall secret, credentials_match r email secret = false) as Hno.
  { intros secret. unfold credentials_match. rewrite Hone. simpl.
    apply andb_false_iff. left. rewrite orb_false_r. apply str_eqb_neq.
    intros Heq.
    assert (In semicolon (trim (toLowerCase email))) as Hin.
    { rewrite Heq. apply trim_keeps; [reflexivity|].
      apply (proj2 (In_lower semicolon (STUDENT_EMAILS r) eq_refl)).
      rewrite Hcell. by apply join_has_sep. }
    apply In_trim in Hin.
    apply (proj1 (In_lower semicolon email eq_refl)) in Hin.
    by apply (proj2 (Hentries email Hemail)). }
  repeat apply conj; [exact Hone | exact Hno |].
  unfold getAssessmentPdf. rewrite Hs, Hsheet. simpl.
  apply scan_rows_none. intros r' [Hr' | [<- | Hr']]%in_app_or.
  - apply Hothers, in_or_app. by left.
  - rewrite Hno. apply andb_false_r.
  - apply Hothers, in_or_app. by right.
Qed.

Lemma semicolon_list_never_matches_witness :
  getAssessmentPdf (Demo.services Demo.silent Demo.fast_clock)
    (Demo.world [Demo.quiz_row_semicolon] [])
    (lit "a@x.com") (lit "pw1")
  = not_found.
Proof.
  refine (proj2 (proj2
            (semicolon_list_never_matches
               (Demo.services Demo.silent Demo.fast_clock)
               (Demo.world [Demo.quiz_row_semicolon] [])
               (lit "a@x.com") (lit "pw1") [] Demo.quiz_row_semicolon []
               [lit "a@x.com"; lit "b@x.com"] _ _ _ _ _ _ _)));
    try reflexivity.
  - intros e [<- | [<- | []]]; split; vm_compute;
      intuition discriminate.
  - by left.
  - intros r' [].
Defined.

(* ===================================================================== *)
(** * Further properties: file ids, chunks and names                      *)
(* ===================================================================== *)

Section MoreStringFacts.

Lemma starts_with_app (t s : jsstring) :
  starts_with t s = true -> s = t ++ drop (length t) s.
Proof.
  revert s. induction t as [|x t IH]; intros [|y s]; simpl; try done.
  intros [->%N.eqb_eq H]%andb_true_iff. f_equal. by apply IH.
Qed.

Lemma starts_with_prefix (t a b : jsstring) :
  (length t <= length a)%nat ->
  starts_with t (a ++ b) = starts_with t a.
Proof.
  revert a. induction t as [|x t IH]; intros [|y a]; simpl; try done; try lia.
  intros H. rewrite IH by lia. done.
Qed.

Lemma take_while_app (p : N -> bool) (l r : jsstring) :
  Forall (fun c => p c = true) l ->
  (forall c r', r = c :: r' -> p c = false) ->
  take_while p (l ++ r) = l.
Proof.
  intros Hl Hr. induction Hl as [|x l Hx _ IH]; simpl.
  - destruct r as [|c r']; simpl; [done|]. by rewrite (Hr c r' eq_refl).
  - by rewrite Hx, IH.
Qed.

Lemma trim_start_head (s : jsstring) (c : N) (r : jsstring) :
  trim_start s = c :: r -> is_space c = false.
Proof.
  induction s as [|x s IH]; simpl; [done|].
  destruct (is_space x) eqn:E; [done|]. by intros [= -> ->].
Qed.

Lemma trim_start_fixed (s : jsstring) :
  (forall c r, s = c :: r -> is_space c = false) -> trim_start s = s.
Proof.
  destruct s as [|c r]; simpl; [done|]. intros H.
  by rewrite (H c r eq_refl).
Qed.

Lemma trim_start_suffix (s : jsstring) :
  exists w, s = w ++ trim_start s /\ Forall (fun c => is_space c = true) w.
Proof.
  induction s as [|c s (w & Hw & Hs)]; simpl.
  - by exists [].
  - destruct (is_space c) eqn:E.
    + exists (c :: w). split; [simpl; by f_equal | by constructor].
    + by exists [].
Qed.

Lemma trim_trimmed (s : jsstring) : trimmed (trim s).
Proof.
  unfold trimmed, trim.
  set (t := trim_start s). set (u := trim_start (rev t)).
  split.
  - intros c r Hcr.
    destruct (trim_start_suffix (rev t)) as (w & Hw & _). fold u in Hw.
    assert (rev u ++ rev w = t) as Ht.
    { rewrite <- rev_app_distr, <- Hw. apply rev_involutive. }
    rewrite Hcr in Ht. simpl in Ht.
    apply (trim_start_head s c (r ++ rev w)). symmetry. exact Ht.
  - intros r c Hrc.
    apply (f_equal (@rev N)) in Hrc.
    rewrite rev_involutive, rev_app_distr in Hrc. simpl in Hrc.
    by apply (trim_start_head (rev t) c (rev r)).
Qed.

Lemma trim_fixed (s : jsstring) : trimmed s -> trim s = s.
Proof.
  intros [Hhead Hlast]. unfold trim.
  rewrite (trim_start_fixed s Hhead).
  rewrite trim_start_fixed; [apply rev_involutive|].
  intros c r Hcr. apply (Hlast (rev r) c).
  rewrite <- (rev_involutive s), Hcr. done.
Qed.

Lemma split_items_go_cons (cur s : jsstring) :
  exists p ps, split_items_go cur s = p :: ps.
Proof.
  revert cur. induction s as [|c s IH]; intros cur; simpl; [by eexists _, _|].
  destruct (_ && _); [by eexists _, _ | apply IH].
Qed.

Lemma join_split_items_go (cur s : jsstring) :
  join [newline] (split_items_go cur s) = cur ++ s.
Proof.
  revert cur. induction s as [|c s IH]; intros cur; simpl.
  - by rewrite app_nil_r.
  - destruct ((c =? newline) && item_ahead s) eqn:Eb.
    + apply andb_true_iff in Eb as [->%N.eqb_eq _].
      pose proof (IH []) as Hrest.
      destruct (split_items_go_cons [] s) as (p & ps & Eps).
      rewrite Eps in Hrest |- *. simpl in Hrest |- *.
      change (match ps with
              | [] => p
              | _ :: _ => p ++ newline :: join [newline] ps
              end) with (join [newline] (p :: ps)).
      change (match ps with
              | [] => p
              | _ :: _ => p ++ newline :: join [newline] ps
              end) with (join [newline] (p :: ps)) in Hrest.
      by rewrite Hrest.
    + rewrite IH, <- app_assoc. done.
Qed.

End MoreStringFacts.

(** X1: when [getFileIdFromUrl] gives an id, the id is not empty, it is
    made of the units [a-zA-Z0-9_-], it stands in the URL right after a
    "/d/", and the unit after it, if any, is not one of those units. *)
Theorem getFileIdFromUrl_sound (url id : jsstring) :
  getFileIdFromUrl url = Some id ->
  id <> []
  /\ Forall (fun c => id_unit c = true) id
  /\ exists pre rest,
       url = pre ++ lit "/d/" ++ id ++ rest
       /\ (forall c r, rest = c :: r -> id_unit c = false).
Proof.
  induction url as [|c url IH]; [done|].
  cbn [getFileIdFromUrl].
  destruct (starts_with (lit "/d/") (c :: url)) eqn:Es.
  - destruct (take_while id_unit (drop 3 (c :: url))) as [|x id'] eqn:Et.
    + intros H. destruct (IH H) as (Hne & Hid & pre & rest & -> & Hrest).
      repeat apply conj; [done | done |]. by exists (c :: pre), rest.
    + intros [= <-]. repeat apply conj.
      * done.
      * rewrite <- Et. apply take_while_Forall.
      * exists [], (drop_while id_unit (drop 3 (c :: url))). split.
        -- rewrite <- Et. rewrite (app_assoc _ _ (drop_while _ _)).
           rewrite app_nil_l, <- app_assoc, take_drop_while.
           by apply starts_with_app in Es.
        -- intros y r Hy. by apply drop_while_head in Hy.
  - intros H. destruct (IH H) as (Hne & Hid & pre & rest & -> & Hrest).
    repeat apply conj; [done | done |]. by exists (c :: pre), rest.
Qed.

Lemma getFileIdFromUrl_sound_witness :
  exists pre rest,
    lit "https://drive.google.com/file/d/1AbC_-x/view?usp=sharing"
    = pre ++ lit "/d/" ++ lit "1AbC_-x" ++ rest.
Proof.
  destruct (getFileIdFromUrl_sound
              (lit "https://drive.google.com/file/d/1AbC_-x/view?usp=sharing")
              (lit "1AbC_-x"))
    as (_ & _ & pre & rest & H & _).
  - vm_compute. reflexivity.
  - by exists pre, rest.
Defined.

(** X2: a URL that holds "/d/", then an id made of the units
    [a-zA-Z0-9_-], then nothing or another unit, gives back that id,
    provided no "/d/" occurs earlier in the URL. *)
Theorem getFileIdFromUrl_finds (pre id rest : jsstring) :
  occursb (lit "/d/") (pre ++ lit "/d") = false ->
  id <> [] ->
  Forall (fun c => id_unit c = true) id ->
  (forall c r, rest = c :: r -> id_unit c = false) ->
  getFileIdFromUrl (pre ++ lit "/d/" ++ id ++ rest) = Some id.
Proof.
  intros Hocc Hne Hid Hrest. induction pre as [|c pre IH].
  - change ([] ++ lit "/d/" ++ id ++ rest)
      with (47 :: 100 :: 47 :: id ++ rest).
    cbn [getFileIdFromUrl]. change (lit "/d/") with [47; 100; 47].
    cbn [starts_with]. rewrite !N.eqb_refl. cbn [andb].
    change (drop 3 (47 :: 100 :: 47 :: id ++ rest)) with (id ++ rest).
    rewrite (take_while_app id_unit id rest Hid Hrest).
    by destruct id.
  - change (occursb (lit "/d/") ((c :: pre) ++ lit "/d"))
      with (starts_with (lit "/d/") ((c :: pre) ++ lit "/d")
            || occursb (lit "/d/") (pre ++ lit "/d")) in Hocc.
    apply orb_false_iff in Hocc as [Hhere Hlater].
    change ((c :: pre) ++ lit "/d/" ++ id ++ rest)
      with (c :: (pre ++ lit "/d/" ++ id ++ rest)).
    cbn [getFileIdFromUrl].
    assert (starts_with (lit "/d/") (c :: pre ++ lit "/d/" ++ id ++ rest)
            = false) as ->.
    { replace (c :: pre ++ lit "/d/" ++ id ++ rest)
        with (((c :: pre) ++ lit "/d") ++ ([47] ++ id ++ rest))
        by (rewrite <- app_assoc; reflexivity).
      rewrite starts_with_prefix; [exact Hhere|].
      rewrite length_app. simpl. lia. }
    by apply IH.
Qed.

Lemma getFileIdFromUrl_finds_witness :
  getFileIdFromUrl (lit "https://drive.google.com/file/d/doc1/view")
  = Some (lit "doc1").
Proof.
  apply (getFileIdFromUrl_finds (lit "https://drive.google.com/file")
           (lit "doc1") (lit "/view")).
  - vm_compute. reflexivity.
  - discriminate.
  - repeat constructor.
  - intros c r [= <- _]. vm_compute. reflexivity.
Defined.

(** X3: the pieces that the chunker cuts, joined again with line feeds,
    are the text: the cut drops the line feeds at the boundaries and
    nothing else. *)
Theorem split_items_join (text : jsstring) :
  join [newline] (split_items text) = text.
Proof. unfold split_items. by rewrite join_split_items_go. Qed.

(** X4: every chunk that [extractTextFromPdf] returns is a non-empty
    string with no white space at either end, which [trim] leaves as it
    is. *)
Theorem extracted_chunks_trimmed (E : Services) (fileId : jsstring)
  (textChunks : list jsstring) :
  extractTextFromPdf E fileId = Some textChunks ->
  Forall (fun chunk => chunk <> [] /\ trimmed chunk /\ trim chunk = chunk)
         textChunks.
Proof.
  unfold extractTextFromPdf.
  destruct (getFileById E fileId) as [file|]; [|done].
  destruct (negb (file_is_pdf file)); [done|].
  destruct (ocr_text E file) as [text|]; [|done].
  intros [= <-]. unfold chunk_text.
  induction (split_items text) as [|p ps IH]; simpl; [constructor|].
  destruct (truthy_str (trim p)) eqn:Ep; [|exact IH].
  constructor; [|exact IH]. split; [|split].
  - by destruct (trim p).
  - apply trim_trimmed.
  - apply trim_fixed, trim_trimmed.
Qed.

Lemma extracted_chunks_trimmed_witness :
  Forall (fun chunk => chunk <> [] /\ trimmed chunk /\ trim chunk = chunk)
         (chunk_text Demo.quiz_text).
Proof.
  apply (extracted_chunks_trimmed
           (Demo.services Demo.silent Demo.fast_clock) (lit "doc1")).
  vm_compute. reflexivity.
Defined.

Section NameFacts.

Lemma digits_prefix_unique (a b : jsstring) (x y : N) (r r' : jsstring) :
  Forall (fun c => is_digit c = true) a ->
  Forall (fun c => is_digit c = true) b ->
  is_digit x = false -> is_digit y = false ->
  a ++ x :: r = b ++ y :: r' -> a = b.
Proof.
  intros Ha. revert b. induction Ha as [|c a Hc _ IH]; intros b Hb Hx Hy.
  - destruct Hb as [|d b Hd _]; [done|]. simpl. intros [= -> _]. congruence.
  - destruct Hb as [|d b Hd Hb]; simpl.
    + intros [= -> _]. congruence.
    + intros [= -> H]. f_equal. by apply IH.
Qed.

Lemma lit_inj (s s' : string) : lit s = lit s' -> s = s'.
Proof.
  assert (forall l, map ascii_of_N (map N_of_ascii l) = l) as Hback.
  { induction l as [|a l IH]; simpl; [done|].
    by rewrite ascii_N_embedding, IH. }
  unfold lit. intros H%(f_equal (map ascii_of_N)).
  rewrite !Hback in H.
  apply (f_equal string_of_list_ascii) in H.
  by rewrite !string_of_list_ascii_of_string in H.
Qed.

Lemma decimal_inj (n m : N) : decimal n = decimal m -> n = m.
Proof.
  unfold decimal. intros H%lit_inj.
  apply (f_equal NilEmpty.uint_of_string) in H.
  rewrite !NilEmpty.usu in H. injection H as H.
  by apply DecimalN.Unsigned.to_uint_inj.
Qed.

Lemma chunk_suffix_inj (s1 s2 : jsstring) (i j : N) :
  s1 ++ chunk_suffix i = s2 ++ chunk_suffix j -> i = j.
Proof.
  unfold chunk_suffix. intros H%(f_equal (@rev N)).
  rewrite !rev_app_distr, <- !app_assoc in H.
  apply app_inv_head in H.
  change (rev (lit "-chunk-")) with (hyphen :: lit "knuhc-") in H.
  apply digits_prefix_unique in H; try done.
  - apply (f_equal (@rev N)) in H. rewrite !rev_involutive in H.
    apply decimal_inj in H. lia.
  - apply Forall_rev, decimal_digits.
  - apply Forall_rev, decimal_digits.
Qed.

End NameFacts.

(** X5: two names that [substring] did not shorten are different when
    their ordinals are different, whatever the two texts: within a folder
    the names of the chunks of a document do not collide as long as they
    fit in 250 units. *)
Theorem names_differ_by_ordinal (text1 text2 : jsstring) (i j : N) :
  (length (sanitized text1) + length (chunk_suffix i) <= 250)%nat ->
  (length (sanitized text2) + length (chunk_suffix j) <= 250)%nat ->
  i <> j ->
  generateSafeFilenameFromText text1 i <> generateSafeFilenameFromText text2 j.
Proof.
  intros H1 H2 Hij Heq. apply Hij.
  unfold generateSafeFilenameFromText in Heq. cbv zeta in Heq.
  rewrite !take_ge in Heq by (rewrite length_app; lia).
  by apply chunk_suffix_inj in Heq.
Qed.

Lemma names_differ_by_ordinal_witness :
  generateSafeFilenameFromText (lit "Which of these is a fruit?") 0
  <> generateSafeFilenameFromText (lit "Which of these is a fruit?") 1.
Proof.
  apply names_differ_by_ordinal.
  - vm_compute. lia.
  - vm_compute. lia.
  - discriminate.
Defined.

Section ItemFacts.

Lemma split_items_go_first (cur s : jsstring) :
  exists ps, split_items_go cur s = (cur ++ first_piece s) :: ps.
Proof.
  revert cur. induction s as [|c s IH]; intros cur; simpl.
  - exists []. by rewrite app_nil_r.
  - destruct (_ && _).
    + eexists. by rewrite app_nil_r.
    + destruct (IH (cur ++ [c])) as (ps & ->). exists ps.
      by rewrite <- app_assoc.
Qed.

Lemma first_piece_spaces (ws s : jsstring) :
  Forall (fun c => is_space c = true) ws ->
  first_piece (ws ++ s) = ws ++ first_piece s
  \/ Forall (fun c => is_space c = true) (first_piece (ws ++ s)).
Proof.
  induction 1 as [|c ws Hc _ IH]; simpl; [by left|].
  destruct (_ && _); [right; constructor|].
  destruct IH as [-> | IH]; [by left | right; by constructor].
Qed.

Lemma first_piece_no_newline (l s : jsstring) :
  Forall (fun c => (c =? newline) = false) l ->
  first_piece (l ++ s) = l ++ first_piece s.
Proof.
  induction 1 as [|c l Hc _ IH]; simpl; [done|]. by rewrite Hc, IH.
Qed.

Lemma digit_not_newline (c : N) : is_digit c = true -> (c =? newline) = false.
Proof.
  unfold is_digit, newline. intros [?%N.leb_le ?%N.leb_le]%andb_true_iff.
  apply N.eqb_neq. lia.
Qed.

Lemma trim_start_nonspace (l : jsstring) (x : N) (r : jsstring) :
  is_space x = false -> trim_start (l ++ x :: r) = trim_start l ++ x :: r.
Proof.
  intros Hx. induction l as [|c l IH]; simpl.
  - by rewrite Hx.
  - by destruct (is_space c).
Qed.

Lemma trim_all_spaces (ws : jsstring) :
  Forall (fun c => is_space c = true) ws -> trim ws = [].
Proof. intros H. unfold trim. by rewrite (trim_start_all_spaces ws H). Qed.

(** A piece that starts where the lookahead succeeded is white space only,
    or begins, once trimmed, with the digits and the period. *)
Lemma first_piece_item (s : jsstring) :
  item_ahead s = true ->
  trim (first_piece s) = [] \/ begins_item (trim (first_piece s)).
Proof.
  intros (ws & ds & w & rest & -> & Hws & Hne & Hds & Hw)%item_ahead_start.
  destruct (first_piece_spaces ws (ds ++ dot :: w :: rest) Hws) as [-> | Hall];
    [|left; by apply trim_all_spaces].
  right. rewrite first_piece_no_newline
    by (eapply Forall_impl; [exact Hds | apply digit_not_newline]).
  change (first_piece (dot :: w :: rest)) with (dot :: first_piece (w :: rest)).
  set (more := first_piece (w :: rest)).
  destruct ds as [|d ds]; [done|]. inversion Hds as [|? ? Hd Hds']; subst.
  unfold trim. rewrite trim_start_spaces by done.
  cbn [app trim_start]. rewrite (digit_not_space d Hd).
  replace (rev (d :: ds ++ dot :: more))
    with (rev more ++ dot :: rev (d :: ds))
    by (change (d :: ds ++ dot :: more) with ((d :: ds) ++ dot :: more);
        rewrite rev_app_distr; simpl; by rewrite <- !app_assoc).
  rewrite trim_start_nonspace by done.
  rewrite rev_app_distr. cbn [rev]. rewrite rev_app_distr, rev_involutive.
  cbn [rev app]. rewrite <- !app_assoc. cbn [app].
  exists (d :: ds), (rev (trim_start (rev more))).
  repeat apply conj; [done | done | by constructor].
Qed.

Lemma split_items_go_items (cur s : jsstring) :
  exists p ps,
    split_items_go cur s = p :: ps
    /\ Forall (fun q => trim q = [] \/ begins_item (trim q)) ps.
Proof.
  revert cur. induction s as [|c s IH]; intros cur; simpl.
  - by exists cur, [].
  - destruct ((c =? newline) && item_ahead s) eqn:Eb; [|apply IH].
    apply andb_true_iff in Eb as [_ Hitem].
    destruct (IH []) as (p & ps & Eps & Hps).
    destruct (split_items_go_first [] s) as (ps' & Efirst).
    rewrite Eps in Efirst. injection Efirst as -> ->.
    exists cur, (first_piece s :: ps'). split; [by rewrite Eps|].
    constructor; [by apply first_piece_item | done].
Qed.

End ItemFacts.

(** X6: at most one chunk, the first, can fail to begin with an item
    number: every chunk cut after a boundary begins with digits and a
    period. *)
Theorem chunks_after_first_are_items (text : jsstring) :
  exists head items,
    chunk_text text = head ++ items
    /\ (length head <= 1)%nat
    /\ Forall begins_item items.
Proof.
  unfold chunk_text, split_items.
  destruct (split_items_go_items [] text) as (p & ps & -> & Hps).
  exists (List.filter truthy_str [trim p]),
         (List.filter truthy_str (map trim ps)).
  repeat apply conj.
  - simpl. by destruct (truthy_str (trim p)).
  - simpl. destruct (truthy_str (trim p)); simpl; lia.
  - induction Hps as [|q ps Hq _ IH]; simpl; [constructor|].
    destruct (truthy_str (trim q)) eqn:Et; [|exact IH].
    constructor; [|exact IH]. destruct Hq as [Hq | Hq]; [|done].
    by rewrite Hq in Et.
Qed.

(* ===================================================================== *)
(** * Further properties: the DataView and the header                     *)
(* ===================================================================== *)

Module ViewFacts.
Import Wav.
Local Open Scope Z_scope.

Lemma byte_at_0 (v : Z) : byte_at v 0 = v mod 256.
Proof. unfold byte_at. change (256 ^ Z.of_nat 0) with 1. by rewrite Z.div_1_r. Qed.

(** Four little-endian bytes hold the value modulo 2^32. *)
Lemma le32_mod (v : Z) :
  byte_at v 0 + 256 * byte_at v 1 + 65536 * byte_at v 2
  + 16777216 * byte_at v 3 = v mod 2 ^ 32.
Proof.
  unfold byte_at.
  change (256 ^ Z.of_nat 0) with 1. change (256 ^ Z.of_nat 1) with 256.
  change (256 ^ Z.of_nat 2) with (256 * 256).
  change (256 ^ Z.of_nat 3) with (256 * 256 * 256).
  rewrite Z.div_1_r. rewrite <- !Z.div_div by lia.
  set (q1 := v / 256). set (q2 := q1 / 256). set (q3 := q2 / 256).
  pose proof (Z.div_mod v 256 ltac:(lia)) as E0.
  pose proof (Z.div_mod q1 256 ltac:(lia)) as E1.
  pose proof (Z.div_mod q2 256 ltac:(lia)) as E2.
  pose proof (Z.div_mod q3 256 ltac:(lia)) as E3.
  fold q1 in E0. fold q2 in E1. fold q3 in E2.
  pose proof (Z.mod_pos_bound v 256 ltac:(lia)).
  pose proof (Z.mod_pos_bound q1 256 ltac:(lia)).
  pose proof (Z.mod_pos_bound q2 256 ltac:(lia)).
  pose proof (Z.mod_pos_bound q3 256 ltac:(lia)).
  apply (Z.mod_unique _ _ (q3 / 256)); [left; lia | lia].
Qed.

Lemma le16_mod (v : Z) :
  byte_at v 0 + 256 * byte_at v 1 = v mod 2 ^ 16.
Proof.
  unfold byte_at.
  change (256 ^ Z.of_nat 0) with 1. change (256 ^ Z.of_nat 1) with 256.
  rewrite Z.div_1_r.
  set (q1 := v / 256).
  pose proof (Z.div_mod v 256 ltac:(lia)) as E0.
  pose proof (Z.div_mod q1 256 ltac:(lia)) as E1.
  fold q1 in E0.
  pose proof (Z.mod_pos_bound v 256 ltac:(lia)).
  pose proof (Z.mod_pos_bound q1 256 ltac:(lia)).
  apply (Z.mod_unique _ _ (q1 / 256)); [left; lia | lia].
Qed.

Lemma byte_of_insert_eq (view : list Z) (k : nat) (b : Z) :
  (k < length view)%nat -> byte_of (<[k := b]> view) k = b.
Proof. intros H. unfold byte_of. by rewrite list_lookup_insert_eq. Qed.

Lemma byte_of_insert_ne (view : list Z) (k j : nat) (b : Z) :
  k <> j -> byte_of (<[k := b]> view) j = byte_of view j.
Proof. intros H. unfold byte_of. by rewrite list_lookup_insert_ne. Qed.

Lemma writeString_length (view : list Z) (offset : nat) (s : jsstring) :
  length (writeString view offset s) = length view.
Proof.
  revert view offset. induction s as [|c s IH]; intros view offset; simpl;
    [done|].
  rewrite IH. unfold setUint8. apply length_insert.
Qed.

Lemma writeString_frame (view : list Z) (offset : nat) (s : jsstring)
  (k : nat) :
  (k < offset \/ offset + length s <= k)%nat ->
  writeString view offset s !! k = view !! k.
Proof.
  revert view offset. induction s as [|c s IH]; intros view offset Hk; simpl;
    [done|].
  rewrite IH by (simpl in Hk; lia). unfold setUint8.
  apply list_lookup_insert_ne. simpl in Hk. lia.
Qed.

End ViewFacts.

(** [setUint32] followed by a read of the same field gives the value
    modulo 2^32 (little endian), for a field inside the buffer; the buffer
    keeps its length and every byte outside the field. *)
Theorem setUint32_getUint32 (view : list Z) (offset : nat) (v : Z) :
  (offset + 4 <= length view)%nat ->
  Wav.getUint32 (Wav.setUint32 view offset v) offset = (v mod 2 ^ 32)%Z
  /\ length (Wav.setUint32 view offset v) = length view
  /\ (forall k, (k < offset \/ offset + 4 <= k)%nat ->
        Wav.setUint32 view offset v !! k = view !! k).
Proof.
  intros Hin. unfold Wav.getUint32, Wav.setUint32. repeat apply conj.
  - rewrite <- ViewFacts.le32_mod.
    rewrite (ViewFacts.byte_of_insert_eq _ (3 + offset))
      by (rewrite !length_insert; lia).
    rewrite (ViewFacts.byte_of_insert_ne _ (3 + offset) (2 + offset)) by lia.
    rewrite (ViewFacts.byte_of_insert_eq _ (2 + offset))
      by (rewrite !length_insert; lia).
    rewrite (ViewFacts.byte_of_insert_ne _ (3 + offset) (1 + offset)) by lia.
    rewrite (ViewFacts.byte_of_insert_ne _ (2 + offset) (1 + offset)) by lia.
    rewrite (ViewFacts.byte_of_insert_eq _ (1 + offset))
      by (rewrite !length_insert; lia).
    rewrite (ViewFacts.byte_of_insert_ne _ (3 + offset) offset) by lia.
    rewrite (ViewFacts.byte_of_insert_ne _ (2 + offset) offset) by lia.
    rewrite (ViewFacts.byte_of_insert_ne _ (1 + offset) offset) by lia.
    rewrite (ViewFacts.byte_of_insert_eq _ offset) by lia.
    reflexivity.
  - by rewrite !length_insert.
  - intros k Hk. by rewrite !list_lookup_insert_ne by lia.
Qed.

Lemma setUint32_getUint32_witness :
  Wav.getUint32 (Wav.setUint32 (repeat 0%Z 44) 40 (2 ^ 32 + 6)) 40 = 6%Z.
Proof.
  destruct (setUint32_getUint32 (repeat 0%Z 44) 40 (2 ^ 32 + 6)) as (H & _).
  - simpl. lia.
  - rewrite H. reflexivity.
Defined.

(** [setUint16] followed by a read of the same field gives the value
    modulo 2^16, for a field inside the buffer; the buffer keeps its length
    and every byte outside the field. *)
Theorem setUint16_getUint16 (view : list Z) (offset : nat) (v : Z) :
  (offset + 2 <= length view)%nat ->
  Wav.getUint16 (Wav.setUint16 view offset v) offset = (v mod 2 ^ 16)%Z
  /\ length (Wav.setUint16 view offset v) = length view
  /\ (forall k, (k < offset \/ offset + 2 <= k)%nat ->
        Wav.setUint16 view offset v !! k = view !! k).
Proof.
  intros Hin. unfold Wav.getUint16, Wav.setUint16. repeat apply conj.
  - rewrite <- ViewFacts.le16_mod.
    rewrite (ViewFacts.byte_of_insert_eq _ (S offset))
      by (rewrite !length_insert; lia).
    rewrite (ViewFacts.byte_of_insert_ne _ (S offset) offset) by lia.
    rewrite (ViewFacts.byte_of_insert_eq _ offset) by lia.
    reflexivity.
  - by rewrite !length_insert.
  - intros k Hk. by rewrite !list_lookup_insert_ne by lia.
Qed.

Lemma setUint16_getUint16_witness :
  Wav.getUint16 (Wav.setUint16 (repeat 0%Z 44) 34 16) 34 = 16%Z.
Proof.
  destruct (setUint16_getUint16 (repeat 0%Z 44) 34 16) as (H & _).
  - simpl. lia.
  - rewrite H. reflexivity.
Defined.

(** X7: [writeString] puts the low byte of each code unit of the string at
    the offset and the places after it, when the string fits in the buffer;
    the buffer keeps its length and every byte outside those places. *)
Theorem writeString_bytes (view : list Z) (offset : nat) (s : jsstring) :
  (offset + length s <= length view)%nat ->
  (forall k c, s !! k = Some c ->
     Wav.writeString view offset s !! (offset + k)%nat
     = Some (Z.of_N c mod 256)%Z)
  /\ length (Wav.writeString view offset s) = length view
  /\ (forall k, (k < offset \/ offset + length s <= k)%nat ->
        Wav.writeString view offset s !! k = view !! k).
Proof.
  intros Hin. repeat apply conj.
  - revert view offset Hin. induction s as [|x s IH];
      intros view offset Hin k c Hk; [done|].
    simpl in Hin. destruct k as [|k]; simpl in Hk |- *.
    + injection Hk as ->. rewrite Nat.add_0_r.
      rewrite ViewFacts.writeString_frame by lia.
      unfold Wav.setUint8. rewrite list_lookup_insert_eq by lia.
      by rewrite ViewFacts.byte_at_0.
    + replace (offset + S k)%nat with (S offset + k)%nat by lia.
      apply IH; [|done]. unfold Wav.setUint8. rewrite length_insert. lia.
  - apply ViewFacts.writeString_length.
  - intros k Hk. by apply ViewFacts.writeString_frame.
Qed.

Lemma writeString_bytes_witness :
  Wav.writeString (repeat 0%Z 8) 2 (lit "RIFF")
  !! 3%nat = Some 73%Z.
Proof.
  destruct (writeString_bytes (repeat 0%Z 8) 2 (lit "RIFF")) as (H & _).
  - simpl. lia.
  - apply (H 1%nat 73). reflexivity.
Defined.

(** X8: whatever the data size, the header has 44 entries, each of them a
    byte, and its two size fields hold 36 + size and size modulo 2^32. *)
Theorem wav_header_wraps (dataSize : Z) :
  length (Wav.wav_header dataSize) = 44%nat
  /\ Forall is_byte (Wav.wav_header dataSize)
  /\ Wav.getUint32 (Wav.wav_header dataSize) 4 = ((36 + dataSize) mod 2 ^ 32)%Z
  /\ Wav.getUint32 (Wav.wav_header dataSize) 40 = (dataSize mod 2 ^ 32)%Z.
Proof.
  rewrite WavFacts.wav_header_bytes. repeat apply conj.
  - reflexivity.
  - repeat (constructor;
            [first [apply WavFacts.byte_at_range | unfold is_byte; lia]|]).
    constructor.
  - apply ViewFacts.le32_mod.
  - apply ViewFacts.le32_mod.
Qed.

(* ===================================================================== *)
(** * Further properties: folders, files and the chunk loop               *)
(* ===================================================================== *)

Section FolderFacts.

Context (E : Services).

Lemma find_folder_lookup (name : jsstring)
  (fs : list (jsstring * list driveFile)) (k : nat) :
  find_folder name fs = Some k ->
  exists files, fs !! k = Some (name, files).
Proof.
  revert k. induction fs as [|[n files] fs IH]; intros k; simpl; [done|].
  destruct (str_eqb n name) eqn:En.
  - intros [= <-]. apply str_eqb_eq in En. subst. by exists files.
  - destruct (find_folder name fs) as [k'|]; [|done].
    intros [= <-]. by apply IH.
Qed.

Lemma find_folder_new (name : jsstring)
  (fs : list (jsstring * list driveFile)) (files : list driveFile) :
  find_folder name fs = None ->
  find_folder name (fs ++ [(name, files)]) = Some (length fs).
Proof.
  induction fs as [|[n fls] fs IH]; simpl.
  - by rewrite str_eqb_refl.
  - destruct (str_eqb n name); [done|].
    destruct (find_folder name fs); [done|]. intros _. by rewrite IH.
Qed.

Lemma find_folder_old (name : jsstring)
  (fs more : list (jsstring * list driveFile)) (k : nat) :
  find_folder name fs = Some k -> find_folder name (fs ++ more) = Some k.
Proof.
  revert k. induction fs as [|[n fls] fs IH]; intros k; simpl; [done|].
  destruct (str_eqb n name); [done|].
  destruct (find_folder name fs) as [k'|]; [|done].
  intros [= <-]. by rewrite (IH k').
Qed.

Lemma getFilesByName_app (a b : list driveFile) (name : jsstring) :
  getFilesByName (a ++ b) name = getFilesByName a name ++ getFilesByName b name.
Proof. unfold getFilesByName. apply List.filter_app. Qed.

Lemma named_more (files extra : list driveFile) (name : jsstring) :
  named files name = true -> named (files ++ extra) name = true.
Proof.
  unfold named. rewrite getFilesByName_app.
  by destruct (getFilesByName files name).
Qed.

Lemma artifact_exists_more files extra baseName fileName chunkText j :
  artifact_exists files baseName fileName chunkText j = true ->
  artifact_exists (files ++ extra) baseName fileName chunkText j = true.
Proof.
  unfold artifact_exists. rewrite !orb_true_iff.
  intros [[H | H] | H]; [left; left | left; right | right];
    by apply named_more.
Qed.

Lemma artifacts_exist_more files extra baseName fileName j textChunks :
  artifacts_exist files baseName fileName j textChunks = true ->
  artifacts_exist (files ++ extra) baseName fileName j textChunks = true.
Proof.
  revert j. induction textChunks as [|c rest IH]; intros j; simpl; [done|].
  rewrite !andb_true_iff. intros [H1 H2].
  split; [by apply artifact_exists_more | by apply IH].
Qed.

(** What a successful request adds to the Drive. *)
Lemma generate_adds text fileName folder st st' f :
  (folder < length (folders st))%nat ->
  generateAudioFromTextChunk E text fileName folder st = (st', Some f) ->
  folder_files st' folder = folder_files st folder ++ [f]
  /\ (forall d, d <> folder -> folder_files st' d = folder_files st d)
  /\ length (folders st') = length (folders st)
  /\ created st' = S (created st).
Proof.
  intros Hlt. unfold generateAudioFromTextChunk.
  destruct (gemini_audio E _) as [pcm|]; [|done].
  intros [= <- <-]. unfold folder_files. simpl. repeat apply conj.
  - rewrite list_lookup_alter_eq.
    destruct (lookup_lt_is_Some_2 (folders st) folder Hlt) as [[n fs] ->].
    done.
  - intros d Hd. by rewrite list_lookup_alter_ne.
  - apply length_alter.
  - done.
Qed.

(** The files of a folder after [resolve_chunk]: those before, and at most
    the one created. *)
Lemma resolve_chunk_files baseName fileName folder chunkText j st d :
  let st' := (resolve_chunk E baseName fileName folder chunkText j st).1 in
  length (folders st') = length (folders st)
  /\ exists extra, folder_files st' d = folder_files st d ++ extra.
Proof.
  cbv zeta. rewrite resolve_chunk_cases. cbv zeta.
  repeat case_match; simpl;
    try (split; [done | exists []; by rewrite app_nil_r]).
  unfold generateAudioFromTextChunk.
  destruct (gemini_audio E _) as [pcm|]; simpl;
    [|split; [done | exists []; by rewrite app_nil_r]].
  split; [apply length_alter|]. unfold folder_files. simpl.
  destruct (decide (folder = d)) as [->|Hne].
  - rewrite list_lookup_alter_eq.
    destruct (folders st !! d) as [[n fs]|]; simpl;
      [by eexists | by exists []].
  - rewrite list_lookup_alter_ne by done. exists []. by rewrite app_nil_r.
Qed.

Lemma chunk_loop_files baseName fileName folder j textChunks acc st d :
  let st' := (chunk_loop E baseName fileName folder j textChunks acc st).1 in
  length (folders st') = length (folders st)
  /\ exists extra, folder_files st' d = folder_files st d ++ extra.
Proof.
  cbv zeta. revert j acc st.
  induction textChunks as [|c rest IH]; intros j acc st; simpl.
  - split; [done | exists []; by rewrite app_nil_r].
  - pose proof (resolve_chunk_files baseName fileName folder c j st d)
      as (Hlen & extra & Hfiles).
    destruct (resolve_chunk E baseName fileName folder c j st)
      as [st1 [f|]]; simpl in *; [|split; [done | by exists extra]].
    destruct (IH (j + 1) (acc ++ [f]) st1) as (Hlen' & extra' & Hfiles').
    split; [congruence|]. exists (extra ++ extra').
    by rewrite Hfiles', Hfiles, <- app_assoc.
Qed.

(** A chunk that [resolve_chunk] gave a file for has a file under one of
    its names afterwards. *)
Lemma resolve_some_exists baseName fileName folder chunkText j st st' f :
  (folder < length (folders st))%nat ->
  resolve_chunk E baseName fileName folder chunkText j st = (st', Some f) ->
  artifact_exists (folder_files st' folder) baseName fileName chunkText j
  = true.
Proof.
  intros Hlt.
  destruct (artifact_exists (folder_files st folder) baseName fileName
              chunkText j) eqn:Ex.
  - destruct (resolve_existing E baseName fileName folder chunkText j st Ex)
      as (f' & -> & _). by intros [= <- _].
  - rewrite (resolve_missing E baseName fileName folder chunkText j st Ex).
    intros Hgen.
    pose proof (generate_file E chunkText
                  (generateSafeFilenameFromText chunkText j) folder st f) as Hf.
    rewrite Hgen in Hf. destruct (Hf eq_refl) as (Hname & _ & _).
    destruct (generate_adds _ _ _ _ _ _ Hlt Hgen) as (Hfiles & _).
    unfold artifact_exists, named. rewrite Hfiles, getFilesByName_app.
    assert (getFilesByName [f] (generateSafeFilenameFromText chunkText j)
            = [f]) as ->.
    { unfold getFilesByName. simpl. by rewrite Hname, str_eqb_refl. }
    by destruct (getFilesByName (folder_files st folder) _).
Qed.

(** The loop over two lists of chunks, one after the other. *)
Lemma chunk_loop_app baseName fileName folder j l1 l2 acc st :
  chunk_loop E baseName fileName folder j (l1 ++ l2) acc st =
  match chunk_loop E baseName fileName folder j l1 acc st with
  | (st1, Some files) =>
      chunk_loop E baseName fileName folder (j + N.of_nat (length l1)) l2
                 files st1
  | (st1, None) => (st1, None)
  end.
Proof.
  revert j acc st. induction l1 as [|c l1 IH]; intros j acc st.
  - simpl. by rewrite N.add_0_r.
  - cbn [app chunk_loop length].
    destruct (resolve_chunk E baseName fileName folder c j st)
      as [st1 [f|]]; [|done].
    rewrite IH. replace (j + 1 + N.of_nat (length l1))
      with (j + N.of_nat (S (length l1))) by lia. done.
Qed.

(** After the loop has gone through a list of chunks, each of them has a
    file. *)
Lemma chunk_loop_exist baseName fileName folder j textChunks acc st st' fs :
  (folder < length (folders st))%nat ->
  chunk_loop E baseName fileName folder j textChunks acc st = (st', Some fs) ->
  artifacts_exist (folder_files st' folder) baseName fileName j textChunks
  = true.
Proof.
  revert j acc st. induction textChunks as [|c rest IH]; intros j acc st Hlt;
    simpl; [done|].
  destruct (resolve_chunk E baseName fileName folder c j st)
    as [st1 [f|]] eqn:Er; [|done].
  intros Hloop.
  pose proof (resolve_chunk_files baseName fileName folder c j st folder)
    as (Hlen & _). rewrite Er in Hlen. simpl in Hlen.
  pose proof (chunk_loop_files baseName fileName folder (j + 1) rest
                (acc ++ [f]) st1 folder) as (_ & extra & Hfiles).
  rewrite Hloop in Hfiles. simpl in Hfiles.
  apply andb_true_iff. split.
  - rewrite Hfiles. apply artifact_exists_more.
    by apply (resolve_some_exists _ _ _ _ _ st st1 f).
  - apply (IH (j + 1) (acc ++ [f]) st1); [lia | done].
Qed.

End FolderFacts.

(** The loop when every chunk has a file: no request, no change. *)
Lemma chunk_loop_found (E : Services) baseName fileName folder j textChunks
  acc st :
  artifacts_exist (folder_files st folder) baseName fileName j textChunks
  = true ->
  exists fs, chunk_loop E baseName fileName folder j textChunks acc st
             = (st, Some fs).
Proof.
  revert j acc. induction textChunks as [|c rest IH]; intros j acc; simpl.
  - by eexists.
  - intros [H1 H2]%andb_true_iff.
    destruct (resolve_existing E baseName fileName folder c j st H1)
      as (f & -> & _).
    by apply IH.
Qed.

(** X9: one call of [generateAudioFromTextChunk] sends one request and
    leaves the sheet alone.  When the service gives no audio, no file is
    created and no folder changes.  When it gives audio, one file is added
    to the folder, under the given name, holding the WAV container of that
    audio, and the other folders keep their files. *)
Theorem generateAudio_effect (E : Services) (text fileName : jsstring)
  (folder : nat) (st : state) :
  (folder < length (folders st))%nat ->
  let result := generateAudioFromTextChunk E text fileName folder st in
  sheet result.1 = sheet st
  /\ requests result.1 = prompt text :: requests st
  /\ match result.2 with
     | None =>
         gemini_audio E (prompt text) = None
         /\ folders result.1 = folders st
         /\ created result.1 = created st
     | Some f =>
         exists pcm,
           gemini_audio E (prompt text) = Some pcm
           /\ file_name f = fileName
           /\ file_bytes f = Wav.createWavBlob pcm
           /\ folder_files result.1 folder = folder_files st folder ++ [f]
           /\ (forall d, d <> folder ->
                 folder_files result.1 d = folder_files st d)
           /\ created result.1 = S (created st)
     end.
Proof.
  intros Hlt result. subst result. repeat apply conj.
  - apply generate_sheet.
  - apply generate_request.
  - destruct (generateAudioFromTextChunk E text fileName folder st)
      as [st' [f|]] eqn:Eg; simpl.
    + destruct (generate_adds E _ _ _ _ _ _ Hlt Eg) as (Hf & Hd & _ & Hc).
      pose proof (generate_file E text fileName folder st f) as Hfile.
      rewrite Eg in Hfile.
      destruct (Hfile eq_refl) as (Hname & (pcm & Hpcm & Hbytes) & _).
      exists pcm. by repeat apply conj.
    + unfold generateAudioFromTextChunk in Eg.
      destruct (gemini_audio E (prompt text)); [done|].
      injection Eg as <-. by repeat apply conj.
Qed.

Lemma generateAudio_effect_witness :
  let result :=
    generateAudioFromTextChunk (Demo.services Demo.speaking Demo.fast_clock)
      (lit "3. Cherry") (lit "3-Cherry-chunk-3.wav") 0
      (Demo.world [] Demo.two_of_three) in
  length (folder_files result.1 0) = 3%nat.
Proof.
  cbv zeta.
  pose proof (generateAudio_effect
                (Demo.services Demo.speaking Demo.fast_clock)
                (lit "3. Cherry") (lit "3-Cherry-chunk-3.wav") 0
                (Demo.world [] Demo.two_of_three)) as H.
  destruct H as (_ & _ & H); [simpl; lia|].
  destruct (generateAudioFromTextChunk _ _ _ _ _) as [st' [f|]] eqn:Eg;
    simpl in *.
  - destruct H as (pcm & _ & _ & _ & Hfiles & _). by rewrite Hfiles.
  - destruct H as (H & _). vm_compute in H. discriminate.
Defined.

(** X10: [getOrCreateSubfolder] gives a folder of the asked name, leaves
    every folder that was there as it was, never touches the sheet, and
    asked again for the same name gives the same folder and changes
    nothing; when it gives [null] nothing has changed. *)
Theorem getOrCreateSubfolder_effect (E : Services) (name : jsstring)
  (st : state) :
  let result := getOrCreateSubfolder E name st in
  sheet result.1 = sheet st
  /\ (forall d nf, folders st !! d = Some nf -> folders result.1 !! d = Some nf)
  /\ match result.2 with
     | Some k =>
         (exists files, folders result.1 !! k = Some (name, files))
         /\ getOrCreateSubfolder E name result.1 = result
     | None => result.1 = st
     end.
Proof.
  cbv zeta. unfold getOrCreateSubfolder.
  destruct (subfolder_fails E name) eqn:Ef; simpl; [done|].
  destruct (find_folder name (folders st)) as [k|] eqn:Ek; simpl.
  - rewrite Ek. repeat apply conj; try done.
    by apply find_folder_lookup.
  - repeat apply conj; try done.
    + intros d nf Hd. by apply lookup_app_l_Some.
    + exists []. by rewrite list_lookup_middle.
    + by rewrite (find_folder_new name (folders st) [] Ek).
Qed.

(** X11: a chunk that [resolve_chunk] gave a file for is given the same
    file when resolved again in the resulting state, with no request and no
    change, whatever the speech service then answers. *)
Theorem resolve_chunk_twice (E E' : Services) (baseName fileName : jsstring)
  (folder : nat) (chunkText : jsstring) (j : N) (st st' : state)
  (f : driveFile) :
  (folder < length (folders st))%nat ->
  resolve_chunk E baseName fileName folder chunkText j st = (st', Some f) ->
  resolve_chunk E' baseName fileName folder chunkText j st' = (st', Some f).
Proof.
  intros Hlt Hfirst.
  destruct (artifact_exists (folder_files st folder) baseName fileName
              chunkText j) eqn:Ex.
  - destruct (resolve_existing E baseName fileName folder chunkText j st Ex)
      as (f1 & H1 & _).
    rewrite H1 in Hfirst. injection Hfirst as <- <-.
    rewrite resolve_chunk_cases in H1 |- *. cbv zeta in H1 |- *.
    repeat case_match; try done.
    unfold artifact_exists, named in Ex.
    repeat match goal with
           | H : getFilesByName _ _ = [] |- _ => rewrite H in Ex
           end.
    done.
  - rewrite (resolve_missing E _ _ _ _ _ _ Ex) in Hfirst.
    destruct (generate_adds E _ _ _ _ _ _ Hlt Hfirst) as (Hfiles & _).
    pose proof (generate_file E chunkText
                  (generateSafeFilenameFromText chunkText j) folder st f)
      as Hf.
    rewrite Hfirst in Hf. destruct (Hf eq_refl) as (Hname & _).
    rewrite resolve_chunk_cases. cbv zeta.
    rewrite Hfiles, getFilesByName_app.
    unfold artifact_exists, named in Ex.
    destruct (getFilesByName (folder_files st folder)
                (generateSafeFilenameFromText chunkText j)); [|done].
    unfold getFilesByName. simpl. by rewrite Hname, str_eqb_refl.
Qed.

Lemma resolve_chunk_twice_witness :
  let E := Demo.services Demo.speaking Demo.fast_clock in
  let E' := Demo.services Demo.silent Demo.fast_clock in
  let first := resolve_chunk E (lit "Quiz") (lit "Quiz.pdf") 0
                 (lit "3. Cherry") 2 (Demo.world [] Demo.two_of_three) in
  resolve_chunk E' (lit "Quiz") (lit "Quiz.pdf") 0 (lit "3. Cherry") 2
    first.1 = first.
Proof.
  cbv zeta.
  destruct (resolve_chunk (Demo.services Demo.speaking Demo.fast_clock)
              (lit "Quiz") (lit "Quiz.pdf") 0 (lit "3. Cherry") 2
              (Demo.world [] Demo.two_of_three)) as [st' [f|]] eqn:Er.
  - simpl. eapply resolve_chunk_twice; [|exact Er]. simpl. lia.
  - vm_compute in Er. discriminate.
Defined.

(** X12: once the chunk loop has gone through a list of chunks, every one
    of them has a file, and running the loop again over the same chunks in
    the resulting state sends no request and changes nothing, whatever the
    speech service then answers. *)
Theorem chunk_loop_rerun (E E' : Services) (baseName fileName : jsstring)
  (folder : nat) (j : N) (textChunks : list jsstring)
  (acc acc' fs : list driveFile) (st st' : state) :
  (folder < length (folders st))%nat ->
  chunk_loop E baseName fileName folder j textChunks acc st = (st', Some fs) ->
  artifacts_exist (folder_files st' folder) baseName fileName j textChunks
  = true
  /\ exists fs',
       chunk_loop E' baseName fileName folder j textChunks acc' st'
       = (st', Some fs')
       /\ length fs' = (length acc' + length textChunks)%nat.
Proof.
  intros Hlt Hloop.
  pose proof (chunk_loop_exist E _ _ _ _ _ _ _ _ _ Hlt Hloop) as Hall.
  split; [exact Hall|].
  destruct (chunk_loop_found E' baseName fileName folder j textChunks acc'
              st' Hall) as (fs' & Hfs').
  exists fs'. split; [exact Hfs'|].
  by apply chunk_loop_length in Hfs'.
Qed.

Lemma chunk_loop_rerun_witness :
  let E := Demo.services Demo.speaking Demo.fast_clock in
  let E' := Demo.services Demo.silent Demo.fast_clock in
  let first := chunk_loop E (lit "Quiz") (lit "Quiz.pdf") 0 0
                 (chunk_text Demo.quiz_text) []
                 (Demo.world [] Demo.two_of_three) in
  exists fs', chunk_loop E' (lit "Quiz") (lit "Quiz.pdf") 0 0
                (chunk_text Demo.quiz_text) [] first.1 = (first.1, Some fs').
Proof.
  cbv zeta.
  destruct (chunk_loop (Demo.services Demo.speaking Demo.fast_clock)
              (lit "Quiz") (lit "Quiz.pdf") 0 0 (chunk_text Demo.quiz_text)
              [] (Demo.world [] Demo.two_of_three)) as [st' [fs|]] eqn:El.
  - simpl.
    destruct (chunk_loop_rerun
                (Demo.services Demo.speaking Demo.fast_clock)
                (Demo.services Demo.silent Demo.fast_clock)
                (lit "Quiz") (lit "Quiz.pdf") 0 0
                (chunk_text Demo.quiz_text) [] [] fs
                (Demo.world [] Demo.two_of_three) st')
      as (_ & fs' & H & _); [simpl; lia | exact El | by exists fs'].
  - vm_compute in El. discriminate.
Defined.

Lemma getOrCreateSubfolder_effect_witness :
  let E := Demo.services Demo.silent Demo.fast_clock in
  let result := getOrCreateSubfolder E (lit "Notes")
                  (Demo.world [] Demo.two_of_three) in
  result.2 = Some 1%nat
  /\ folders result.1 !! 0%nat = Some (lit "Quiz", Demo.two_of_three)
  /\ getOrCreateSubfolder E (lit "Notes") result.1 = result.
Proof.
  cbv zeta.
  destruct (getOrCreateSubfolder_effect
              (Demo.services Demo.silent Demo.fast_clock) (lit "Notes")
              (Demo.world [] Demo.two_of_three)) as (_ & Hold & Hnew).
  assert ((getOrCreateSubfolder (Demo.services Demo.silent Demo.fast_clock)
             (lit "Notes") (Demo.world [] Demo.two_of_three)).2
          = Some 1%nat) as Hk by (vm_compute; reflexivity).
  rewrite Hk in Hnew. destruct Hnew as (_ & Hagain).
  repeat apply conj; [exact Hk | | exact Hagain].
  apply Hold. reflexivity.
Defined.

Section RetryFacts.

Context (E : Services).

(** Where a failed loop stopped: the chunks before have a file, the chunk
    it stopped at has none and was refused by the service. *)
Lemma chunk_loop_fail_split baseName fileName folder j textChunks acc st st' :
  (folder < length (folders st))%nat ->
  chunk_loop E baseName fileName folder j textChunks acc st = (st', None) ->
  exists pre c post,
    textChunks = pre ++ c :: post
    /\ artifacts_exist (folder_files st' folder) baseName fileName j pre
       = true
    /\ artifact_exists (folder_files st' folder) baseName fileName c
         (j + N.of_nat (length pre)) = false
    /\ gemini_audio E (prompt c) = None.
Proof.
  revert j acc st. induction textChunks as [|c rest IH]; intros j acc st Hlt;
    simpl; [done|].
  destruct (resolve_chunk E baseName fileName folder c j st)
    as [st1 [f|]] eqn:Er.
  - intros Hloop.
    pose proof (resolve_chunk_files E baseName fileName folder c j st folder)
      as (Hlen & _). rewrite Er in Hlen. simpl in Hlen.
    destruct (IH (j + 1) (acc ++ [f]) st1 ltac:(lia) Hloop)
      as (pre & x & post & -> & Hpre & Hx & Hfail).
    exists (c :: pre), x, post. repeat apply conj; [done | | | done].
    + simpl. apply andb_true_iff. split; [|done].
      pose proof (chunk_loop_files E baseName fileName folder (j + 1)
                    (pre ++ x :: post) (acc ++ [f]) st1 folder)
        as (_ & extra & Hfiles).
      rewrite Hloop in Hfiles. simpl in Hfiles. rewrite Hfiles.
      apply artifact_exists_more.
      by apply (resolve_some_exists E _ _ _ _ _ st st1 f).
    + replace (j + N.of_nat (length (c :: pre)))
        with (j + 1 + N.of_nat (length pre)) by (simpl; lia). done.
  - intros [= <-]. exists [], c, rest.
    destruct (artifact_exists (folder_files st folder) baseName fileName c j)
      eqn:Ex.
    { destruct (resolve_existing E baseName fileName folder c j st Ex)
        as (f & Hf & _). congruence. }
    rewrite (resolve_missing E _ _ _ _ _ _ Ex) in Er.
    unfold generateAudioFromTextChunk in Er.
    destruct (gemini_audio E (prompt c)) eqn:Eg; [done|].
    injection Er as <-. rewrite N.add_0_r.
    repeat apply conj; done.
Qed.

End RetryFacts.

(** X13: when the chunk loop stops at a chunk that the speech service
    refused, the chunks before it keep their files, and a later run of the
    loop over the same chunks, from the state the failure left, makes its
    first request for that very chunk: it goes through the earlier chunks
    with no request and no change. *)
Theorem retry_resumes_at_failed_chunk (E E' : Services)
  (baseName fileName : jsstring) (folder : nat) (j : N)
  (textChunks : list jsstring) (acc acc' : list driveFile) (st st' : state) :
  (folder < length (folders st))%nat ->
  chunk_loop E baseName fileName folder j textChunks acc st = (st', None) ->
  exists pre c post fs',
    textChunks = pre ++ c :: post
    /\ gemini_audio E (prompt c) = None
    /\ length fs' = (length acc' + length pre)%nat
    /\ chunk_loop E' baseName fileName folder j pre acc' st' = (st', Some fs')
    /\ chunk_loop E' baseName fileName folder j textChunks acc' st' =
       match
         generateAudioFromTextChunk E' c
           (generateSafeFilenameFromText c (j + N.of_nat (length pre)))
           folder st'
       with
       | (st2, Some audioFile) =>
           chunk_loop E' baseName fileName folder
             (j + N.of_nat (length pre) + 1) post (fs' ++ [audioFile]) st2
       | (st2, None) => (st2, None)
       end.
Proof.
  intros Hlt Hloop.
  destruct (chunk_loop_fail_split E _ _ _ _ _ _ _ _ Hlt Hloop)
    as (pre & c & post & -> & Hpre & Hc & Hfail).
  destruct (chunk_loop_found E' baseName fileName folder j pre acc' st' Hpre)
    as (fs' & Hfs').
  exists pre, c, post, fs'. repeat apply conj; [done | done | | done |].
  - by apply chunk_loop_length in Hfs'.
  - rewrite chunk_loop_app, Hfs'. cbn [chunk_loop].
    by rewrite (resolve_missing E' _ _ _ _ _ _ Hc).
Qed.

Lemma retry_resumes_at_failed_chunk_witness :
  let E := Demo.services Demo.silent Demo.fast_clock in
  let E' := Demo.services Demo.speaking Demo.fast_clock in
  let failed := chunk_loop E (lit "Quiz") (lit "Quiz.pdf") 0 0
                  (chunk_text Demo.quiz_text) []
                  (Demo.world [] Demo.two_of_three) in
  exists pre c post,
    chunk_text Demo.quiz_text = pre ++ c :: post
    /\ gemini_audio E (prompt c) = None.
Proof.
  cbv zeta.
  destruct (retry_resumes_at_failed_chunk
              (Demo.services Demo.silent Demo.fast_clock)
              (Demo.services Demo.speaking Demo.fast_clock)
              (lit "Quiz") (lit "Quiz.pdf") 0 0 (chunk_text Demo.quiz_text)
              [] [] (Demo.world [] Demo.two_of_three)
              (with_request (prompt (lit "3. Cherry"))
                 (Demo.world [] Demo.two_of_three)))
    as (pre & c & post & _ & H1 & H2 & _).
  - simpl. lia.
  - vm_compute. reflexivity.
  - by exists pre, c, post.
Defined.

(** X14: when the sanitized first words of a chunk reach 250 units, its
    name is those 250 units, with no ordinal and no extension; another
    chunk with the same 250 units gets the same name whatever its ordinal,
    so once the first has its file the second is given that same file and
    no audio is made for it. *)
Theorem long_names_share_a_file (E E' : Services)
  (baseName fileName : jsstring) (folder : nat) (c0 c1 : jsstring) (i j : N)
  (st st' : state) (f : driveFile) :
  (250 <= length (sanitized c0))%nat ->
  take 250 (sanitized c0) = take 250 (sanitized c1) ->
  (folder < length (folders st))%nat ->
  artifact_exists (folder_files st folder) baseName fileName c0 i = false ->
  resolve_chunk E baseName fileName folder c0 i st = (st', Some f) ->
  generateSafeFilenameFromText c0 i = take 250 (sanitized c0)
  /\ generateSafeFilenameFromText c1 j = generateSafeFilenameFromText c0 i
  /\ resolve_chunk E' baseName fileName folder c1 j st' = (st', Some f).
Proof.
  intros Hlong Hsame Hlt Hnone Hfirst.
  assert (forall c k, (250 <= length (sanitized c))%nat ->
            generateSafeFilenameFromText c k = take 250 (sanitized c))
    as Hname.
  { intros c k Hc. unfold generateSafeFilenameFromText. cbv zeta.
    by rewrite take_app_le by lia. }
  assert (250 <= length (sanitized c1))%nat as Hlong1.
  { apply (f_equal length) in Hsame. rewrite !length_take in Hsame. lia. }
  assert (generateSafeFilenameFromText c1 j
          = generateSafeFilenameFromText c0 i) as Hnames
      by (rewrite !Hname by done; done).
  repeat apply conj; [by apply Hname | exact Hnames |].
  rewrite (resolve_missing E _ _ _ _ _ _ Hnone) in Hfirst.
  destruct (generate_adds E _ _ _ _ _ _ Hlt Hfirst) as (Hfiles & _).
  pose proof (generate_file E c0 (generateSafeFilenameFromText c0 i)
                folder st f) as Hf.
  rewrite Hfirst in Hf. destruct (Hf eq_refl) as (Hfname & _).
  rewrite resolve_chunk_cases. cbv zeta.
  rewrite Hnames, Hfiles, getFilesByName_app.
  unfold artifact_exists, named in Hnone.
  destruct (getFilesByName (folder_files st folder)
              (generateSafeFilenameFromText c0 i)); [|done].
  unfold getFilesByName at 1. simpl. by rewrite Hfname, str_eqb_refl.
Qed.

Lemma long_names_share_a_file_witness :
  let E := Demo.services Demo.speaking Demo.fast_clock in
  let c0 := repeat 97 250 ++ lit " is the first item" in
  let c1 := repeat 97 250 ++ lit " is the second item" in
  let first := resolve_chunk E (lit "Quiz") (lit "Quiz.pdf") 0 c0 0
                 (Demo.world [] []) in
  resolve_chunk E (lit "Quiz") (lit "Quiz.pdf") 0 c1 1 first.1 = first.
Proof.
  cbv zeta.
  destruct (resolve_chunk (Demo.services Demo.speaking Demo.fast_clock)
              (lit "Quiz") (lit "Quiz.pdf") 0
              (repeat 97 250 ++ lit " is the first item") 0
              (Demo.world [] [])) as [st' [f|]] eqn:Er.
  - simpl.
    refine (proj2 (proj2
              (long_names_share_a_file
                 (Demo.services Demo.speaking Demo.fast_clock)
                 (Demo.services Demo.speaking Demo.fast_clock)
                 (lit "Quiz") (lit "Quiz.pdf") 0
                 (repeat 97 250 ++ lit " is the first item")
                 (repeat 97 250 ++ lit " is the second item") 0 1
                 (Demo.world [] []) st' f _ _ _ _ Er))).
    + vm_compute. lia.
    + vm_compute. reflexivity.
    + simpl. lia.
    + vm_compute. reflexivity.
  - vm_compute in Er. discriminate.
Defined.

(* ===================================================================== *)
(** * Further properties: the rows of the sheet through the steps         *)
(* ===================================================================== *)

Section RowLoopFacts.

Variable body : nat -> row -> state -> state * outcome.
Variable stop : nat -> bool.
Variable R : row -> row -> Prop.

Hypothesis R_refl : forall r, R r r.

(** The body writes to its own row only, and takes it to a related row. *)
Hypothesis body_row : forall i r st,
  sheet st !! i = Some r ->
  length (sheet (body i r st).1) = length (sheet st)
  /\ (forall j, j <> i -> sheet (body i r st).1 !! j = sheet st !! j)
  /\ exists r', sheet (body i r st).1 !! i = Some r' /\ R r r'.

Lemma row_loop_rows (data : list row) (i : nat) (st : state) :
  (forall k r, data !! k = Some r -> sheet st !! (i + k)%nat = Some r) ->
  length (sheet (row_loop body stop data i st).1) = length (sheet st)
  /\ (forall j, (j < i)%nat ->
        sheet (row_loop body stop data i st).1 !! j = sheet st !! j)
  /\ (forall j x, sheet st !! j = Some x ->
        exists x', sheet (row_loop body stop data i st).1 !! j = Some x'
                   /\ R x x').
Proof.
  revert i st. induction data as [|r data IH]; intros i st Hsnap; simpl.
  { repeat apply conj; [done | done |]. intros j x Hx. by exists x. }
  destruct (stop i).
  { repeat apply conj; [done | done |]. intros j x Hx. by exists x. }
  assert (sheet st !! i = Some r) as Hr.
  { specialize (Hsnap 0%nat r eq_refl). by rewrite Nat.add_0_r in Hsnap. }
  destruct (body_row i r st Hr) as (Hlen & Hframe & r1 & Hr1 & HR).
  destruct (body i r st) as [st1 o] eqn:Eb. simpl in *.
  assert (forall j x, sheet st !! j = Some x ->
            exists x', sheet st1 !! j = Some x' /\ R x x') as Hstep.
  { intros j x Hx. destruct (decide (j = i)) as [->|Hne].
    - rewrite Hr in Hx. injection Hx as <-. by exists r1.
    - exists x. by rewrite Hframe. }
  destruct o; simpl.
  2:{ repeat apply conj; [done | | done].
      intros j Hj. apply Hframe. lia. }
  destruct (IH (S i) st1) as (Hlen' & Hbefore & Hrows).
  { intros k r0 Hk. rewrite Hframe by lia.
    replace (S i + k)%nat with (i + S k)%nat by lia. by apply Hsnap. }
  repeat apply conj.
  - congruence.
  - intros j Hj. rewrite Hbefore by lia. apply Hframe. lia.
  - intros j x Hx. destruct (decide (j = i)) as [->|Hne].
    + rewrite Hr in Hx. injection Hx as <-. exists r1.
      by rewrite Hbefore by lia.
    + apply Hrows. by rewrite Hframe.
Qed.

End RowLoopFacts.

Section StepFacts.

Context (E : Services).

Lemma step2_loop_row_loop (data : list row) (i : nat) (st : state) :
  step2_loop E data i st
  = row_loop (process_row E) (fun i => (elapsed E i >? SCRIPT_TIMEOUT_MS)%Z)
             data i st.
Proof.
  revert i st. induction data as [|r data IH]; intros i st; simpl; [done|].
  destruct (_ >? _)%Z; [done|].
  destruct (process_row E i r st) as [st' []]; [apply IH | done].
Qed.

Lemma step1_loop_row_loop (data : list row) (i : nat) (st : state) :
  step1_loop E data i st
  = row_loop (analyze_row E) (fun _ => false) data i st.
Proof.
  revert i st. induction data as [|r data IH]; intros i st; simpl; [done|].
  destruct (analyze_row E i r st) as [st' []]; [apply IH | done].
Qed.

Lemma lookup_setValue_eq (i : nat) (f : row -> row) (st : state) (r : row) :
  sheet st !! i = Some r -> sheet (setValue i f st) !! i = Some (f r).
Proof.
  intros Hr. unfold setValue. simpl. by rewrite list_lookup_alter_eq, Hr.
Qed.

Lemma lookup_setValue_ne (i j : nat) (f : row -> row) (st : state) :
  j <> i -> sheet (setValue i f st) !! j = sheet st !! j.
Proof.
  intros Hne. unfold setValue. simpl. by rewrite list_lookup_alter_ne.
Qed.

Lemma length_setValue (i : nat) (f : row -> row) (st : state) :
  length (sheet (setValue i f st)) = length (sheet st).
Proof. unfold setValue. simpl. apply length_alter. Qed.

(** One iteration of step 2, seen from the row. *)
Lemma process_row_row (i : nat) (r : row) (st : state) :
  sheet st !! i = Some r ->
  length (sheet (process_row E i r st).1) = length (sheet st)
  /\ (forall j, j <> i -> sheet (process_row E i r st).1 !! j = sheet st !! j)
  /\ exists r', sheet (process_row E i r st).1 !! i = Some r'
                /\ step2_row r r'.
Proof.
  intros Hr.
  destruct (truthy_str (PDF_URL r) && gt0_cell (CHUNK_COUNT r)
            && negb (truthy_bool_cell (IS_COMPLETE r))) eqn:Eg.
  2:{ unfold process_row. rewrite Eg. simpl.
      repeat apply conj; [done | done |]. exists r. split; [done | by left]. }
  apply andb_true_iff in Eg as [[_ Hcount]%andb_true_iff Hflag].
  apply negb_true_iff in Hflag.
  destruct (process_row_sheet E i r st) as [Hsame | Hfin].
  { rewrite Hsame. repeat apply conj; [done | done |].
    exists r. split; [done | by left]. }
  destruct Hfin as (fileId & file & folder & st1 & st2 & chunks & files
                    & _ & _ & _ & Hc & _ & Hlen & -> & Hs2).
  unfold finalize. simpl. repeat apply conj.
  - by rewrite !length_alter, Hs2.
  - intros j Hj. by rewrite !list_lookup_alter_ne, Hs2 by done.
  - exists (finalized_row chunks files r). split.
    + by rewrite !list_lookup_alter_eq, Hs2, Hr.
    + right. split; [done|]. exists chunks, files.
      repeat apply conj; try done.
      rewrite Hc in Hcount. simpl in Hcount. apply Z.ltb_lt in Hcount. lia.
Qed.

(** One iteration of step 1, seen from the row. *)
Lemma analyze_row_row (i : nat) (r : row) (st : state) :
  sheet st !! i = Some r ->
  length (sheet (analyze_row E i r st).1) = length (sheet st)
  /\ (forall j, j <> i -> sheet (analyze_row E i r st).1 !! j = sheet st !! j)
  /\ exists r', sheet (analyze_row E i r st).1 !! i = Some r'
                /\ step1_row E r r'.
Proof.
  intros Hr.
  assert (length (sheet st) = length (sheet st)
          /\ (forall j, j <> i -> sheet st !! j = sheet st !! j)
          /\ exists r', sheet st !! i = Some r' /\ step1_row E r r') as Hsame.
  { repeat apply conj; [done | done |]. exists r. split; [done | by left]. }
  unfold analyze_row.
  destruct (truthy_str (PDF_URL r) && falsy_num_cell (CHUNK_COUNT r)) eqn:Eg;
    [|exact Hsame].
  apply andb_true_iff in Eg as [_ Hcount].
  destruct (getFileIdFromUrl (PDF_URL r)) as [fileId|] eqn:Eid;
    [|exact Hsame].
  destruct (getFileById E fileId); [|exact Hsame].
  destruct (extractTextFromPdf E fileId) as [chunks|] eqn:Ex; [|exact Hsame].
  destruct (0 <? length chunks)%nat eqn:El; [|exact Hsame].
  apply Nat.ltb_lt in El. simpl. repeat apply conj.
  - by rewrite !length_alter.
  - intros j Hj. by rewrite !list_lookup_alter_ne by done.
  - exists (analyzed_row (length chunks) r). split.
    + by rewrite !list_lookup_alter_eq, Hr.
    + right. split; [done|]. by exists fileId, chunks.
Qed.

Lemma step2_rows (st : state) :
  length (sheet (step2_GenerateMissingAudioAndFinalize E st).1)
  = length (sheet st)
  /\ forall j r, sheet st !! j = Some r ->
       exists r', sheet (step2_GenerateMissingAudioAndFinalize E st).1 !! j
                  = Some r'
                  /\ step2_row r r'.
Proof.
  unfold step2_GenerateMissingAudioAndFinalize.
  destruct (negb (has_main_folder E));
    [split; [done | intros j r Hr; exists r; split; [done | by left]]|].
  destruct (negb (has_sheet E));
    [split; [done | intros j r Hr; exists r; split; [done | by left]]|].
  rewrite step2_loop_row_loop.
  destruct (row_loop_rows (process_row E)
              (fun i => (elapsed E i >? SCRIPT_TIMEOUT_MS)%Z) step2_row
              ltac:(by left) process_row_row (sheet st) 0 st)
    as (Hlen & _ & Hrows); [done|]. by split.
Qed.

Lemma step1_rows (st : state) :
  length (sheet (step1_AnalyzePdfsAndCountChunks E st).1) = length (sheet st)
  /\ forall j r, sheet st !! j = Some r ->
       exists r', sheet (step1_AnalyzePdfsAndCountChunks E st).1 !! j
                  = Some r'
                  /\ step1_row E r r'.
Proof.
  unfold step1_AnalyzePdfsAndCountChunks.
  destruct (negb (has_sheet E));
    [split; [done | intros j r Hr; exists r; split; [done | by left]]|].
  rewrite step1_loop_row_loop.
  destruct (row_loop_rows (analyze_row E) (fun _ => false) (step1_row E)
              ltac:(by left) analyze_row_row (sheet st) 0 st)
    as (Hlen & _ & Hrows); [done|]. by split.
Qed.

End StepFacts.

Section SheetFacts.

Lemma rows_related_Forall (R : row -> row -> Prop) (P : row -> Prop)
  (l l' : list row) :
  length l' = length l ->
  (forall j x, l !! j = Some x -> exists x', l' !! j = Some x' /\ R x x') ->
  (forall x x', R x x' -> P x -> P x') ->
  Forall P l -> Forall P l'.
Proof.
  intros Hlen Hrows HR HP. apply Forall_lookup. intros j x' Hx'.
  assert (j < length l)%nat as Hj
      by (rewrite <- Hlen; by apply lookup_lt_Some in Hx').
  destruct (lookup_lt_is_Some_2 l j Hj) as [x Hx].
  destruct (Hrows j x Hx) as (x'' & Hx'' & Hrel).
  rewrite Hx' in Hx''. injection Hx'' as <-.
  apply (HR x x' Hrel). by apply (proj1 (Forall_lookup P l) HP j).
Qed.

Lemma audioData_length (textChunks : list jsstring)
  (audioFileObjects : list driveFile) :
  length audioFileObjects = length textChunks ->
  length (audioDataForSheet textChunks audioFileObjects) = length textChunks.
Proof.
  revert audioFileObjects. induction textChunks as [|c cs IH];
    intros [|f fs]; simpl; try done.
  intros [= H]. by rewrite (IH fs H).
Qed.

Lemma audioData_texts (textChunks : list jsstring)
  (audioFileObjects : list driveFile) :
  length audioFileObjects = length textChunks ->
  map text (audioDataForSheet textChunks audioFileObjects) = textChunks
  /\ map audioFilename (audioDataForSheet textChunks audioFileObjects)
     = map file_name audioFileObjects.
Proof.
  revert audioFileObjects. induction textChunks as [|c cs IH];
    intros [|f fs]; simpl; try done.
  intros [= H]. destruct (IH fs H) as [-> ->]. done.
Qed.

Lemma audioData_urls (textChunks : list jsstring)
  (audioFileObjects : list driveFile) :
  Forall (fun e => audioUrl e <> [])
         (audioDataForSheet textChunks audioFileObjects).
Proof.
  revert audioFileObjects. induction textChunks as [|c cs IH];
    intros [|f fs]; simpl; try constructor; [done | apply IH].
Qed.

Lemma step2_row_complete_ok (r r' : row) :
  step2_row r r' -> complete_ok r -> complete_ok r'.
Proof.
  intros [-> | (_ & chunks & files & Hlen & _ & Hc & ->)] Hok; [done|].
  intros _. exists (audioDataForSheet chunks files).
  repeat apply conj; [done | | apply audioData_urls].
  simpl. by rewrite audioData_length.
Qed.

Lemma step1_row_complete_ok (E : Services) (r r' : row) :
  step1_row E r r' -> complete_ok r -> complete_ok r'.
Proof.
  intros [-> | (_ & fileId & chunks & _ & _ & _ & ->)] Hok; [done|].
  intros Hflag. simpl in Hflag. discriminate.
Qed.

Lemma step2_row_fixed (r r' : row) : step2_row r r' -> same_fixed_columns r r'.
Proof.
  intros [-> | (_ & chunks & files & _ & _ & _ & ->)];
    by repeat apply conj.
Qed.

Lemma step1_row_fixed (E : Services) (r r' : row) :
  step1_row E r r' -> same_fixed_columns r r'.
Proof.
  intros [-> | (_ & fileId & chunks & _ & _ & _ & ->)];
    by repeat apply conj.
Qed.

Lemma step0_sheet_app (E : Services) (st : state) :
  exists added, sheet (step0_addNewPdfs E st) = sheet st ++ map new_row added.
Proof.
  unfold step0_addNewPdfs.
  destruct (negb (has_sheet E)); [exists []; by rewrite app_nil_r|].
  destruct (negb (has_main_folder E)); [exists []; by rewrite app_nil_r|].
  destruct (sources st); [|exists []; by rewrite app_nil_r].
  simpl. rewrite add_files_appends. by eexists.
Qed.

(** The scan answers for the row at position [i] when no usable row before
    it matches. *)
Lemma scan_rows_at (E : Services) (email password : jsstring)
  (data : list row) (i : nat) (r : row) :
  data !! i = Some r ->
  (forall j x, (j < i)%nat -> data !! j = Some x ->
     row_usable x && credentials_match x email password = false) ->
  row_usable r = true -> credentials_match r email password = true ->
  scan_rows E email password data = serve_row E r.
Proof.
  revert i. induction data as [|x data IH]; intros i Hr Hpre Hu Hm; [done|].
  destruct i as [|i]; simpl in *.
  - injection Hr as ->. by rewrite Hu, Hm.
  - pose proof (Hpre 0%nat x ltac:(lia) eq_refl) as Hx.
    assert (scan_rows E email password data = serve_row E r) as Hrest.
    { apply (IH i); try done. intros j y Hj Hy.
      apply (Hpre (S j) y); [lia | done]. }
    destruct (row_usable x); simpl in *; [by rewrite Hx | done].
Qed.

Lemma chunk_loop_succeeds (E : Services) baseName fileName folder j
  textChunks acc st :
  (forall p, gemini_audio E p <> None) ->
  exists st' fs,
    chunk_loop E baseName fileName folder j textChunks acc st
    = (st', Some fs).
Proof.
  intros Hup. revert j acc st.
  induction textChunks as [|c rest IH]; intros j acc st; simpl.
  - by eexists _, _.
  - assert (exists st1 f, resolve_chunk E baseName fileName folder c j st
                          = (st1, Some f)) as (st1 & f & ->).
    { destruct (artifact_exists (folder_files st folder) baseName fileName
                  c j) eqn:Ex.
      - destruct (resolve_existing E _ _ _ _ _ _ Ex) as (f & Hf & _).
        by exists st, f.
      - rewrite (resolve_missing E _ _ _ _ _ _ Ex).
        unfold generateAudioFromTextChunk.
        destruct (gemini_audio E (prompt c)) eqn:Eg;
          [by eexists _, _ | by destruct (Hup (prompt c))]. }
    apply IH.
Qed.

(** An eligible row whose count agrees with the chunker is finalized when
    the speech service answers every prompt. *)
Lemma process_row_finalizes (E : Services) (i : nat) (r : row) (st : state)
  (fileId : jsstring) (file : driveFile) (textChunks : list jsstring) :
  sheet st !! i = Some r ->
  truthy_str (PDF_URL r) = true ->
  truthy_bool_cell (IS_COMPLETE r) = false ->
  CHUNK_COUNT r = Some (Z.of_nat (length textChunks)) ->
  (0 < length textChunks)%nat ->
  getFileIdFromUrl (PDF_URL r) = Some fileId ->
  getFileById E fileId = Some file ->
  subfolder_fails E (trim (strip_pdf (file_name file))) = false ->
  extractTextFromPdf E fileId = Some textChunks ->
  (forall p, gemini_audio E p <> None) ->
  exists st2 audioFileObjects,
    length audioFileObjects = length textChunks
    /\ process_row E i r st
       = (finalize i textChunks audioFileObjects st2, Continue)
    /\ sheet st2 = sheet st.
Proof.
  intros Hr Hurl Hflag Hcount Hpos Hid Hfile Hsub Htext Hup.
  unfold process_row. rewrite Hurl, Hcount, Hflag, Hid, Hfile.
  assert (gt0_cell (Some (Z.of_nat (length textChunks))) = true) as ->
      by (apply Z.ltb_lt; lia).
  cbn [andb negb].
  pose proof (getOrCreateSubfolder_sheet E
                (trim (strip_pdf (file_name file))) st) as Hs1.
  assert (exists st1 folder,
            getOrCreateSubfolder E (trim (strip_pdf (file_name file))) st
            = (st1, Some folder)) as (st1 & folder & Eg).
  { unfold getOrCreateSubfolder. rewrite Hsub.
    destruct (find_folder _ _); by eexists _, _. }
  rewrite Eg in Hs1 |- *. simpl in Hs1. rewrite Htext.
  assert (forall A (l : list A),
            length l = length textChunks ->
            length_differs l (Some (Z.of_nat (length textChunks))) = false)
    as Hsame.
  { intros A l Hl. unfold length_differs. rewrite Hl.
    apply negb_false_iff, Z.eqb_refl. }
  rewrite (Hsame _ textChunks eq_refl).
  destruct (chunk_loop_succeeds E (trim (strip_pdf (file_name file)))
              (file_name file) folder 0 textChunks [] st1 Hup)
    as (st2 & fs & Hloop).
  rewrite Hloop.
  pose proof (chunk_loop_length E _ _ _ _ _ _ _ _ _ Hloop) as Hlen.
  simpl in Hlen. rewrite (Hsame _ fs Hlen).
  exists st2, fs. repeat apply conj; [done | done |].
  pose proof (chunk_loop_sheet E (trim (strip_pdf (file_name file)))
                (file_name file) folder 0 textChunks [] st1) as Hs2.
  rewrite Hloop in Hs2. simpl in Hs2. congruence.
Qed.

End SheetFacts.

(** X15: the generation pass keeps the number of rows and, in every row,
    the columns A, B and E to H.  A row whose flag was true, or whose count
    was not positive, is left as it was.  A row that changed now has the
    flag true and a JSON with as many records as its count, each with an
    audio URL. *)
Theorem generation_pass_rows (E : Services) (st : state) :
  let st' := (step2_GenerateMissingAudioAndFinalize E st).1 in
  length (sheet st') = length (sheet st)
  /\ forall j r, sheet st !! j = Some r ->
       exists r',
         sheet st' !! j = Some r'
         /\ same_fixed_columns r r'
         /\ CHUNK_COUNT r' = CHUNK_COUNT r
         /\ (truthy_bool_cell (IS_COMPLETE r) = true -> r' = r)
         /\ (gt0_cell (CHUNK_COUNT r) = false -> r' = r)
         /\ (r' = r
             \/ (IS_COMPLETE r' = Some true
                 /\ exists m,
                      AUDIO_JSON r' = Some m
                      /\ CHUNK_COUNT r' = Some (Z.of_nat (length m))
                      /\ (0 < length m)%nat
                      /\ Forall (fun e => audioUrl e <> []) m)).
Proof.
  cbv zeta. destruct (step2_rows E st) as (Hlen & Hrows).
  split; [exact Hlen|]. intros j r Hr.
  destruct (Hrows j r Hr) as (r' & Hr' & Hrel). exists r'.
  split; [exact Hr'|]. split; [by apply step2_row_fixed|].
  destruct Hrel as [-> | (Hflag & chunks & files & Hl & Hpos & Hc & ->)].
  { repeat apply conj; try done. by left. }
  repeat apply conj.
  - done.
  - intros H. congruence.
  - intros H. rewrite Hc in H. simpl in H. apply Z.ltb_ge in H. lia.
  - right. split; [done|]. exists (audioDataForSheet chunks files).
    rewrite (audioData_length chunks files Hl).
    repeat apply conj; [done | done | done | apply audioData_urls].
Qed.

Lemma generation_pass_rows_witness :
  let E := Demo.services Demo.speaking Demo.fast_clock in
  let st := Demo.world [Demo.quiz_row_done; Demo.quiz_row] Demo.two_of_three in
  sheet (step2_GenerateMissingAudioAndFinalize E st).1 !! 0%nat
  = Some Demo.quiz_row_done.
Proof.
  cbv zeta.
  destruct (generation_pass_rows
              (Demo.services Demo.speaking Demo.fast_clock)
              (Demo.world [Demo.quiz_row_done; Demo.quiz_row]
                 Demo.two_of_three)) as (_ & Hrows).
  destruct (Hrows 0%nat Demo.quiz_row_done eq_refl)
    as (r' & Hr' & _ & _ & Hdone & _).
  rewrite Hr'. f_equal. apply Hdone. reflexivity.
Defined.

(** X16: the analysis pass keeps the number of rows and, in every row, the
    columns A, C and E to H.  A row that had a count other than 0 is left
    as it was.  A row that changed now has the flag false and, as its
    count, the number of chunks that the chunker gives for its document,
    which is at least 1: the pass never records 0. *)
Theorem analysis_pass_rows (E : Services) (st : state) :
  let st' := (step1_AnalyzePdfsAndCountChunks E st).1 in
  length (sheet st') = length (sheet st)
  /\ forall j r, sheet st !! j = Some r ->
       exists r',
         sheet st' !! j = Some r'
         /\ same_fixed_columns r r'
         /\ AUDIO_JSON r' = AUDIO_JSON r
         /\ (falsy_num_cell (CHUNK_COUNT r) = false -> r' = r)
         /\ (r' = r
             \/ (IS_COMPLETE r' = Some false
                 /\ exists fileId textChunks,
                      getFileIdFromUrl (PDF_URL r) = Some fileId
                      /\ extractTextFromPdf E fileId = Some textChunks
                      /\ (0 < length textChunks)%nat
                      /\ CHUNK_COUNT r'
                         = Some (Z.of_nat (length textChunks)))).
Proof.
  cbv zeta. destruct (step1_rows E st) as (Hlen & Hrows).
  split; [exact Hlen|]. intros j r Hr.
  destruct (Hrows j r Hr) as (r' & Hr' & Hrel). exists r'.
  split; [exact Hr'|]. split; [by apply (step1_row_fixed E)|].
  destruct Hrel as [-> | (Hcount & fileId & chunks & Hid & Hx & Hpos & ->)].
  { repeat apply conj; try done. by left. }
  repeat apply conj.
  - done.
  - intros H. congruence.
  - right. split; [done|]. by exists fileId, chunks.
Qed.

Lemma analysis_pass_rows_witness :
  let E := Demo.services Demo.silent Demo.fast_clock in
  let st := Demo.world [Demo.quiz_row; new_row (file_url Demo.quiz)] [] in
  sheet (step1_AnalyzePdfsAndCountChunks E st).1 !! 0%nat
  = Some Demo.quiz_row.
Proof.
  cbv zeta.
  destruct (analysis_pass_rows
              (Demo.services Demo.silent Demo.fast_clock)
              (Demo.world [Demo.quiz_row; new_row (file_url Demo.quiz)] []))
    as (_ & Hrows).
  destruct (Hrows 0%nat Demo.quiz_row eq_refl) as (r' & Hr' & _ & _ & Hsame & _).
  rewrite Hr'. f_equal. apply Hsame. reflexivity.
Defined.

(** X17: a row that names a readable PDF and has no count is taken by the
    analysis to the count of its chunks, and from there, when the speech
    service answers every prompt, the generation finalizes it in its first
    iteration: the flag is true and the JSON has one record for each chunk,
    with the text of the chunk. *)
Theorem fresh_row_completes (E : Services) (i : nat) (r : row) (st : state)
  (fileId : jsstring) (file : driveFile) (textChunks : list jsstring) :
  sheet st !! i = Some r ->
  truthy_str (PDF_URL r) = true ->
  falsy_num_cell (CHUNK_COUNT r) = true ->
  getFileIdFromUrl (PDF_URL r) = Some fileId ->
  getFileById E fileId = Some file ->
  subfolder_fails E (trim (strip_pdf (file_name file))) = false ->
  extractTextFromPdf E fileId = Some textChunks ->
  (0 < length textChunks)%nat ->
  (forall p, gemini_audio E p <> None) ->
  let r1 := analyzed_row (length textChunks) r in
  let st1 := (analyze_row E i r st).1 in
  let st2 := (process_row E i r1 st1).1 in
  sheet st1 !! i = Some r1
  /\ exists r2 m,
       sheet st2 !! i = Some r2
       /\ IS_COMPLETE r2 = Some true
       /\ AUDIO_JSON r2 = Some m
       /\ map text m = textChunks
       /\ CHUNK_COUNT r2 = Some (Z.of_nat (length m)).
Proof.
  intros Hr Hurl Hcount Hid Hfile Hsub Htext Hpos Hup r1 st1 st2.
  assert (sheet st1 !! i = Some r1) as Hr1.
  { subst st1 r1. unfold analyze_row.
    rewrite Hurl, Hcount, Hid, Hfile, Htext. simpl.
    destruct (Nat.ltb_spec 0 (length textChunks)); [|lia]. simpl.
    by rewrite !list_lookup_alter_eq, Hr. }
  split; [exact Hr1|].
  destruct (process_row_finalizes E i r1 st1 fileId file textChunks)
    as (st' & files & Hlen & Hproc & Hsheet); try done.
  subst st2. rewrite Hproc. unfold finalize. simpl.
  exists (finalized_row textChunks files r1),
         (audioDataForSheet textChunks files).
  repeat apply conj.
  - by rewrite !list_lookup_alter_eq, Hsheet, Hr1.
  - done.
  - done.
  - by apply audioData_texts.
  - simpl. by rewrite audioData_length.
Qed.

Lemma fresh_row_completes_witness :
  let E := Demo.services Demo.speaking Demo.fast_clock in
  let r := new_row (file_url Demo.quiz) in
  let st := Demo.world [r] [] in
  sheet (analyze_row E 0 r st).1 !! 0%nat = Some (analyzed_row 3 r).
Proof.
  cbv zeta.
  refine (proj1 (fresh_row_completes
                   (Demo.services Demo.speaking Demo.fast_clock) 0
                   (new_row (file_url Demo.quiz))
                   (Demo.world [new_row (file_url Demo.quiz)] [])
                   (lit "doc1") Demo.quiz (chunk_text Demo.quiz_text)
                   _ _ _ _ _ _ _ _ _)); try reflexivity.
  - vm_compute. lia.
  - intros p. discriminate.
Defined.

(** X18: a row whose flag is true holds a JSON with as many records as its
    count, each with an audio URL; when this holds of every row of the
    sheet, it holds of every row after [runAllSteps], and every row that
    was in the sheet is still there, at its place, with the columns A and
    E to H that it had. *)
Theorem runAllSteps_keeps_rows (E : Services) (st : state) :
  let st' := (runAllSteps E st).1 in
  (Forall complete_ok (sheet st) -> Forall complete_ok (sheet st'))
  /\ (length (sheet st) <= length (sheet st'))%nat
  /\ forall j r, sheet st !! j = Some r ->
       exists r', sheet st' !! j = Some r' /\ same_fixed_columns r r'.
Proof.
  cbv zeta. unfold runAllSteps.
  destruct (step0_sheet_app E st) as (added & H0).
  set (st0 := step0_addNewPdfs E st) in *.
  destruct (step1_rows E st0) as (Hlen1 & Hrows1).
  destruct (step1_AnalyzePdfsAndCountChunks E st0) as [st1 o1] eqn:E1.
  simpl in Hlen1, Hrows1.
  assert (exists st2,
            (match o1 with
             | Threw => (st1, Threw)
             | Continue => step2_GenerateMissingAudioAndFinalize E st1
             end).1 = st2
            /\ length (sheet st2) = length (sheet st1)
            /\ forall j r, sheet st1 !! j = Some r ->
                 exists r', sheet st2 !! j = Some r' /\ step2_row r r')
    as (st2 & Hst2 & Hlen2 & Hrows2).
  { destruct o1.
    - eexists. split; [done|]. apply step2_rows.
    - exists st1. repeat apply conj; [done | done |].
      intros j r Hr. exists r. split; [done | by left]. }
  replace (match o1 with
           | Continue => step2_GenerateMissingAudioAndFinalize E st1
           | Threw => (st1, Threw)
           end) with
    (match o1 with
     | Threw => (st1, Threw)
     | Continue => step2_GenerateMissingAudioAndFinalize E st1
     end) by (by destruct o1).
  rewrite Hst2. repeat apply conj.
  - intros Hok.
    assert (Forall complete_ok (sheet st0)) as Hok0.
    { rewrite H0. apply Forall_app. split; [done|].
      apply Forall_forall. intros x (u & <- & _)%list_elem_of_In%in_map_iff.
      intros Hflag. simpl in Hflag. discriminate. }
    assert (Forall complete_ok (sheet st1)) as Hok1.
    { apply (rows_related_Forall (step1_row E) complete_ok (sheet st0));
        [done | done | apply step1_row_complete_ok | done]. }
    apply (rows_related_Forall step2_row complete_ok (sheet st1));
      [done | done | apply step2_row_complete_ok | done].
  - rewrite Hlen2, Hlen1, H0, length_app. lia.
  - intros j r Hr.
    assert (sheet st0 !! j = Some r) as Hr0
        by (rewrite H0; by apply lookup_app_l_Some).
    destruct (Hrows1 j r Hr0) as (r1 & Hr1 & Hrel1).
    destruct (Hrows2 j r1 Hr1) as (r2 & Hr2 & Hrel2).
    exists r2. split; [done|].
    apply (step1_row_fixed E) in Hrel1. apply step2_row_fixed in Hrel2.
    destruct Hrel1 as (? & ? & ? & ? & ?), Hrel2 as (? & ? & ? & ? & ?).
    repeat apply conj; congruence.
Qed.

Lemma runAllSteps_keeps_rows_witness :
  let E := Demo.services Demo.speaking Demo.fast_clock in
  let st := Demo.world [Demo.quiz_row_done] Demo.two_of_three in
  Forall complete_ok (sheet (runAllSteps E st).1).
Proof.
  cbv zeta.
  apply (proj1 (runAllSteps_keeps_rows
                  (Demo.services Demo.speaking Demo.fast_clock)
                  (Demo.world [Demo.quiz_row_done] Demo.two_of_three))).
  constructor; [|constructor].
  intros _. exists Demo.quiz_manifest.
  repeat apply conj; [reflexivity | reflexivity |].
  apply audioData_urls.
Defined.

(** X19: for an identity and identity cells written in Basic Latin, a
    served answer is always backed by a row of the sheet: the identity cell
    of the row is a list of entries joined by commas, one of which,
    lower-cased and trimmed, is the requester's identity, lower-cased and
    trimmed; the trimmed secret of the row is the supplied secret, which is
    not empty; the answer carries the JSON of that row and the bytes and
    the name of the PDF that its URL names. *)
Theorem served_only_when_authorized (E : Services) (st : state)
  (email password : jsstring) (pdfData : list Z) (fileName : jsstring)
  (audioChunks : list audioEntry) :
  basic_latin email ->
  (forall r, In r (sheet st) -> basic_latin (STUDENT_EMAILS r)) ->
  getAssessmentPdf E st email password
  = Served pdfData fileName audioChunks ->
  exists r fileId file entries entry,
    In r (sheet st)
    /\ STUDENT_EMAILS r = join [comma] entries
    /\ (forall e, In e entries -> ~ In comma e)
    /\ In entry entries
    /\ trim (toLowerCase entry) = trim (toLowerCase email)
    /\ password = trim (PASSWORD r)
    /\ password <> []
    /\ AUDIO_JSON r = Some audioChunks
    /\ getFileIdFromUrl (PDF_URL r) = Some fileId
    /\ getFileById E fileId = Some file
    /\ file_is_pdf file = true
    /\ pdfData = file_bytes file
    /\ fileName = file_name file.
Proof.
  intros _ _. unfold getAssessmentPdf. destruct (negb (has_sheet E)); [done|].
  induction (sheet st) as [|x data IH]; simpl; [done|].
  destruct (row_usable x) eqn:Eu; simpl.
  2:{ intros H.
      destruct (IH H) as (r & fileId & file & entries & entry & Hin & Hrest).
      exists r, fileId, file, entries, entry. split; [by right | done]. }
  destruct (credentials_match x email password) eqn:Em.
  2:{ intros H.
      destruct (IH H) as (r & fileId & file & entries & entry & Hin & Hrest).
      exists r, fileId, file, entries, entry. split; [by right | done]. }
  unfold serve_row.
  destruct (AUDIO_JSON x) as [m|] eqn:Ej; [|done].
  destruct (getFileIdFromUrl (PDF_URL x)) as [fileId|] eqn:Eid; [|done].
  destruct (getFileById E fileId) as [file|] eqn:Ef; [|done].
  destruct (file_is_pdf file) eqn:Ep; [|done]. simpl.
  intros [= <- <- <-].
  apply credentials_match_spec in Em as [Hemail Hpw].
  unfold split_on in Hemail.
  change (split_on_go comma [] (toLowerCase (STUDENT_EMAILS x)))
    with (split_on_go comma (toLowerCase []) (toLowerCase (STUDENT_EMAILS x)))
    in Hemail.
  rewrite split_on_go_lower, map_map in Hemail.
  apply in_map_iff in Hemail as (entry & Hentry & Hin).
  exists x, fileId, file, (split_on comma (STUDENT_EMAILS x)), entry.
  repeat apply conj; try done.
  - by left.
  - unfold split_on. by rewrite join_split_on_go.
  - apply split_on_go_free. by intros [].
  - unfold row_usable in Eu.
    apply andb_true_iff in Eu as [[_ Hp]%andb_true_iff _].
    rewrite Hpw. by destruct (trim (PASSWORD x)).
Qed.

Lemma served_only_when_authorized_witness :
  exists r entry,
    In r [list_row]
    /\ In entry [lit "a@x.com"; lit " B@x.com "; lit "c@x.com"]
    /\ trim (toLowerCase entry) = lit "b@x.com"
    /\ lit "pw1" = trim (PASSWORD r).
Proof.
  destruct (served_only_when_authorized
              (Demo.services Demo.silent Demo.fast_clock)
              (Demo.world [list_row] [])
              (lit " b@X.COM") (lit "pw1")
              (file_bytes Demo.quiz) (lit "Quiz.pdf") Demo.quiz_manifest)
    as (r & _ & _ & entries & entry & Hin & Hcell & Hfree & Hentry & Heq
        & Hpw & _).
  - reflexivity.
  - intros r [<- | []]. reflexivity.
  - vm_compute. reflexivity.
  - exists r, entry. destruct Hin as [<- | []].
    assert (entries = [lit "a@x.com"; lit " B@x.com "; lit "c@x.com"])
      as ->.
    { rewrite <- (split_on_join comma entries).
      - rewrite <- Hcell. vm_compute. reflexivity.
      - intros ->. vm_compute in Hcell. discriminate.
      - exact Hfree. }
    repeat apply conj; [by left | exact Hentry | | exact Hpw].
    rewrite Heq. vm_compute. reflexivity.
Defined.

(** X20: a row that step 2 has just finalized is served by the lookup to a
    requester whom the row accepts, when no usable row before it accepts
    the requester: the answer carries the PDF of the row and one record for
    each chunk of the document, in order, with the text of the chunk and
    the name of its audio file. *)
Theorem finalized_row_is_served (E : Services) (st : state) (i : nat)
  (r : row) (email password : jsstring) :
  has_sheet E = true ->
  sheet st !! i = Some r ->
  finalized_by E i r st ->
  row_usable r = true ->
  credentials_match r email password = true ->
  (forall j x, (j < i)%nat -> sheet st !! j = Some x ->
     row_usable x && credentials_match x email password = false) ->
  exists fileId file textChunks audioFileObjects,
    getFileIdFromUrl (PDF_URL r) = Some fileId
    /\ getFileById E fileId = Some file
    /\ extractTextFromPdf E fileId = Some textChunks
    /\ length audioFileObjects = length textChunks
    /\ getAssessmentPdf E (process_row E i r st).1 email password
       = Served (file_bytes file) (file_name file)
                (audioDataForSheet textChunks audioFileObjects)
    /\ map text (audioDataForSheet textChunks audioFileObjects) = textChunks
    /\ map audioFilename (audioDataForSheet textChunks audioFileObjects)
       = map file_name audioFileObjects.
Proof.
  intros Hs Hr Hfin Hu Hm Hpre.
  destruct Hfin as (fileId & file & folder & st1 & st2 & chunks & files
                    & Hid & Hfile & Htext & _ & _ & Hlen & Hproc & Hs2).
  exists fileId, file, chunks, files.
  destruct (audioData_texts chunks files Hlen) as [Htexts Hnames].
  repeat apply conj; try done.
  rewrite Hproc. unfold getAssessmentPdf. rewrite Hs. simpl.
  rewrite (scan_rows_at E email password _ i (finalized_row chunks files r)).
  - unfold serve_row. simpl. rewrite Hid, Hfile.
    unfold extractTextFromPdf in Htext. rewrite Hfile in Htext.
    by destruct (file_is_pdf file).
  - by rewrite !list_lookup_alter_eq, Hs2, Hr.
  - intros j x Hj Hx. rewrite !list_lookup_alter_ne, Hs2 in Hx by lia.
    by apply (Hpre j).
  - exact Hu.
  - exact Hm.
Qed.

Lemma finalized_row_is_served_witness :
  let E := Demo.services Demo.speaking Demo.fast_clock in
  let st := Demo.world [Demo.quiz_row] Demo.two_of_three in
  exists d n m,
    getAssessmentPdf E (process_row E 0 Demo.quiz_row st).1
      (lit "a@x.com") (lit "pw1") = Served d n m.
Proof.
  cbv zeta.
  destruct (finalized_row_is_served
              (Demo.services Demo.speaking Demo.fast_clock)
              (Demo.world [Demo.quiz_row] Demo.two_of_three) 0
              Demo.quiz_row (lit "a@x.com") (lit "pw1"))
    as (fileId & file & chunks & files & _ & _ & _ & _ & H & _);
    try reflexivity.
  - destruct (process_row_sheet
                (Demo.services Demo.speaking Demo.fast_clock) 0
                Demo.quiz_row
                (Demo.world [Demo.quiz_row] Demo.two_of_three))
      as [Hsame | Hfin]; [|exact Hfin].
    vm_compute in Hsame. discriminate.
  - intros j x Hj. lia.
  - by eexists _, _, _.
Defined.

Section RowLoopTwice.

Variable body : nat -> row -> state -> state * outcome.
Variable stop : nat -> bool.

Hypothesis body_frame : forall i r st,
  sheet st !! i = Some r ->
  length (sheet (body i r st).1) = length (sheet st)
  /\ (forall j, j <> i -> sheet (body i r st).1 !! j = sheet st !! j)
  /\ exists r', sheet (body i r st).1 !! i = Some r' /\ True.

(** Run on the row that it left, in any state, the body changes nothing
    and ends the same way. *)
Hypothesis body_stable : forall i r st r' st',
  sheet st !! i = Some r ->
  sheet (body i r st).1 !! i = Some r' ->
  sheet st' !! i = Some r' ->
  body i r' st' = (st', (body i r st).2).

Lemma row_loop_twice (data data2 : list row) (i : nat) (st : state) :
  (forall k r, data !! k = Some r -> sheet st !! (i + k)%nat = Some r) ->
  length data2 = length data ->
  (forall k r, data2 !! k = Some r ->
     sheet (row_loop body stop data i st).1 !! (i + k)%nat = Some r) ->
  row_loop body stop data2 i (row_loop body stop data i st).1
  = row_loop body stop data i st.
Proof.
  revert data2 i st.
  induction data as [|r data IH]; intros [|r2 data2] i st Hsnap Hlen Hsnap2;
    simpl in *; try done.
  destruct (stop i) eqn:Es; simpl; [done|].
  assert (sheet st !! i = Some r) as Hr.
  { specialize (Hsnap 0%nat r eq_refl). by rewrite Nat.add_0_r in Hsnap. }
  destruct (body_frame i r st Hr) as (_ & Hframe & _).
  pose proof (body_stable i r st) as Hstable.
  destruct (body i r st) as [sa oa] eqn:Eb. simpl in *.
  assert (forall k r0, data !! k = Some r0 ->
            sheet sa !! (S i + k)%nat = Some r0) as Hsnap'.
  { intros k r0 Hk. rewrite Hframe by lia.
    replace (S i + k)%nat with (i + S k)%nat by lia. by apply Hsnap. }
  destruct oa; simpl in *.
  - destruct (row_loop_rows body stop (fun _ _ => True) ltac:(done)
                body_frame data (S i) sa Hsnap') as (_ & Hbefore & _).
    pose proof (Hsnap2 0%nat r2 eq_refl) as Hr2.
    rewrite Nat.add_0_r in Hr2.
    assert (sheet sa !! i = Some r2) as Hr2a
        by (rewrite <- Hbefore by lia; done).
    rewrite (Hstable r2 _ Hr Hr2a Hr2).
    apply IH; [done | lia |].
    intros k r0 Hk. replace (S i + k)%nat with (i + S k)%nat by lia.
    by apply Hsnap2.
  - pose proof (Hsnap2 0%nat r2 eq_refl) as Hr2.
    rewrite Nat.add_0_r in Hr2.
    by rewrite (Hstable r2 sa Hr Hr2 Hr2).
Qed.

End RowLoopTwice.

Lemma analyze_row_stable (E : Services) (i : nat) (r : row) (st : state)
  (r' : row) (st' : state) :
  sheet st !! i = Some r ->
  sheet (analyze_row E i r st).1 !! i = Some r' ->
  sheet st' !! i = Some r' ->
  analyze_row E i r' st' = (st', (analyze_row E i r st).2).
Proof.
  intros Hr Hr' Hst'. unfold analyze_row in Hr' |- *.
  destruct (truthy_str (PDF_URL r) && falsy_num_cell (CHUNK_COUNT r)) eqn:Eg.
  2:{ simpl in Hr'. rewrite Hr in Hr'. injection Hr' as <-. by rewrite Eg. }
  destruct (getFileIdFromUrl (PDF_URL r)) as [fileId|] eqn:Eid.
  2:{ simpl in Hr'. rewrite Hr in Hr'. injection Hr' as <-.
      by rewrite Eg, Eid. }
  destruct (getFileById E fileId) eqn:Ef.
  2:{ simpl in Hr'. rewrite Hr in Hr'. injection Hr' as <-.
      by rewrite Eg, Eid, Ef. }
  destruct (extractTextFromPdf E fileId) as [chunks|] eqn:Ex.
  2:{ simpl in Hr'. rewrite Hr in Hr'. injection Hr' as <-.
      by rewrite Eg, Eid, Ef, Ex. }
  destruct (0 <? length chunks)%nat eqn:El.
  2:{ simpl in Hr'. rewrite Hr in Hr'. injection Hr' as <-.
      by rewrite Eg, Eid, Ef, Ex, El. }
  simpl in Hr'. rewrite !list_lookup_alter_eq, Hr in Hr'. simpl in Hr'.
  injection Hr' as <-. simpl.
  apply Nat.ltb_lt in El.
  destruct (Z.eqb_spec (Z.of_nat (length chunks)) 0); [lia|].
  by rewrite andb_false_r.
Qed.

(** X21: the analysis pass run a second time, right after the first and
    with the same answers of the Drive and of the OCR, writes nothing and
    ends the same way: a row that got its count is passed over, and a row
    that could not be analysed is tried again with the same result. *)
Theorem analysis_pass_twice (E : Services) (st : state) :
  let first := step1_AnalyzePdfsAndCountChunks E st in
  step1_AnalyzePdfsAndCountChunks E first.1 = first.
Proof.
  cbv zeta. unfold step1_AnalyzePdfsAndCountChunks.
  destruct (negb (has_sheet E)) eqn:Es; simpl; [done|].
  rewrite !step1_loop_row_loop.
  apply (row_loop_twice (analyze_row E) (fun _ => false)).
  - intros i r s Hr.
    destruct (analyze_row_row E i r s Hr) as (H1 & H2 & r' & H3 & _).
    repeat apply conj; [done | done |]. by exists r'.
  - intros i r s r' s'. apply analyze_row_stable.
  - done.
  - destruct (row_loop_rows (analyze_row E) (fun _ => false) (step1_row E)
                ltac:(by left) (analyze_row_row E) (sheet st) 0 st)
      as (Hlen & _); done.
  - done.
Qed.
